(** * Resource vectors of the scheduler core: pkg/common/resources/resources.go

    A shallow embedding of the Go package [resources] and the proofs of
    its specification.

    - [Quantity] is Go's [int64]: an integer of [Z] kept in range by
      [wrap64], the two's-complement wrap-around of every Go operator.
    - [float64] is IEEE 754 binary64: the [spec_float] of the Standard
      Library at precision 53 and maximal exponent 1024, with its
      round-to-nearest-even operations.
    - [Resource.Resources], a [map[string]Quantity], is a
      [gmap string Z]; a [*Resource] that may be nil is an [option]. *)

From Stdlib Require Import ZArith Lia Bool List Sorted Permutation.
From Stdlib Require Import Floats.SpecFloat.
From stdpp Require Import base option list gmap strings fin_maps.

Open Scope Z_scope.

(** ** Quantity: Go's int64 *)

Module Int64.

Definition MinInt64 : Z := - 2 ^ 63.
Definition MaxInt64 : Z := 2 ^ 63 - 1.
Definition MaxInt32 : Z := 2 ^ 31 - 1.

Definition in_range (z : Z) : Prop := MinInt64 <= z <= MaxInt64.

(** The value an [int64] operator stores for the exact result [z]. *)
Definition wrap64 (z : Z) : Z := (z + 2 ^ 63) mod 2 ^ 64 - 2 ^ 63.

(** The result the specification asks of a safe operation whose
    exact result is [z]. *)
Definition clamp (z : Z) : Z := Z.max MinInt64 (Z.min MaxInt64 z).

(** Go's [+], [-] (unary and binary), [*] and [/] on int64.  [/]
    truncates toward zero, and [MinInt64 / -1] wraps. *)
Definition add (a b : Z) : Z := wrap64 (a + b).
Definition neg (a : Z) : Z := wrap64 (- a).
Definition mul (a b : Z) : Z := wrap64 (a * b).
Definition quot (a b : Z) : Z := wrap64 (Z.quot a b).

End Int64.

Import Int64.

Definition Quantity := Z.

(** [addVal], resources.go 245-264 (the log calls have no effect on
    the result). *)
Definition addVal (valA valB : Quantity) : Quantity :=
  let result := Int64.add valA valB in
  if negb (Bool.eqb (result <? valA) (valB <? 0)) then
    if valA <? 0 then MinInt64 else MaxInt64
  else result.

(** [subVal], resources.go 266-268. *)
Definition subVal (valA valB : Quantity) : Quantity :=
  addVal valA (Int64.neg valB).

(** [mulVal], resources.go 270-295. *)
Definition mulVal (valA valB : Quantity) : Quantity :=
  if (valA =? 0) || (valB =? 0) then 0
  else
    let result := Int64.mul valA valB in
    if negb (Int64.quot result valB =? valA)
       || ((valA =? MinInt64) && (valB =? -1)) then
      if negb (Bool.eqb (valA <? 0) (valB <? 0)) then MinInt64 else MaxInt64
    else result.

(** ** float64: IEEE 754 binary64 *)

Module Float64.

Definition prec : Z := 53.
Definition emax : Z := 1024.

Abbreviation float64 := spec_float (only parsing).

Definition zero : float64 := S754_zero false.

(** [float64(v)] for an int64 [v], and the float64 value of an
    integer constant: the nearest binary64, ties to even. *)
Definition of_int (z : Z) : float64 := binary_normalize prec emax z 0 false.

Definition div (x y : float64) : float64 := SFdiv prec emax x y.
Definition mul (x y : float64) : float64 := SFmul prec emax x y.

(** Go's [x < y], [x > y] and [x == y]. *)
Definition lt (x y : float64) : bool := SFltb x y.
Definition gt (x y : float64) : bool := SFltb y x.
Definition eq (x y : float64) : bool := SFeqb x y.

(** [math.IsNaN]. *)
Definition IsNaN (x : float64) : bool :=
  match x with S754_nan => true | _ => false end.

(** The integer part of a finite value, rounded toward zero. *)
Definition trunc (x : float64) : option Z :=
  match x with
  | S754_zero _ => Some 0
  | S754_finite s m e => Some (cond_Zopp s (Z.shiftl (Z.pos m) e))
  | S754_infinity _ | S754_nan => None
  end.

(** [int64(x)]: the fraction is discarded.  For a value with no
    int64 (NaN, an infinity, an integer part out of range) Go leaves
    the result to the implementation; the model takes the one of
    amd64, the most negative int64. *)
Definition to_int64 (x : float64) : Z :=
  match trunc x with
  | Some z => if (MinInt64 <=? z) && (z <=? MaxInt64) then z else MinInt64
  | None => MinInt64
  end.

(** The order of [sort.Float64s]: [x < y], with NaN before every
    other value. *)
Definition less (x y : float64) : bool :=
  lt x y || (IsNaN x && negb (IsNaN y)).

Fixpoint insert_sorted (x : float64) (l : list float64) : list float64 :=
  match l with
  | [] => [x]
  | y :: l' => if less x y then x :: l else y :: insert_sorted x l'
  end.

(** [sort.Float64s], a function of Go's library: the list in
    increasing order of [less].  The model sorts by insertion. *)
Definition Float64s (l : list float64) : list float64 :=
  foldr insert_sorted [] l.

End Float64.

Import Float64.

(** [mulValRatio], resources.go 297-319. *)
Definition mulValRatio (value : Z) (ratio : float64) : Z :=
  if (value =? 0) || Float64.eq ratio Float64.zero then 0
  else
    let result := Float64.mul (of_int value) ratio in
    if Float64.gt result (of_int MaxInt64) then MaxInt64
    else if Float64.lt result (of_int MinInt64) then MinInt64
    else to_int64 result.

(** ** Resource vectors *)

(** [type Resource struct { Resources map[string]Quantity }]. *)
Record Resource := mkResource { Resources : gmap string Z }.

(** A [*Resource]: [None] is nil.  The functions of this section are
    the ones that only read their arguments and build a new vector;
    they are modelled on the values the pointers refer to.  Module
    [Heap] below models the objects themselves. *)
Abbreviation ResourceP := (option Resource) (only parsing).

(** [m[k]] on a Go map: the zero value when [k] is absent. *)
Definition get (m : gmap string Z) (k : string) : Z := default 0 (m !! k).

(** [for k, v := range m]: the entries in the order the map yields
    them.  Go leaves the order open; the model takes the one of
    [map_to_list].  What the storing loops build does not depend on
    it ([store_loop_lookup] holds for every list of entries with
    distinct keys), and [getShares] sorts what its loop collects. *)
Definition range (m : gmap string Z) : list (string * Z) := map_to_list m.

Definition NewResource : Resource := mkResource ∅.

(** [var Zero = NewResource()]. *)
Definition Zero : Resource := NewResource.

(** [Clone], resources.go 137-146. *)
Definition Clone (r : ResourceP) : ResourceP :=
  match r with
  | None => None
  | Some r =>
      Some (mkResource
              (foldl (fun ret '(k, v) => <[k := v]> ret)
                     (Resources NewResource) (range (Resources r))))
  end.

Definition or_Zero (r : ResourceP) : Resource :=
  match r with None => Zero | Some r => r end.

(** The loop of [Add] and [Sub]: [out.Resources[k] = op(out.Resources[k], v)]. *)
Definition accumulate (op : Z -> Z -> Z) (out : gmap string Z)
    (entries : list (string * Z)) : gmap string Z :=
  foldl (fun out '(k, v) => <[k := op (get out k) v]> out) out entries.

(** [Add], resources.go 330-345. *)
Definition Add (left right : ResourceP) : ResourceP :=
  let left := or_Zero left in
  match right with
  | None => Clone (Some left)
  | Some r =>
      match Clone (Some left) with
      | Some out =>
          Some (mkResource (accumulate addVal (Resources out) (range (Resources r))))
      | None => None
      end
  end.

(** [Sub], resources.go 350-365. *)
Definition Sub (left right : ResourceP) : ResourceP :=
  let left := or_Zero left in
  match right with
  | None => Clone (Some left)
  | Some r =>
      match Clone (Some left) with
      | Some out =>
          Some (mkResource (accumulate subVal (Resources out) (range (Resources r))))
      | None => None
      end
  end.

(** The loop of [fitIn], resources.go 472-482. *)
Fixpoint fitIn_loop (r : gmap string Z) (skipUndef : bool)
    (entries : list (string * Z)) : bool :=
  match entries with
  | [] => true
  | (k, v) :: rest =>
      let largerValue := get r k in
      let ok := bool_decide (is_Some (r !! k)) in
      if skipUndef && negb ok then fitIn_loop r skipUndef rest
      else
        let largerValue := Z.max 0 largerValue in
        if v >? largerValue then false
        else fitIn_loop r skipUndef rest
  end.

(** [fitIn], resources.go 462-484. *)
Definition fitIn (r smaller : ResourceP) (skipUndef : bool) : bool :=
  let r := or_Zero r in
  match smaller with
  | None => true
  | Some smaller => fitIn_loop (Resources r) skipUndef (range (Resources smaller))
  end.

(** [FitIn] and [FitInMaxUndef], resources.go 448-457. *)
Definition FitIn (r smaller : ResourceP) : bool := fitIn r smaller false.
Definition FitInMaxUndef (r smaller : ResourceP) : bool := fitIn r smaller true.

(** [DeepEquals], resources.go 729-749.  Two pointers that are equal
    refer to one value, on which the loop answers true as well. *)
Fixpoint DeepEquals_loop (right : gmap string Z) (entries : list (string * Z)) : bool :=
  match entries with
  | [] => true
  | (k, v) :: rest =>
      match right !! k with
      | Some val => if negb (val =? v) then false else DeepEquals_loop right rest
      | None => false
      end
  end.

Definition DeepEquals (left right : ResourceP) : bool :=
  match left, right with
  | None, None => true
  | None, Some _ | Some _, None => false
  | Some l, Some r =>
      if negb (size (Resources r) =? size (Resources l))%nat then false
      else DeepEquals_loop (Resources r) (range (Resources l))
  end.

(** [Multiply], resources.go 788-799. *)
Definition Multiply (base : ResourceP) (ratio : Z) : ResourceP :=
  let ret := NewResource in
  match base with
  | None => Some ret
  | Some base =>
      if ratio =? 0 then Some ret
      else
        let qRatio := ratio in
        Some (mkResource
                (foldl (fun ret '(k, v) => <[k := mulVal v qRatio]> ret)
                       (Resources ret) (range (Resources base))))
  end.

(** [ComponentWiseMin], resources.go 946-972. *)
Definition ComponentWiseMin (left right : ResourceP) : ResourceP :=
  let out := NewResource in
  match left, right with
  | None, None => None
  | None, Some _ => Clone right
  | Some _, None => Clone left
  | Some l, Some r =>
      let out1 :=
        foldl (fun out '(k, v) =>
                 match Resources r !! k with
                 | Some val => <[k := Z.min v val]> out
                 | None => <[k := v]> out
                 end) (Resources out) (range (Resources l)) in
      let out2 :=
        foldl (fun out '(k, v) =>
                 match Resources l !! k with
                 | Some val => <[k := Z.min v val]> out
                 | None => <[k := v]> out
                 end) out1 (range (Resources r)) in
      Some (mkResource out2)
  end.

(** [ComponentWiseMax], resources.go 1039-1050. *)
Definition ComponentWiseMax (left right : ResourceP) : ResourceP :=
  let out := NewResource in
  match left, right with
  | Some l, Some r =>
      let out1 :=
        foldl (fun out '(k, v) => <[k := Z.max v (get (Resources r) k)]> out)
              (Resources out) (range (Resources l)) in
      let out2 :=
        foldl (fun out '(k, v) => <[k := Z.max v (get (Resources l) k)]> out)
              out1 (range (Resources r)) in
      Some (mkResource out2)
  | _, _ => Some out
  end.

(** ** Reading a vector in the words of the specification *)

(** [entry r k v]: the key [k] is present in [r], with the value [v]. *)
Definition entry (r : ResourceP) (k : string) (v : Z) : Prop :=
  exists x, r = Some x /\ Resources x !! k = Some v.

(** [present r k]: the key [k] is present in [r]. *)
Definition present (r : ResourceP) (k : string) : Prop :=
  exists v, entry r k v.

(** The value of [r] for [k], an absent key (and every key of a null
    vector) read as 0. *)
Definition valueOf (r : ResourceP) (k : string) : Z :=
  match r with
  | Some x => default 0 (Resources x !! k)
  | None => 0
  end.

(** A vector is valid when its values are int64, as the type
    [Quantity] has it. *)
Definition valid (r : ResourceP) : Prop :=
  forall k v, entry r k v -> in_range v.

(** A vector built from a list of entries. *)
Definition vec (l : list (string * Z)) : ResourceP :=
  Some (mkResource (list_to_map l)).

(** A loop whose body stores, at the key it visits, a value computed
    from the key, its value and what the target holds there: the shape
    of the loops of [Clone], [Add] and [Sub]. *)
Definition store_loop (g : option Z -> string -> Z -> Z)
    (out : gmap string Z) (entries : list (string * Z)) : gmap string Z :=
  foldl (fun out '(k, v) => <[k := g (out !! k) k v]> out) out entries.

(** ** Shares and fairness *)

(** [s[i] = x] on a slice: Go panics when [i] is out of range, which
    is [None] here. *)
Definition store {A} (s : list A) (i : nat) (x : A) : option (list A) :=
  if decide (i < length s)%nat then Some (<[i := x]> s) else None.

(** [s[i]] on a slice with an [int] index, [None] for the panic. *)
Definition index {A} (s : list A) (i : Z) : option A :=
  if i <? 0 then None else s !! Z.to_nat i.

(** A loop over a list whose body may panic. *)
Fixpoint foldlM {A B} (f : A -> B -> option A) (a : A) (l : list B) : option A :=
  match l with
  | [] => Some a
  | b :: l' => match f a b with Some a' => foldlM f a' l' | None => None end
  end.

(** The body of the loop of [getShares], resources.go 552-582, on the
    slice [shares] and the counter [idx]. *)
Definition getShares_body (total : ResourceP)
    (st : list float64 * nat) (kv : string * Z) : option (list float64 * nat) :=
  let '(shares, idx) := st in
  let '(k, v) := kv in
  if v =? 0 then Some (shares, idx)
  else
    match total with
    | None =>
        shares' ← store shares idx (of_int v); Some (shares', S idx)
    | Some t =>
        if get (Resources t) k =? 0 then
          shares' ← store shares idx (of_int v); Some (shares', S idx)
        else
          shares' ← store shares idx
                      (Float64.div (of_int v) (of_int (get (Resources t) k)));
          Some (shares', S idx)
    end.

(** [getShares], resources.go 545-587. *)
Definition getShares (res total : ResourceP) : option (list float64) :=
  match res with
  | None => Some []
  | Some r =>
      if (size (Resources r) =? 0)%nat then Some []
      else
        let shares := replicate (size (Resources r)) Float64.zero in
        st ← foldlM (getShares_body total) (shares, 0%nat) (range (Resources r));
        Some (Float64s st.1)
  end.

(** The outcome of a loop of [compareShares]: a [return], or the
    indices with which the loop was left. *)
Inductive flow (A : Type) : Type :=
  | Return (result : Z)
  | Exit (state : A).
Arguments Return {A} result.
Arguments Exit {A} state.

(** The first loop of [compareShares], resources.go 655-664.  [None]
    is a run that panics or needs more than [fuel] iterations. *)
Fixpoint compare_both (fuel : nat) (lshares rshares : list float64)
    (lIdx rIdx : Z) : option (flow (Z * Z)) :=
  if (0 <=? rIdx) && (0 <=? lIdx) then
    match fuel with
    | O => None
    | S fuel' =>
        l ← index lshares lIdx;
        r ← index rshares rIdx;
        if Float64.gt l r then Some (Return 1)
        else if Float64.lt l r then Some (Return (-1))
        else compare_both fuel' lshares rshares (lIdx - 1) (rIdx - 1)
    end
  else Some (Exit (lIdx, rIdx)).

(** The loops over what is left of one list, resources.go 672-680 and
    683-691: [pos] is returned at a positive share, [neg] at a
    negative one. *)
Fixpoint compare_rest (fuel : nat) (pos neg : Z) (shares : list float64)
    (idx : Z) : option (flow Z) :=
  if 0 <=? idx then
    match fuel with
    | O => None
    | S fuel' =>
        x ← index shares idx;
        if Float64.gt x Float64.zero then Some (Return pos)
        else if Float64.lt x Float64.zero then Some (Return neg)
        else compare_rest fuel' pos neg shares (idx - 1)
    end
  else Some (Exit idx).

(** [compareShares], resources.go 650-694. *)
Definition compareShares (lshares rshares : list float64) : option Z :=
  let fuel := S (length lshares + length rshares) in
  let lIdx := Z.of_nat (length lshares) - 1 in
  let rIdx := Z.of_nat (length rshares) - 1 in
  match compare_both fuel lshares rshares lIdx rIdx with
  | None => None
  | Some (Return result) => Some result
  | Some (Exit (lIdx, rIdx)) =>
      if (lIdx =? -1) && (rIdx =? -1) then Some 0
      else
        match (if 0 <=? lIdx then compare_rest fuel 1 (-1) lshares lIdx
               else Some (Exit lIdx)) with
        | None => None
        | Some (Return result) => Some result
        | Some (Exit _) =>
            match compare_rest fuel (-1) 1 rshares rIdx with
            | None => None
            | Some (Return result) => Some result
            | Some (Exit _) => Some 0
            end
        end
  end.

(** [CompUsageRatio], resources.go 594-599. *)
Definition CompUsageRatio (left right total : ResourceP) : option Z :=
  lshares ← getShares left total;
  rshares ← getShares right total;
  compareShares lshares rshares.

(** The last element of a share list, or 0: resources.go 629-636. *)
Definition largest_share (shares : list float64) : option float64 :=
  let lshare := Float64.zero in
  let shareLen := length shares in
  if negb (shareLen =? 0)%nat then index shares (Z.of_nat shareLen - 1)
  else Some lshare.

(** [FairnessRatio], resources.go 624-644. *)
Definition FairnessRatio (left right total : ResourceP) : option float64 :=
  lshares ← getShares left total;
  rshares ← getShares right total;
  lshare ← largest_share lshares;
  rshare ← largest_share rshares;
  let ratio := Float64.div lshare rshare in
  if IsNaN ratio then Some (of_int 1) else Some ratio.

(** ** Capacity statistics *)

(** The value computed by the [switch] of [CalculateAbsUsedCapacity],
    resources.go 1090-1109. *)
Definition absResValue (capResource usedResource : Z) : Z :=
  if usedResource <=? 0 then 0
  else if capResource <=? 0 then 100
  else
    let div := Float64.mul (Float64.div (of_int usedResource) (of_int capResource))
                           (of_int 100) in
    if Float64.gt div (of_int MaxInt32) then MaxInt32
    else to_int64 div.

(** [CalculateAbsUsedCapacity], resources.go 1072-1117.  The builder
    [missingResources] only feeds the log. *)
Definition CalculateAbsUsedCapacity (capacity used : ResourceP) : ResourceP :=
  let absResource := NewResource in
  match capacity, used with
  | Some c, Some u =>
      Some (mkResource
        (foldl (fun absResource '(resourceName, capResource) =>
                  match Resources u !! resourceName with
                  | None => absResource
                  | Some usedResource =>
                      <[resourceName := absResValue capResource usedResource]> absResource
                  end)
               (Resources absResource) (range (Resources c))))
  | _, _ => Some absResource
  end.

(** ** The comparison of shares in the words of the specification *)

(** What is left of the longer list decides by its sign, read from
    the largest share down: a positive share wins, a negative one
    loses, a zero passes to the next. *)
Fixpoint decide_by_sign (rest : list float64) : Z :=
  match rest with
  | [] => 0
  | x :: rest' =>
      if Float64.eq x Float64.zero then decide_by_sign rest'
      else if Float64.gt x Float64.zero then 1 else -1
  end.

(** The two lists, each from its largest share down: the first pair
    of different shares decides; a list that ends first leaves the
    decision to the rest of the other; two lists that end together
    are equal. *)
Fixpoint compare_from_largest (l r : list float64) : Z :=
  match l, r with
  | [], [] => 0
  | x :: l', y :: r' =>
      if Float64.eq x y then compare_from_largest l' r'
      else if Float64.gt x y then 1 else -1
  | _ :: _, [] => decide_by_sign l
  | [], _ :: _ => - decide_by_sign r
  end.

(** ** The order of float64 *)

(** The place of a float64 in the order of [sort.Float64s]: NaN, the
    negative infinity, the negative values, the zeros, the positive
    values, the positive infinity; values of one sign by exponent and
    mantissa. *)
Definition rank (x : float64) : Z * Z * Z :=
  match x with
  | S754_nan => (0, 0, 0)
  | S754_infinity true => (1, 0, 0)
  | S754_finite true m e => (2, - e, - Z.pos m)
  | S754_zero _ => (3, 0, 0)
  | S754_finite false m e => (4, e, Z.pos m)
  | S754_infinity false => (5, 0, 0)
  end.

Definition lex_lt (a b : Z * Z * Z) : Prop :=
  a.1.1 < b.1.1 \/
  (a.1.1 = b.1.1 /\ (a.1.2 < b.1.2 \/ (a.1.2 = b.1.2 /\ a.2 < b.2))).

(** A list in the increasing order of [sort.Float64s]: no element is
    [less] than one before it. *)
Definition ascending (l : list float64) : Prop :=
  StronglySorted (fun x y => less y x = false) l.

Definition NaN_free (l : list float64) : Prop :=
  Forall (fun x => IsNaN x = false) l.


(** ** The shares in the words of the specification *)

(** The entries of a vector, none for a null one. *)
Definition entries (r : ResourceP) : list (string * Z) :=
  match r with
  | Some x => range (Resources x)
  | None => []
  end.

(** The share of an entry: its value over the total of its key, and
    the value itself when there is no total or the total of the key
    is 0. *)
Definition share_of (total : ResourceP) (kv : string * Z) : float64 :=
  match total with
  | None => of_int kv.2
  | Some t =>
      if get (Resources t) kv.1 =? 0 then of_int kv.2
      else Float64.div (of_int kv.2) (of_int (get (Resources t) kv.1))
  end.

(** The share of an entry where an entry of value 0 counts as the
    share 0. *)
Definition share_or_zero (total : ResourceP) (kv : string * Z) : float64 :=
  if kv.2 =? 0 then Float64.zero else share_of total kv.

(** The entries whose value is not 0. *)
Definition nonzero (kv : string * Z) : Prop := kv.2 <> 0.

#[global] Instance nonzero_dec kv : Decision (nonzero kv).
Proof. unfold nonzero. apply _. Defined.

Definition nonzero_entries (r : ResourceP) : list (string * Z) :=
  filter nonzero (entries r).

(** ** The vectors as objects *)

(** [Add] and [Sub] on the memory of the program: a [*Resource] is
    the address of an object, the object holds the reference of its
    map, and a map is updated in place.  Two pointers, and two
    objects, may share what they refer to. *)
Module Heap.

Definition loc := positive.

Record heap := mkHeap {
  Zero : loc;                        (* the variable [Zero] *)
  objects : gmap loc loc;            (* each Resource object: its field [Resources] *)
  maps : gmap loc (gmap string Z)    (* each map: its entries *)
}.

(** A computation on the memory; [None] is a panic (a nil or dangling
    reference). *)
Definition M (A : Type) : Type := heap -> option (A * heap).

#[global] Instance M_ret : MRet M := fun A x h => Some (x, h).
#[global] Instance M_bind : MBind M := fun A B f m h =>
  match m h with
  | Some (x, h') => f x h'
  | None => None
  end.

Definition panic {A} : M A := fun _ => None.

(** [make(map[string]Quantity)]. *)
Definition make_map : M loc := fun h =>
  let m := fresh (dom (maps h)) in
  Some (m, mkHeap (Zero h) (objects h) (<[m := ∅]> (maps h))).

(** [&Resource{Resources: m}]. *)
Definition new_object (m : loc) : M loc := fun h =>
  let r := fresh (dom (objects h)) in
  Some (r, mkHeap (Zero h) (<[r := m]> (objects h)) (maps h)).

(** [r.Resources]. *)
Definition field (r : loc) : M loc := fun h =>
  match objects h !! r with
  | Some m => Some (m, h)
  | None => None
  end.

(** [m[k]]. *)
Definition map_get (m : loc) (k : string) : M Z := fun h =>
  match maps h !! m with
  | Some entries => Some (get entries k, h)
  | None => None
  end.

(** [m[k] = v]. *)
Definition map_set (m : loc) (k : string) (v : Z) : M unit := fun h =>
  match maps h !! m with
  | Some entries =>
      Some (tt, mkHeap (Zero h) (objects h) (<[m := <[k := v]> entries]> (maps h)))
  | None => None
  end.

(** The entries that [range m] visits: those the map holds when the
    loop starts. *)
Definition map_range (m : loc) : M (list (string * Z)) := fun h =>
  match maps h !! m with
  | Some entries => Some (range entries, h)
  | None => None
  end.

Definition read_Zero : M loc := fun h => Some (Zero h, h).

Fixpoint forM {A} (l : list A) (body : A -> M unit) : M unit :=
  match l with
  | [] => mret tt
  | x :: l' => body x ≫= fun _ => forM l' body
  end.

(** [NewResource], resources.go 51-53. *)
Definition NewResource : M loc :=
  m ← make_map; new_object m.

(** [Clone], resources.go 137-146. *)
Definition Clone (r : option loc) : M (option loc) :=
  match r with
  | None => mret None
  | Some r =>
      ret ← NewResource;
      src ← field r;
      kvs ← map_range src;
      forM kvs (fun '(k, v) => dst ← field ret; map_set dst k v) ≫= fun _ =>
      mret (Some ret)
  end.

(** [Add], resources.go 330-345. *)
Definition Add (left right : option loc) : M (option loc) :=
  left ← match left with
         | None => z ← read_Zero; mret (Some z)
         | Some _ => mret left
         end;
  match right with
  | None => Clone left
  | Some r =>
      out ← Clone left;
      match out with
      | None => panic
      | Some out =>
          src ← field r;
          kvs ← map_range src;
          forM kvs (fun '(k, v) =>
                      dst ← field out;
                      cur ← map_get dst k;
                      map_set dst k (addVal cur v)) ≫= fun _ =>
          mret (Some out)
      end
  end.

(** [Sub], resources.go 350-365. *)
Definition Sub (left right : option loc) : M (option loc) :=
  left ← match left with
         | None => z ← read_Zero; mret (Some z)
         | Some _ => mret left
         end;
  match right with
  | None => Clone left
  | Some r =>
      out ← Clone left;
      match out with
      | None => panic
      | Some out =>
          src ← field r;
          kvs ← map_range src;
          forM kvs (fun '(k, v) =>
                      dst ← field out;
                      cur ← map_get dst k;
                      map_set dst k (subVal cur v)) ≫= fun _ =>
          mret (Some out)
      end
  end.

(** The shape that [Add] and [Sub] share, with the scalar operation
    left open: both are instances of it. *)
Definition combine (op : Z -> Z -> Z) (left right : option loc) : M (option loc) :=
  left ← match left with
         | None => z ← read_Zero; mret (Some z)
         | Some _ => mret left
         end;
  match right with
  | None => Clone left
  | Some r =>
      out ← Clone left;
      match out with
      | None => panic
      | Some out =>
          src ← field r;
          kvs ← map_range src;
          forM kvs (fun '(k, v) =>
                      dst ← field out;
                      cur ← map_get dst k;
                      map_set dst k (op cur v)) ≫= fun _ =>
          mret (Some out)
      end
  end.

(** The memory is well formed: [Zero] is an object, and the field of
    every object is a map. *)
Definition wf (h : heap) : Prop :=
  is_Some (objects h !! Zero h) /\
  forall r m, objects h !! r = Some m -> is_Some (maps h !! m).

(** A pointer is nil or the address of an object. *)
Definition valid_ptr (h : heap) (p : option loc) : Prop :=
  match p with
  | None => True
  | Some r => is_Some (objects h !! r)
  end.

(** The vector a pointer refers to: its keys and values. *)
Definition value (h : heap) (p : option loc) : option Resource :=
  r ← p; m ← objects h !! r; entries ← maps h !! m; Some (mkResource entries).

(** What a call that returns [res] in the memory [h'] has left of
    the memory [h] and of the arguments [l] and [r]: every object and
    every map of [h] is in [h'] as it was, so each argument has the
    keys and values it had; [res] is an object that [h] did not have,
    with a map that [h] did not have. *)
Definition preserved (h h' : heap) (l r : option loc) (res : loc) : Prop :=
  objects h ⊆ objects h' /\
  maps h ⊆ maps h' /\
  Zero h' = Zero h /\
  value h' l = value h l /\
  value h' r = value h r /\
  objects h !! res = None /\
  Some res <> l /\
  Some res <> r /\
  exists m, objects h' !! res = Some m /\ maps h !! m = None /\
            is_Some (maps h' !! m).

End Heap.

(** ** The other operations on vectors *)

(** [IsEmpty], resources.go 1033-1035. *)
Definition IsEmpty (r : ResourceP) : bool :=
  match r with
  | None => true
  | Some r => (size (Resources r) =? 0)%nat
  end.

(** [IsZero], resources.go 1054-1064. *)
Definition IsZero (zero : ResourceP) : bool :=
  match zero with
  | None => true
  | Some z => forallb (fun '(_, v) => negb (negb (v =? 0))) (range (Resources z))
  end.

(** [HasNegativeValue], resources.go 1020-1030. *)
Definition HasNegativeValue (r : ResourceP) : bool :=
  match r with
  | None => false
  | Some r => existsb (fun '(_, v) => v <? 0) (range (Resources r))
  end.

(** The loop of [StrictlyGreaterThanZero], resources.go 932-939:
    [None] is the [return false] at a negative value. *)
Fixpoint StrictlyGreaterThanZero_loop (greater : bool)
    (entries : list (string * Z)) : option bool :=
  match entries with
  | [] => Some greater
  | (_, v) :: rest =>
      if v <? 0 then None
      else StrictlyGreaterThanZero_loop (if v >? 0 then true else greater) rest
  end.

(** [StrictlyGreaterThanZero], resources.go 927-941. *)
Definition StrictlyGreaterThanZero (larger : ResourceP) : bool :=
  match larger with
  | None => false
  | Some l =>
      match StrictlyGreaterThanZero_loop false (range (Resources l)) with
      | Some greater => greater
      | None => false
      end
  end.

(** [Prune], resources.go 150-159.  The method changes its receiver;
    the model gives the vector the receiver is after the call. *)
Definition Prune (r : ResourceP) : ResourceP :=
  match r with
  | None => None
  | Some r =>
      Some (mkResource
              (foldl (fun m '(k, v) => if v =? 0 then delete k m else m)
                     (Resources r) (range (Resources r))))
  end.

(** [Equals], resources.go 701-721.  For one non-nil pointer passed
    twice the two loops answer true, as the test [left == right]
    does. *)
Definition Equals (left right : ResourceP) : bool :=
  match left, right with
  | None, None => true
  | None, Some _ | Some _, None => false
  | Some l, Some r =>
      forallb (fun '(k, v) => negb (negb (get (Resources r) k =? v)))
              (range (Resources l))
      && forallb (fun '(k, v) => negb (negb (get (Resources l) k =? v)))
                 (range (Resources r))
  end.

(** [EqualsOrEmpty], resources.go 778-783. *)
Definition EqualsOrEmpty (left right : ResourceP) : bool :=
  if IsZero left && IsZero right then true else Equals left right.

(** [SubOnlyExisting], resources.go 368-379. *)
Definition SubOnlyExisting (base delta : ResourceP) : ResourceP :=
  match base, delta with
  | Some b, Some d =>
      let result := NewResource in
      Some (mkResource
              (foldl (fun result '(k, _) =>
                        <[k := subVal (get (Resources b) k) (get (Resources d) k)]> result)
                     (Resources result) (range (Resources b))))
  | _, _ => Clone base
  end.

(** [AddOnlyExisting], resources.go 382-393. *)
Definition AddOnlyExisting (base delta : ResourceP) : ResourceP :=
  match base, delta with
  | Some b, Some d =>
      let result := NewResource in
      Some (mkResource
              (foldl (fun result '(k, _) =>
                        <[k := addVal (get (Resources b) k) (get (Resources d) k)]> result)
                     (Resources result) (range (Resources b))))
  | _, _ => Clone base
  end.

(** The body of the loop of [subNonNegative], resources.go 430-441,
    on the vector [out] and the string [message]. *)
Definition subNonNegative_body (st : gmap string Z * string) (kv : string * Z)
    : gmap string Z * string :=
  let '(out, message) := st in
  let '(k, v) := kv in
  let out := <[k := subVal (get out k) v]> out in
  if get out k <? 0 then
    let message :=
      if String.eqb message "" then
        ("resource quantity less than zero for: " +:+ k)%string
      else (message +:+ (", " +:+ k))%string in
    (<[k := 0]> out, message)
  else (out, message).

(** [subNonNegative], resources.go 418-443. *)
Definition subNonNegative (left right : ResourceP) : ResourceP * string :=
  let message := ""%string in
  let left := or_Zero left in
  match right with
  | None => (Clone (Some left), message)
  | Some r =>
      match Clone (Some left) with
      | Some out =>
          let st := foldl subNonNegative_body (Resources out, message)
                          (range (Resources r)) in
          (Some (mkResource st.1), st.2)
      | None => (None, message)
      end
  end.

(** [SubEliminateNegative], resources.go 398-401. *)
Definition SubEliminateNegative (left right : ResourceP) : ResourceP :=
  (subNonNegative left right).1.

(** [SubErrorNegative], resources.go 407-414: the error is [None] for
    nil, and the message of [errors.New] otherwise. *)
Definition SubErrorNegative (left right : ResourceP) : ResourceP * option string :=
  let '(res, message) := subNonNegative left right in
  let err := if negb (String.eqb message "") then Some message else None in
  (res, err).

(** The loops of [StrictlyGreaterThan], resources.go 829-846, on the
    flag [notEqual]: [None] is a [return false]. *)
Fixpoint StrictlyGreaterThan_larger (smaller : gmap string Z) (notEqual : bool)
    (entries : list (string * Z)) : option bool :=
  match entries with
  | [] => Some notEqual
  | (k, v) :: rest =>
      if get smaller k >? v then None
      else StrictlyGreaterThan_larger smaller
             (if negb (get smaller k =? v) then true else notEqual) rest
  end.

Fixpoint StrictlyGreaterThan_smaller (larger : gmap string Z) (notEqual : bool)
    (entries : list (string * Z)) : option bool :=
  match entries with
  | [] => Some notEqual
  | (k, v) :: rest =>
      if get larger k <? v then None
      else StrictlyGreaterThan_smaller larger
             (if negb (get larger k =? v) then true else notEqual) rest
  end.

(** [StrictlyGreaterThan], resources.go 818-850. *)
Definition StrictlyGreaterThan (larger smaller : ResourceP) : bool :=
  let larger := or_Zero larger in
  let smaller := or_Zero smaller in
  let notEqual := false in
  match StrictlyGreaterThan_larger (Resources smaller) notEqual
          (range (Resources larger)) with
  | None => false
  | Some notEqual =>
      match StrictlyGreaterThan_smaller (Resources larger) notEqual
              (range (Resources smaller)) with
      | None => false
      | Some notEqual => notEqual
      end
  end.

(** [StrictlyGreaterThanOrEquals], resources.go 853-874. *)
Definition StrictlyGreaterThanOrEquals (larger smaller : ResourceP) : bool :=
  let larger := or_Zero larger in
  let smaller := or_Zero smaller in
  forallb (fun '(k, v) => negb (get (Resources smaller) k >? v))
          (range (Resources larger))
  && forallb (fun '(k, v) => negb (get (Resources larger) k <? v))
             (range (Resources smaller)).

(** The state of the loop of [StrictlyGreaterThanOnlyExisting]. *)
Record sgtoe_state := mkSgtoe {
  notEqual : bool;
  atleastOneResourcePresent : bool;
  isAllPositiveInLarger : bool
}.

(** The loop of [StrictlyGreaterThanOnlyExisting], resources.go
    896-912: [None] is the [return false]. *)
Fixpoint StrictlyGreaterThanOnlyExisting_loop (smaller : Resource) (st : sgtoe_state)
    (entries : list (string * Z)) : option sgtoe_state :=
  match entries with
  | [] => Some st
  | (k, v) :: rest =>
      let st :=
        if IsEmpty (Some smaller) && (v <=? 0)
        then mkSgtoe (notEqual st) (atleastOneResourcePresent st) false
        else st in
      match Resources smaller !! k with
      | Some val =>
          let st := mkSgtoe (notEqual st) true (isAllPositiveInLarger st) in
          if val >? v then None
          else
            let st :=
              if negb (val =? v)
              then mkSgtoe true (atleastOneResourcePresent st) (isAllPositiveInLarger st)
              else st in
            StrictlyGreaterThanOnlyExisting_loop smaller st rest
      | None => StrictlyGreaterThanOnlyExisting_loop smaller st rest
      end
  end.

(** [StrictlyGreaterThanOnlyExisting], resources.go 880-923. *)
Definition StrictlyGreaterThanOnlyExisting (r smaller : ResourceP) : bool :=
  let r := or_Zero r in
  let smaller := or_Zero smaller in
  match StrictlyGreaterThanOnlyExisting_loop smaller (mkSgtoe false false true)
          (range (Resources r)) with
  | None => false
  | Some st =>
      if IsEmpty (Some smaller) && negb (IsEmpty (Some r)) then isAllPositiveInLarger st
      else if atleastOneResourcePresent st then notEqual st
      else negb (IsEmpty (Some r)) && negb (IsEmpty (Some smaller))
  end.

(** [MergeIfNotPresent], resources.go 978-995. *)
Definition MergeIfNotPresent (left right : ResourceP) : ResourceP :=
  match left, right with
  | None, None => None
  | None, Some _ => Clone right
  | Some _, None => Clone left
  | Some l, Some r =>
      match Clone left with
      | Some out =>
          Some (mkResource
                  (foldl (fun out '(k, v) =>
                            match Resources l !! k with
                            | Some _ => out
                            | None => <[k := v]> out
                            end) (Resources out) (range (Resources r))))
      | None => None
      end
  end.

(** [ComponentWiseMinOnlyExisting], resources.go 999-1018. *)
Definition ComponentWiseMinOnlyExisting (left right : ResourceP) : ResourceP :=
  let out := NewResource in
  match left, right with
  | None, _ => None
  | Some _, None => Clone left
  | Some l, Some r =>
      Some (mkResource
              (foldl (fun out '(k, v) =>
                        match Resources r !! k with
                        | Some val => <[k := Z.min v val]> out
                        | None => <[k := v]> out
                        end) (Resources out) (range (Resources l))))
  end.

(** [MultiplyBy], resources.go 805-814. *)
Definition MultiplyBy (base : ResourceP) (ratio : float64) : ResourceP :=
  let ret := NewResource in
  match base with
  | None => Some ret
  | Some base =>
      if Float64.eq ratio Float64.zero then Some ret
      else
        Some (mkResource
                (foldl (fun ret '(k, v) => <[k := mulValRatio v ratio]> ret)
                       (Resources ret) (range (Resources base))))
  end.

(** The value stored for [k] in [r], if any: none in a nil vector. *)
Definition lookupP (r : ResourceP) (k : string) : option Z :=
  match r with
  | Some x => Resources x !! k
  | None => None
  end.

(** ** Scores and dominant shares *)

(** Go's [+] on float64 and [-] on int64. *)
Definition Float64_add (x y : float64) : float64 := SFadd Float64.prec Float64.emax x y.
Definition Int64_sub (a b : Z) : Z := wrap64 (a - b).

(** [FitInScore], resources.go 213-240. *)
Definition FitInScore (r fit : ResourceP) : float64 :=
  let score := Float64.zero in
  match r, fit with
  | Some rr, Some f =>
      foldl (fun score '(key, fitVal) =>
               if fitVal <=? 0 then score
               else
                 let resVal := get (Resources rr) key in
                 if resVal <=? 0 then Float64_add score (of_int 1)
                 else if fitVal >? resVal then
                   Float64_add score
                     (Float64.div (of_int (Int64_sub fitVal resVal)) (of_int fitVal))
                 else score)
            score (range (Resources f))
  | None, Some f => of_int (Z.of_nat (size (Resources f)))
  | _, None => score
  end.

(** [getShareFairForDenominator], resources.go 489-511. *)
Definition getShareFairForDenominator (resourceType : string) (allocated : Z)
    (denominatorResources : ResourceP) : float64 * bool :=
  match denominatorResources with
  | None => (Float64.zero, false)
  | Some d =>
      let denominator := get (Resources d) resourceType in
      let ok := bool_decide (is_Some (Resources d !! resourceType)) in
      if ok && (denominator <=? 0) then
        if allocated <=? 0 then (Float64.zero, true) else (of_int 1, true)
      else if denominator >? 0 then
        (Float64.div (of_int allocated) (of_int denominator), true)
      else (Float64.zero, false)
  end.

(** [getFairShare], resources.go 517-540. *)
Definition getFairShare (allocated guaranteed fair : ResourceP) : float64 :=
  match allocated with
  | None => Float64.zero
  | Some a =>
      if (size (Resources a) =? 0)%nat then Float64.zero
      else
        foldl (fun maxShare '(k, v) =>
                 if get (Resources a) k <? 0 then maxShare
                 else
                   let '(nextShare, found) := getShareFairForDenominator k v guaranteed in
                   let '(nextShare, found) :=
                     if negb found then getShareFairForDenominator k v fair
                     else (nextShare, found) in
                   if found && Float64.gt nextShare maxShare then nextShare
                   else maxShare)
              Float64.zero (range (Resources a))
  end.

(** [CompUsageRatioSeparately], resources.go 606-618. *)
Definition CompUsageRatioSeparately
    (leftAllocated leftGuaranteed leftFairMax
     rightAllocated rightGuaranteed rightFairMax : ResourceP) : Z :=
  let lshare := getFairShare leftAllocated leftGuaranteed leftFairMax in
  let rshare := getFairShare rightAllocated rightGuaranteed rightFairMax in
  if Float64.gt lshare rshare then 1
  else if Float64.lt lshare rshare then -1
  else 0.

(** Go's [x >= y] on float64. *)
Definition Float64_ge (x y : float64) : bool := SFleb y x.

(** The body of the loop of [DominantResourceType], resources.go
    1132-1156, on the ratio [div] and the name [dominant]. *)
Definition DominantResourceType_body (capacity : Resource)
    (st : float64 * string) (kv : string * Z) : float64 * string :=
  let '(div, dominant) := st in
  let '(name, usedVal) := kv in
  match Resources capacity !! name with
  | None => (div, dominant)
  | Some capVal =>
      let temp :=
        if capVal =? 0 then
          if usedVal =? 0 then Float64.zero else of_int 1
        else Float64.div (of_int usedVal) (of_int capVal) in
      if Float64_ge temp div then (temp, name) else (div, dominant)
  end.

(** [DominantResourceType], resources.go 1126-1158. *)
Definition DominantResourceType (r capacity : ResourceP) : string :=
  match r, capacity with
  | Some u, Some c =>
      (foldl (DominantResourceType_body c) (Float64.zero, ""%string)
             (range (Resources u))).2
  | _, _ => ""%string
  end.

(** ** The methods that change their receiver *)

Module Mutators.

(** [NewResourceFromMap], resources.go 66-71: the object refers to
    the map it is given, which is not copied. *)
Definition NewResourceFromMap (m : option Heap.loc) : Heap.M Heap.loc :=
  match m with
  | None => Heap.NewResource
  | Some m => Heap.new_object m
  end.

(** [AddTo], resources.go 165-174. *)
Definition AddTo (r add : option Heap.loc) : Heap.M unit :=
  match r with
  | Some r =>
      match add with
      | None => mret tt
      | Some add =>
          src ← Heap.field add;
          kvs ← Heap.map_range src;
          Heap.forM kvs (fun '(k, v) =>
                           dst ← Heap.field r;
                           cur ← Heap.map_get dst k;
                           Heap.map_set dst k (addVal cur v))
      end
  | None => mret tt
  end.

(** [SubFrom], resources.go 180-189. *)
Definition SubFrom (r sub : option Heap.loc) : Heap.M unit :=
  match r with
  | Some r =>
      match sub with
      | None => mret tt
      | Some sub =>
          src ← Heap.field sub;
          kvs ← Heap.map_range src;
          Heap.forM kvs (fun '(k, v) =>
                           dst ← Heap.field r;
                           cur ← Heap.map_get dst k;
                           Heap.map_set dst k (subVal cur v))
      end
  | None => mret tt
  end.

(** The memory after a call that changed at most the map of the
    receiver [r]: the objects are the same, and every map other than
    the one [r] refers to has the entries it had. *)
Definition only_receiver_changed (h h' : Heap.heap) (r : option Heap.loc) : Prop :=
  Heap.Zero h' = Heap.Zero h /\
  Heap.objects h' = Heap.objects h /\
  forall m, (forall a, r = Some a -> Heap.objects h !! a <> Some m) ->
            Heap.maps h' !! m = Heap.maps h !! m.

End Mutators.

(** ** The wire form *)

(** Modelled from the spec: the wire form [si.Resource] of the
    scheduler interface, whose declaration is in another repository:
    a structure with a map from the name of a type to a pointer to a
    structure with the int64 [Value].  [None] is a nil pointer. *)
Record siResource := mkSiResource { siResources : gmap string (option Z) }.

(** [NewResourceFromProto], resources.go 55-64.  [None] is the panic
    of [v.Value] on a nil pointer. *)
Definition NewResourceFromProto (proto : option siResource) : option Resource :=
  let out := NewResource in
  match proto with
  | None => Some out
  | Some p =>
      mkResource <$>
        foldlM (fun out '(k, v) =>
                  match v with
                  | Some Value => Some (<[k := Value]> out)
                  | None => None
                  end)
               (Resources out) (map_to_list (siResources p))
  end.

(** [ToProto], resources.go 123-132. *)
Definition ToProto (r : ResourceP) : siResource :=
  let proto := (∅ : gmap string (option Z)) in
  match r with
  | None => mkSiResource proto
  | Some r =>
      mkSiResource (foldl (fun proto '(k, v) => <[k := Some v]> proto)
                          proto (range (Resources r)))
  end.

(** [DAOMap], resources.go 111-119. *)
Definition DAOMap (r : ResourceP) : gmap string Z :=
  let res := (∅ : gmap string Z) in
  match r with
  | None => res
  | Some r => foldl (fun res '(k, v) => <[k := v]> res) res (range (Resources r))
  end.
(** ** Scalar arithmetic *)

Section ScalarArithmetic.

Lemma wrap64_id z : in_range z -> wrap64 z = z.
Proof.
  unfold in_range, wrap64, MinInt64, MaxInt64. intros H.
  rewrite Z.mod_small; lia.
Qed.

Lemma wrap64_range z : in_range (wrap64 z).
Proof.
  unfold in_range, wrap64, MinInt64, MaxInt64.
  pose proof (Z.mod_pos_bound (z + 2 ^ 63) (2 ^ 64) ltac:(lia)). lia.
Qed.

Lemma wrap64_above z :
  MaxInt64 < z -> z <= 2 * MaxInt64 -> wrap64 z = z - 2 ^ 64.
Proof.
  unfold wrap64, MaxInt64. intros H1 H2.
  replace (z + 2 ^ 63) with ((z - 2 ^ 63) + 1 * 2 ^ 64) by lia.
  rewrite Z.mod_add by lia. rewrite Z.mod_small; lia.
Qed.

Lemma wrap64_below z :
  z < MinInt64 -> 2 * MinInt64 <= z -> wrap64 z = z + 2 ^ 64.
Proof.
  unfold wrap64, MinInt64. intros H1 H2.
  replace (z + 2 ^ 63) with ((z + 2 ^ 63 + 2 ^ 64) + (-1) * 2 ^ 64) by lia.
  rewrite Z.mod_add by lia. rewrite Z.mod_small; lia.
Qed.

(** [addVal] is the exact sum clamped to the int64 range. *)
Lemma addVal_clamp a b :
  in_range a -> in_range b -> addVal a b = clamp (a + b).
Proof.
  intros Ha Hb. unfold addVal, Int64.add, clamp.
  destruct (Z_lt_le_dec MaxInt64 (a + b)) as [Hhi|Hhi].
  - rewrite wrap64_above by (unfold in_range, MinInt64, MaxInt64 in *; lia).
    unfold in_range, MinInt64, MaxInt64 in *.
    destruct (Z.ltb_spec (a + b - 2 ^ 64) a); [|lia].
    destruct (Z.ltb_spec b 0); [lia|]. simpl.
    destruct (Z.ltb_spec a 0); lia.
  - destruct (Z_lt_le_dec (a + b) MinInt64) as [Hlo|Hlo].
    + rewrite wrap64_below by (unfold in_range, MinInt64, MaxInt64 in *; lia).
      unfold in_range, MinInt64, MaxInt64 in *.
      destruct (Z.ltb_spec (a + b + 2 ^ 64) a); [lia|].
      destruct (Z.ltb_spec b 0); [|lia]. simpl.
      destruct (Z.ltb_spec a 0); lia.
    + rewrite wrap64_id by (unfold in_range; lia).
      destruct (Z.ltb_spec (a + b) a), (Z.ltb_spec b 0); simpl; lia.
Qed.

Lemma addVal_range a b : in_range a -> in_range b -> in_range (addVal a b).
Proof.
  intros Ha Hb. rewrite addVal_clamp by done.
  unfold clamp, in_range, MinInt64, MaxInt64. lia.
Qed.

Lemma addVal_comm a b : in_range a -> in_range b -> addVal a b = addVal b a.
Proof. intros. rewrite !addVal_clamp by done. by rewrite Z.add_comm. Qed.

Lemma addVal_0_l v : in_range v -> addVal 0 v = v.
Proof.
  intros Hv. rewrite addVal_clamp by (done || (unfold in_range, MinInt64, MaxInt64; lia)).
  unfold clamp, in_range in *. lia.
Qed.

(** [subVal] is the exact difference clamped to the int64 range for
    every subtrahend whose negation is an int64. *)
Lemma subVal_clamp a b :
  in_range a -> in_range b -> b <> MinInt64 -> subVal a b = clamp (a - b).
Proof.
  intros Ha Hb Hne. unfold subVal, Int64.neg.
  assert (Hn : in_range (- b)) by (unfold in_range, MinInt64, MaxInt64 in *; lia).
  rewrite (wrap64_id _ Hn). rewrite addVal_clamp by done. reflexivity.
Qed.

End ScalarArithmetic.

Section MulVal.

Lemma wrap64_eq z : exists k, wrap64 z = z - k * 2 ^ 64.
Proof.
  exists ((z + 2 ^ 63) / 2 ^ 64). unfold wrap64.
  rewrite Z.mod_eq by lia. lia.
Qed.

(** The overflow test of [mulVal] fires exactly when the exact
    product is not an int64. *)
Lemma mulVal_test_out a b :
  in_range a -> in_range b -> b <> 0 -> ~ in_range (a * b) ->
  negb (Int64.quot (Int64.mul a b) b =? a)
  || ((a =? MinInt64) && (b =? -1)) = true.
Proof.
  intros Ha Hb Hb0 Hout. unfold Int64.quot, Int64.mul.
  destruct (wrap64_eq (a * b)) as [k Hk].
  pose proof (wrap64_range (a * b)) as Hr.
  set (r := wrap64 (a * b)) in *.
  pose proof (Z.quot_rem' r b) as Hqr.
  pose proof (Z.rem_bound_abs r b Hb0) as Hm.
  pose proof (Z.rem_sign_mul r b Hb0) as Hs.
  set (q := Z.quot r b) in *. set (m := Z.rem r b) in *.
  destruct (Z.eqb_spec (wrap64 q) a) as [Heq|Hne]; [|reflexivity].
  simpl.
  assert (Hk0 : k <> 0).
  { intros ->. apply Hout. replace (a * b) with r by lia. exact Hr. }
  unfold in_range, MinInt64, MaxInt64 in *.
  destruct (wrap64_eq q) as [j Hj].
  assert (Hqa : Z.abs q <= Z.abs r).
  { unfold q. rewrite <- Z.quot_abs by done.
    apply Z.quot_le_upper_bound; nia. }
  clearbody q m r.
  destruct (Z.eq_dec j 0) as [->|Hj0].
  - (* the quotient did not wrap: it cannot be valA *)
    exfalso. assert (q = a) by lia. subst a. nia.
  - (* the quotient wrapped: MinInt64 / -1 *)
    assert (q = 2 ^ 63) by lia.
    assert (Z.abs b = 1) by nia.
    assert (b = -1) by nia.
    assert (Ha' : a = - 2 ^ 63) by lia.
    rewrite Ha'. subst b. reflexivity.
Qed.

Lemma mulVal_clamp a b :
  in_range a -> in_range b -> mulVal a b = clamp (a * b).
Proof.
  intros Ha Hb. unfold mulVal.
  destruct (Z.eqb_spec a 0) as [->|Ha0]; [reflexivity|].
  destruct (Z.eqb_spec b 0) as [->|Hb0]; simpl.
  { rewrite Z.mul_0_r. reflexivity. }
  destruct (decide (in_range (a * b))) as [Hin|Hout].
  - unfold Int64.quot, Int64.mul. rewrite (wrap64_id _ Hin).
    rewrite Z.quot_mul by done. rewrite (wrap64_id _ Ha), Z.eqb_refl. simpl.
    replace ((a =? MinInt64) && (b =? -1)) with false.
    + unfold clamp, in_range in *. lia.
    + symmetry. apply andb_false_iff.
      destruct (Z.eqb_spec a MinInt64) as [->|]; [|by left].
      destruct (Z.eqb_spec b (-1)) as [->|]; [|by right].
      exfalso. unfold in_range, MinInt64, MaxInt64 in *. lia.
  - rewrite mulVal_test_out by done.
    unfold clamp, in_range, MinInt64, MaxInt64 in *.
    destruct (Z.ltb_spec a 0), (Z.ltb_spec b 0); simpl; nia.
Qed.

Lemma mulVal_range a b : in_range a -> in_range b -> in_range (mulVal a b).
Proof.
  intros Ha Hb. rewrite mulVal_clamp by done.
  unfold clamp, in_range, MinInt64, MaxInt64. lia.
Qed.

End MulVal.

(** ** The subtraction of the most negative int64 *)

Section SubValMinInt64.

(** The negation of [MinInt64] wraps to [MinInt64] itself, so
    [subVal(a, MinInt64)] adds [MinInt64] where it should add 2^63:
    the result is never the clamped difference. *)
Lemma subVal_MinInt64_wrong a :
  in_range a ->
  subVal a MinInt64 = clamp (a + MinInt64) /\
  subVal a MinInt64 <> clamp (a - MinInt64).
Proof.
  intros Ha. unfold subVal.
  replace (Int64.neg MinInt64) with MinInt64 by (vm_compute; reflexivity).
  rewrite addVal_clamp by (done || (unfold in_range, MinInt64, MaxInt64; lia)).
  split; [done|].
  unfold clamp, in_range, MinInt64, MaxInt64 in *. lia.
Qed.

(** C2.  [addVal] and [mulVal] return the exact result clamped to the
    int64 range ([addVal_clamp], [mulVal_clamp]), and so does
    [subVal(a,b) = addVal(a,-b)] for every [b] but [MinInt64]
    ([subVal_clamp]).  For [b = MinInt64] the equation does not give
    the clamped result: [subVal(0, MinInt64)] is [MinInt64], where
    the difference 2^63 clamps to [MaxInt64]. *)
Theorem subVal_MinInt64 :
  subVal 0 MinInt64 = addVal 0 (Int64.neg MinInt64) /\
  Int64.neg MinInt64 = MinInt64 /\
  subVal 0 MinInt64 = MinInt64 /\
  clamp (0 - MinInt64) = MaxInt64 /\
  subVal (-1) MinInt64 = MinInt64 /\
  clamp (-1 - MinInt64) = MaxInt64.
Proof. repeat split; vm_compute; reflexivity. Qed.

End SubValMinInt64.

(** ** The multiplication by a float64 ratio *)

Section MulValRatio.

Lemma mulValRatio_zero value ratio :
  mulValRatio 0 ratio = 0 /\ mulValRatio value Float64.zero = 0.
Proof.
  split; [reflexivity|]. unfold mulValRatio.
  by rewrite orb_true_r.
Qed.

(** The product is computed in float64 and its fraction discarded;
    a product beyond the int64 range gives the bound on its side. *)
Lemma mulValRatio_examples :
  mulValRatio 3 (Float64.div (of_int 1) (of_int 2)) = 1 /\
  mulValRatio (-3) (Float64.div (of_int 1) (of_int 2)) = -1 /\
  mulValRatio MaxInt64 (of_int 2) = MaxInt64 /\
  mulValRatio MaxInt64 (of_int (-2)) = MinInt64 /\
  mulValRatio MinInt64 (of_int 2) = MinInt64 /\
  mulValRatio (2 ^ 53 + 1) (of_int 1) = 2 ^ 53.
Proof. repeat split; vm_compute; reflexivity. Qed.

End MulValRatio.

(** ** Loops over the entries of a map *)

Section RangeLoops.

Lemma store_loop_lookup g out entries k :
  NoDup entries.*1 ->
  store_loop g out entries !! k =
    match (list_to_map entries : gmap string Z) !! k with
    | Some v => Some (g (out !! k) k v)
    | None => out !! k
    end.
Proof.
  revert out. induction entries as [|[k0 v0] rest IH]; intros out Hnd.
  - reflexivity.
  - apply NoDup_cons in Hnd as [Hk0 Hnd]. simpl in *.
    unfold store_loop in *. simpl. rewrite IH by done.
    destruct (decide (k0 = k)) as [->|Hne].
    + rewrite (not_elem_of_list_to_map_1 _ k) by done.
      by rewrite !lookup_insert_eq.
    + by rewrite !lookup_insert_ne by done.
Qed.

Lemma store_loop_range g out (m : gmap string Z) k :
  store_loop g out (range m) !! k =
    match m !! k with
    | Some v => Some (g (out !! k) k v)
    | None => out !! k
    end.
Proof.
  unfold range. rewrite store_loop_lookup by apply NoDup_fst_map_to_list.
  by rewrite list_to_map_to_list.
Qed.

Lemma accumulate_lookup op out (m : gmap string Z) k :
  accumulate op out (range m) !! k =
    match m !! k with
    | Some v => Some (op (get out k) v)
    | None => out !! k
    end.
Proof.
  exact (store_loop_range (fun o _ v => op (default 0 o) v) out m k).
Qed.

Lemma Clone_id (r : ResourceP) : Clone r = r.
Proof.
  destruct r as [[m]|]; [|done]. simpl. do 2 f_equal.
  apply map_eq. intros k.
  pose proof (store_loop_range (fun _ _ v => v) ∅ m k) as H.
  unfold store_loop in H. rewrite H.
  destruct (m !! k); [done|]. apply lookup_empty.
Qed.

Lemma fitIn_loop_true r skipUndef entries :
  fitIn_loop r skipUndef entries = true <->
  forall k v, (k, v) ∈ entries ->
    (skipUndef = true /\ r !! k = None) \/ v <= Z.max 0 (get r k).
Proof.
  induction entries as [|[k0 v0] rest IH]; simpl.
  - split; [|done]. intros _ k v H. by apply elem_of_nil in H.
  - assert (Hhead :
      (if skipUndef && negb (bool_decide (is_Some (r !! k0)))
       then fitIn_loop r skipUndef rest
       else if v0 >? Z.max 0 (get r k0) then false
            else fitIn_loop r skipUndef rest) = true <->
      ((skipUndef = true /\ r !! k0 = None) \/ v0 <= Z.max 0 (get r k0)) /\
      fitIn_loop r skipUndef rest = true).
    { destruct skipUndef; simpl.
      - case_bool_decide as Hs; simpl.
        + destruct (Z.gtb_spec v0 (Z.max 0 (get r k0))).
          * split; [done|]. intros [[[_ Hn]|?] _]; [|lia].
            rewrite Hn in Hs. by destruct Hs.
          * split; [intros; split; [right; lia|done]|tauto].
        + split; [|tauto]. intros. split; [|done]. left. split; [done|].
          by apply eq_None_not_Some.
      - destruct (Z.gtb_spec v0 (Z.max 0 (get r k0))).
        + split; [done|]. intros [[[? _]|?] _]; [done|lia].
        + split; [intros; split; [right; lia|done]|tauto]. }
    rewrite Hhead, IH. split.
    + intros [H0 Hr] k v Hin. apply elem_of_cons in Hin as [[= -> ->]|Hin]; auto.
    + intros H. split; [apply H; left|]. intros k v Hin. apply H. by right.
Qed.

End RangeLoops.

(** ** Containment *)

Section Containment.

Lemma fitIn_true (larger smaller : ResourceP) (skipUndef : bool) :
  fitIn larger smaller skipUndef = true <->
  forall k v, entry smaller k v ->
    (skipUndef = true /\ ~ present larger k) \/ v <= Z.max 0 (valueOf larger k).
Proof.
  destruct smaller as [[s]|]; simpl.
  - unfold fitIn. simpl. rewrite fitIn_loop_true. unfold range.
    assert (Hp : forall k, Resources (or_Zero larger) !! k = None <-> ~ present larger k).
    { intros k. destruct larger as [[l]|]; simpl.
      - split.
        + intros Hn (v & x & [= <-] & Hl). simpl in Hl. congruence.
        + intros Hn. apply eq_None_not_Some. intros [v Hv]. apply Hn.
          exists v, (mkResource l). done.
      - split; [|done]. intros _ (v & x & Hx & _). done. }
    assert (Hv : forall k, get (Resources (or_Zero larger)) k = valueOf larger k).
    { intros k. destruct larger as [[l]|]; simpl; [done|].
      unfold get. by rewrite lookup_empty. }
    split.
    + intros H k v (x & [= <-] & Hk). simpl in Hk.
      rewrite <- Hp, <- Hv. apply H. by apply elem_of_map_to_list.
    + intros H k v Hin. apply elem_of_map_to_list in Hin.
      rewrite Hp, Hv. apply H. by exists (mkResource s).
  - split; [|done]. intros _ k v (x & Hx & _). done.
Qed.

(** C1.  [FitIn(larger, smaller)] is true exactly when, for every key
    present in [smaller], the value of [larger] for that key (0 for
    an absent key, and 0 for a negative value) is at least the value
    of [smaller]; a null [smaller] always fits and a null [larger]
    behaves as a vector without a positive value (the empty vector,
    or any vector of zeros).  [FitInMaxUndef] is the same, except
    that a key absent from [larger] is satisfied; so
    [FitInMaxUndef({cpu:5}, {memory:10})] holds and [FitIn] on the
    same vectors does not. *)
Theorem FitIn_spec (larger smaller : ResourceP) :
  (FitIn larger smaller = true <->
     forall k v, entry smaller k v -> v <= Z.max 0 (valueOf larger k)) /\
  FitIn larger None = true /\
  FitIn None smaller = FitIn (Some Zero) smaller /\
  (forall z, (forall k, valueOf (Some z) k = 0) ->
     FitIn None smaller = FitIn (Some z) smaller) /\
  (FitInMaxUndef larger smaller = true <->
     forall k v, entry smaller k v ->
       present larger k -> v <= Z.max 0 (valueOf larger k)) /\
  FitInMaxUndef larger None = true /\
  FitInMaxUndef None smaller = true /\
  FitInMaxUndef (vec [("cpu"%string, 5)]) (vec [("memory"%string, 10)]) = true /\
  FitIn (vec [("cpu"%string, 5)]) (vec [("memory"%string, 10)]) = false.
Proof.
  assert (HF : forall l s, FitIn l s = true <->
     forall k v, entry s k v -> v <= Z.max 0 (valueOf l k)).
  { intros l s. unfold FitIn. rewrite fitIn_true. split.
    - intros H k v Hk. destruct (H k v Hk) as [[? _]|?]; done.
    - intros H k v Hk. right. by apply H. }
  assert (HM : forall l s, FitInMaxUndef l s = true <->
     forall k v, entry s k v -> present l k -> v <= Z.max 0 (valueOf l k)).
  { intros l s. unfold FitInMaxUndef. rewrite fitIn_true. split.
    - intros H k v Hk Hp. destruct (H k v Hk) as [[_ Hn]|?]; done.
    - intros H k v Hk.
      destruct (decide (is_Some (match l with
                                 | Some x => Resources x !! k
                                 | None => None end))) as [Hs|Hs].
      + right. apply H; [done|]. destruct l as [x|]; [|by destruct Hs].
        destruct Hs as [w Hw]. by exists w, x.
      + left. split; [done|]. intros (w & x & -> & Hw). apply Hs. eauto. }
  split; [apply HF|]. split; [done|]. split; [done|].
  split.
  { intros z Hz. apply eq_true_iff_eq. rewrite !HF. split.
    - intros H k v Hk. rewrite Hz. apply (H k v Hk).
    - intros H k v Hk. specialize (H k v Hk). by rewrite Hz in H. }
  split; [apply HM|]. split; [done|].
  split.
  { apply HM. intros k v _ (w & x & Hx & _). done. }
  split; vm_compute; reflexivity.
Qed.

End Containment.

(** ** Vector algebra *)

Section VectorAlgebra.

Lemma Add_Some (l r : Resource) :
  Add (Some l) (Some r) =
    Some (mkResource (accumulate addVal (Resources l) (range (Resources r)))).
Proof. unfold Add. by rewrite Clone_id. Qed.

Lemma Sub_Some (l r : Resource) :
  Sub (Some l) (Some r) =
    Some (mkResource (accumulate subVal (Resources l) (range (Resources r)))).
Proof. unfold Sub. by rewrite Clone_id. Qed.

Lemma Add_nil_r (l : ResourceP) : Add l None = Some (or_Zero l).
Proof. unfold Add. by rewrite Clone_id. Qed.

Lemma Add_nil_l (r : Resource) :
  valid (Some r) -> Add None (Some r) = Some r.
Proof.
  intros Hv. unfold Add. rewrite Clone_id. simpl. destruct r as [m].
  do 2 f_equal. simpl. apply map_eq. intros k. rewrite accumulate_lookup.
  destruct (m !! k) as [v|] eqn:Hk; [|done].
  unfold get. rewrite lookup_empty. simpl. rewrite addVal_0_l; [done|].
  apply (Hv k). by exists (mkResource m).
Qed.

Lemma DeepEquals_loop_true (right : gmap string Z) entries :
  DeepEquals_loop right entries = true <->
  forall k v, (k, v) ∈ entries -> right !! k = Some v.
Proof.
  induction entries as [|[k0 v0] rest IH]; simpl.
  - split; [|done]. intros _ k v H. by apply elem_of_nil in H.
  - destruct (right !! k0) as [val|] eqn:Hk.
    + destruct (Z.eqb_spec val v0) as [->|Hne]; simpl.
      * rewrite IH. split.
        -- intros H k v Hin. apply elem_of_cons in Hin as [[= -> ->]|Hin]; auto.
        -- intros H k v Hin. apply H. by right.
      * split; [done|]. intros H. specialize (H k0 v0 ltac:(left)). congruence.
    + split; [done|]. intros H. specialize (H k0 v0 ltac:(left)). congruence.
Qed.

(** [DeepEquals] holds of two vectors when both are null, or both
    have the same keys with the same values. *)
Lemma DeepEquals_true (l r : ResourceP) :
  DeepEquals l r = true <->
  match l, r with
  | None, None => True
  | Some x, Some y => Resources x = Resources y
  | _, _ => False
  end.
Proof.
  destruct l as [[x]|], r as [[y]|]; simpl; try done.
  destruct (Nat.eqb_spec (size y) (size x)) as [Hs|Hs]; simpl.
  - rewrite DeepEquals_loop_true. unfold range. split.
    + intros H. apply map_subseteq_size_eq; [|lia].
      apply map_subseteq_spec. intros k v Hk. apply H.
      by apply elem_of_map_to_list.
    + intros -> k v Hin. by apply elem_of_map_to_list in Hin.
  - split; [done|]. intros ->. done.
Qed.

Lemma DeepEquals_refl (r : ResourceP) : DeepEquals r r = true.
Proof. apply DeepEquals_true. by destruct r. Qed.

Lemma Add_comm_eq (a b : ResourceP) :
  valid a -> valid b -> Add a b = Add b a.
Proof.
  intros Ha Hb. destruct a as [a|], b as [b|].
  - rewrite !Add_Some. do 2 f_equal. apply map_eq. intros k.
    rewrite !accumulate_lookup. unfold get.
    destruct (Resources a !! k) as [va|] eqn:Hka,
             (Resources b !! k) as [vb|] eqn:Hkb; simpl; try done.
    + f_equal. apply addVal_comm.
      * apply (Ha k). by exists a.
      * apply (Hb k). by exists b.
    + rewrite addVal_0_l; [done|]. apply (Ha k). by exists a.
    + rewrite addVal_0_l; [done|]. apply (Hb k). by exists b.
  - by rewrite Add_nil_r, Add_nil_l.
  - by rewrite Add_nil_r, Add_nil_l.
  - done.
Qed.

(** C9.  [Add] is commutative: for all vectors [a] and [b], null or
    not, [Add(a,b)] and [Add(b,a)] are equal under [DeepEquals]. *)
Theorem Add_comm (a b : ResourceP) :
  valid a -> valid b -> DeepEquals (Add a b) (Add b a) = true.
Proof.
  intros Ha Hb. rewrite (Add_comm_eq a b Ha Hb). apply DeepEquals_refl.
Qed.

Lemma valid_vec (l : list (string * Z)) :
  Forall (fun kv => in_range kv.2) l -> valid (vec l).
Proof.
  intros Hl k v (x & [= <-] & Hk). simpl in Hk.
  apply elem_of_list_to_map_2 in Hk.
  rewrite Forall_forall in Hl. apply (Hl (k, v) Hk).
Qed.

Lemma Add_comm_witness :
  valid (vec [("cpu"%string, 4); ("memory"%string, MaxInt64)]) /\
  valid (vec [("memory"%string, 7); ("gpu"%string, -2)]) /\
  DeepEquals
    (Add (vec [("cpu"%string, 4); ("memory"%string, MaxInt64)])
         (vec [("memory"%string, 7); ("gpu"%string, -2)]))
    (Add (vec [("memory"%string, 7); ("gpu"%string, -2)])
         (vec [("cpu"%string, 4); ("memory"%string, MaxInt64)])) = true.
Proof.
  assert (H1 : valid (vec [("cpu"%string, 4); ("memory"%string, MaxInt64)])).
  { apply valid_vec. repeat constructor; simpl; vm_compute; congruence. }
  assert (H2 : valid (vec [("memory"%string, 7); ("gpu"%string, -2)])).
  { apply valid_vec. repeat constructor; simpl; vm_compute; congruence. }
  split; [exact H1|]. split; [exact H2|].
  exact (Add_comm _ _ H1 H2).
Defined.

(** C6.  Clamping at the level of vectors:
    [Add({x: MaxInt64}, {x: 1})] is [{x: MaxInt64}] and
    [Multiply({x: MinInt64}, -1)] is [{x: MaxInt64}], not the
    minimum that the wrapped product would be. *)
Theorem clamping_examples :
  Add (vec [("x"%string, MaxInt64)]) (vec [("x"%string, 1)])
    = vec [("x"%string, MaxInt64)] /\
  Multiply (vec [("x"%string, MinInt64)]) (-1)
    = vec [("x"%string, MaxInt64)] /\
  Int64.mul MinInt64 (-1) = MinInt64.
Proof. repeat split; vm_compute; reflexivity. Qed.

(** C10.  [ComponentWiseMax] returns the empty vector when either
    argument is null, whatever the other one holds, and
    [ComponentWiseMin] with one null argument returns a clone of the
    other: [ComponentWiseMin(v, nil)] is [DeepEquals] to [v], while
    [ComponentWiseMax(v, nil)] is empty, hence [DeepEquals] to [v]
    only for an empty [v]. *)
Theorem ComponentWiseMax_nil_asymmetry (v : Resource) (o : ResourceP) :
  ComponentWiseMax o None = Some (mkResource ∅) /\
  ComponentWiseMax None o = Some (mkResource ∅) /\
  ComponentWiseMin (Some v) None = Clone (Some v) /\
  ComponentWiseMin None (Some v) = Clone (Some v) /\
  DeepEquals (ComponentWiseMin (Some v) None) (Some v) = true /\
  DeepEquals (ComponentWiseMin None (Some v)) (Some v) = true /\
  (DeepEquals (ComponentWiseMax (Some v) None) (Some v) = true <->
     Resources v = ∅) /\
  (DeepEquals (ComponentWiseMax None (Some v)) (Some v) = true <->
     Resources v = ∅).
Proof.
  split; [by destruct o|]. split; [by destruct o|].
  split; [done|]. split; [done|].
  split.
  { change (ComponentWiseMin (Some v) None) with (Clone (Some v)).
    rewrite Clone_id. apply DeepEquals_refl. }
  split.
  { change (ComponentWiseMin None (Some v)) with (Clone (Some v)).
    rewrite Clone_id. apply DeepEquals_refl. }
  split; rewrite DeepEquals_true; simpl; split; congruence.
Qed.

End VectorAlgebra.

(** ** The order of float64 *)

Section FloatOrder.

Lemma SFcompare_rank (x y : float64) :
  IsNaN x = false -> IsNaN y = false ->
  exists c, SFcompare x y = Some c /\
    match c with
    | Lt => lex_lt (rank x) (rank y)
    | Eq => rank x = rank y
    | Gt => lex_lt (rank y) (rank x)
    end.
Proof.
  intros Hx Hy. unfold lex_lt.
  destruct x as [sx|sx| |sx mx ex], y as [sy|sy| |sy my ey];
    try discriminate; simpl; (eexists; split; [reflexivity|]);
    try change (Pos.compare_cont Eq mx my) with (Pos.compare mx my);
    try destruct sx; try destruct sy; simpl; try lia; try reflexivity.
  all: destruct (Z.compare_spec ex ey); simpl; try lia;
    destruct (Pos.compare_spec mx my); simpl; subst; first [reflexivity | lia].
Qed.

Lemma less_rank (x y : float64) : less x y = true <-> lex_lt (rank x) (rank y).
Proof.
  unfold less, Float64.lt, SFltb.
  destruct (IsNaN x) eqn:Hx.
  { destruct x; try discriminate. simpl.
    destruct y as [s|[]| |[] m e]; simpl; unfold lex_lt; simpl;
      split; (done || lia). }
  destruct (IsNaN y) eqn:Hy.
  { destruct y; try discriminate.
    replace (SFcompare x S754_nan) with (@None comparison) by by destruct x.
    simpl. unfold lex_lt.
    destruct x as [s|[]| |[] m e]; simpl; split; (done || lia). }
  destruct (SFcompare_rank x y Hx Hy) as (c & -> & Hc).
  rewrite orb_false_r. unfold lex_lt in *.
  destruct c; split; try done; try lia.
  intros H. rewrite Hc in H. lia.
Qed.

Lemma less_false_rank (x y : float64) :
  less y x = false <-> rank x = rank y \/ lex_lt (rank x) (rank y).
Proof.
  rewrite <- not_true_iff_false, less_rank. unfold lex_lt.
  destruct (rank x) as [[a b] c], (rank y) as [[a' b'] c']. simpl.
  split.
  - intros H.
    destruct (decide (a = a')), (decide (b = b')), (decide (c = c'));
      subst; first [by left | right; lia].
  - intros [[= -> -> ->]|H]; lia.
Qed.

(** The comparisons of Go on values that are not NaN: two values
    are equal, or one is below the other. *)
Lemma compare_cases (x y : float64) :
  IsNaN x = false -> IsNaN y = false ->
  (Float64.eq x y = true /\ Float64.gt x y = false /\ Float64.lt x y = false) \/
  (Float64.eq x y = false /\ Float64.gt x y = true /\ Float64.lt x y = false) \/
  (Float64.eq x y = false /\ Float64.gt x y = false /\ Float64.lt x y = true).
Proof.
  intros Hx Hy. unfold Float64.eq, Float64.gt, Float64.lt, SFeqb, SFltb.
  destruct (SFcompare_rank x y Hx Hy) as (c & -> & Hc).
  destruct (SFcompare_rank y x Hy Hx) as (c' & -> & Hc').
  unfold lex_lt in *.
  destruct c, c'; try (rewrite Hc in Hc'); try (rewrite Hc' in Hc);
    first [ left; done | right; left; done | right; right; done | exfalso; lia ].
Qed.

Lemma insert_sorted_perm x l : Permutation (insert_sorted x l) (x :: l).
Proof.
  induction l as [|y l IH]; simpl; [done|].
  destruct (less x y); [done|].
  rewrite IH. apply perm_swap.
Qed.

Lemma Float64s_perm l : Permutation (Float64s l) l.
Proof.
  induction l as [|x l IH]; simpl; [done|].
  rewrite insert_sorted_perm. by apply perm_skip.
Qed.

Lemma insert_sorted_ascending x l : ascending l -> ascending (insert_sorted x l).
Proof.
  unfold ascending. induction l as [|y l IH]; intros Hl; simpl.
  - repeat constructor.
  - apply StronglySorted_inv in Hl as [Hl Hy].
    destruct (less x y) eqn:Hxy.
    + constructor; [by constructor|]. constructor.
      * apply less_false_rank. apply less_rank in Hxy. by right.
      * rewrite Forall_forall in Hy |- *. intros z Hz.
        specialize (Hy z Hz). apply less_false_rank.
        apply less_false_rank in Hy. apply less_rank in Hxy.
        unfold lex_lt in *. right.
        destruct Hy as [Hy|Hy]; [rewrite <- Hy; done|]. lia.
    + constructor; [by apply IH|].
      rewrite Forall_forall. intros z Hz.
      rewrite insert_sorted_perm in Hz.
      apply elem_of_cons in Hz as [->|Hz]; [done|].
      rewrite Forall_forall in Hy. by apply Hy.
Qed.

Lemma Float64s_ascending l : ascending (Float64s l).
Proof.
  induction l as [|x l IH]; simpl; [constructor|].
  by apply insert_sorted_ascending.
Qed.

End FloatOrder.

(** ** The comparison of shares *)

Section CompareShares.

Lemma compare_both_eq fuel ls rs lIdx rIdx :
  compare_both fuel ls rs lIdx rIdx =
    if (0 <=? rIdx) && (0 <=? lIdx) then
      match fuel with
      | O => None
      | S fuel' =>
          l ← index ls lIdx;
          r ← index rs rIdx;
          if Float64.gt l r then Some (Return 1)
          else if Float64.lt l r then Some (Return (-1))
          else compare_both fuel' ls rs (lIdx - 1) (rIdx - 1)
      end
    else Some (Exit (lIdx, rIdx)).
Proof. by destruct fuel. Qed.

Lemma compare_rest_eq fuel pos neg shares idx :
  compare_rest fuel pos neg shares idx =
    if 0 <=? idx then
      match fuel with
      | O => None
      | S fuel' =>
          x ← index shares idx;
          if Float64.gt x Float64.zero then Some (Return pos)
          else if Float64.lt x Float64.zero then Some (Return neg)
          else compare_rest fuel' pos neg shares (idx - 1)
      end
    else Some (Exit idx).
Proof. by destruct fuel. Qed.

(** The element an index reaches when it has come down to the end
    of the part [rev l] not yet visited. *)
Lemma index_last {A} (x : A) (l s : list A) :
  index (rev (x :: l) ++ s) (Z.of_nat (length (x :: l)) - 1) = Some x.
Proof.
  unfold index. simpl length.
  destruct (Z.ltb_spec (Z.of_nat (S (length l)) - 1) 0); [lia|].
  simpl rev. rewrite <- app_assoc. simpl.
  apply list_lookup_middle. rewrite length_rev. lia.
Qed.

Lemma NaN_free_cons x l : NaN_free (x :: l) -> IsNaN x = false /\ NaN_free l.
Proof. intros H. by apply Forall_cons in H. Qed.

Lemma decide_by_sign_range l :
  decide_by_sign l = 1 \/ decide_by_sign l = 0 \/ decide_by_sign l = -1.
Proof.
  induction l as [|x l IH]; simpl; [by right; left|].
  destruct (Float64.eq x zero); [done|].
  destruct (Float64.gt x zero); [by left|by right; right].
Qed.

Lemma compare_from_largest_range l r :
  compare_from_largest l r = 1 \/ compare_from_largest l r = 0 \/
  compare_from_largest l r = -1.
Proof.
  revert r. induction l as [|x l IH]; intros [|y r].
  - by right; left.
  - change (compare_from_largest [] (y :: r)) with (- decide_by_sign (y :: r)).
    destruct (decide_by_sign_range (y :: r)) as [->| [->| ->]]; simpl; auto.
  - apply decide_by_sign_range.
  - simpl. destruct (Float64.eq x y); [apply IH|].
    destruct (Float64.gt x y); [by left|by right; right].
Qed.

(** The first loop, run on the parts [rev l] and [rev r] that its
    indices have not yet left: it returns what the first pair of
    different shares decides, or leaves with one part exhausted. *)
Lemma compare_both_spec l : forall r sl sr fuel,
  NaN_free l -> NaN_free r -> (length l < fuel)%nat ->
  match compare_both fuel (rev l ++ sl) (rev r ++ sr)
          (Z.of_nat (length l) - 1) (Z.of_nat (length r) - 1) with
  | Some (Return z) => compare_from_largest l r = z
  | Some (Exit (lIdx, rIdx)) =>
      exists l' r' dl dr,
        l = dl ++ l' /\ r = dr ++ r' /\ (l' = [] \/ r' = []) /\
        lIdx = Z.of_nat (length l') - 1 /\ rIdx = Z.of_nat (length r') - 1 /\
        compare_from_largest l r = compare_from_largest l' r'
  | None => False
  end.
Proof.
  induction l as [|x l IH]; intros r sl sr fuel Hl Hr Hf;
    rewrite compare_both_eq.
  - simpl length. rewrite andb_false_r.
    exists [], r, [], []. repeat split; auto.
  - destruct r as [|y r].
    + simpl (length []). simpl (0 <=? _ - 1). cbv iota.
      replace ((0 <=? Z.of_nat 0 - 1) && (0 <=? Z.of_nat (length (x :: l)) - 1))
        with false by done.
      exists (x :: l), [], [], []. repeat split; auto.
    + destruct fuel as [|fuel]; [simpl in Hf; lia|].
      replace ((0 <=? Z.of_nat (length (y :: r)) - 1)
               && (0 <=? Z.of_nat (length (x :: l)) - 1)) with true
        by (simpl length; symmetry; apply andb_true_iff; split; apply Z.leb_le; lia).
      rewrite !index_last. simpl.
      apply NaN_free_cons in Hl as [Hx Hl]. apply NaN_free_cons in Hr as [Hy Hr].
      destruct (compare_cases x y Hx Hy)
        as [(He & Hg & Hlt)|[(He & Hg & Hlt)|(He & Hg & Hlt)]];
        rewrite He, Hg; try rewrite Hlt; [|done|done].
      rewrite <- !app_assoc. simpl.
      replace (Z.of_nat (S (length l)) - 1 - 1) with (Z.of_nat (length l) - 1) by lia.
      replace (Z.of_nat (S (length r)) - 1 - 1) with (Z.of_nat (length r) - 1) by lia.
      specialize (IH r (x :: sl) (y :: sr) fuel Hl Hr ltac:(simpl in Hf; lia)).
      destruct (compare_both fuel _ _ _ _) as [[z|[li ri]]|]; [done| |done].
      destruct IH as (l' & r' & dl & dr & -> & -> & Hor & -> & -> & Hc).
      exists l', r', (x :: dl), (y :: dr). repeat split; auto.
Qed.

(** A loop over what is left of one list, on the part [rev l] not
    yet visited. *)
Lemma compare_rest_spec l : forall s fuel pos neg,
  NaN_free l -> (length l < fuel)%nat ->
  compare_rest fuel pos neg (rev l ++ s) (Z.of_nat (length l) - 1) =
    Some (if decide_by_sign l =? 0 then Exit (-1)
          else if decide_by_sign l =? 1 then Return pos else Return neg).
Proof.
  induction l as [|x l IH]; intros s fuel pos neg Hl Hf;
    rewrite compare_rest_eq.
  - reflexivity.
  - destruct fuel as [|fuel]; [simpl in Hf; lia|].
    replace (0 <=? Z.of_nat (length (x :: l)) - 1) with true
      by (simpl length; symmetry; apply Z.leb_le; lia).
    rewrite index_last. simpl.
    apply NaN_free_cons in Hl as [Hx Hl].
    destruct (compare_cases x zero Hx eq_refl)
      as [(He & Hg & Hlt)|[(He & Hg & Hlt)|(He & Hg & Hlt)]];
      rewrite He, Hg; try rewrite Hlt; [|done|done].
    rewrite <- app_assoc. simpl.
    replace (Z.of_nat (S (length l)) - 1 - 1) with (Z.of_nat (length l) - 1) by lia.
    apply IH; [done|simpl in Hf; lia].
Qed.

(** C3.  On two lists of shares (no NaN among them, as [getShares]
    builds them), [compareShares] walks both lists from their last,
    largest, elements down: the result is 1, 0 or -1, decided by the
    first position where the values differ; when one list is
    exhausted first, by the sign of what is left of the other, zeros
    passed over; and 0 when both lists are exhausted together. *)
Theorem compareShares_spec (lshares rshares : list float64) :
  NaN_free lshares -> NaN_free rshares ->
  compareShares lshares rshares
    = Some (compare_from_largest (rev lshares) (rev rshares)) /\
  (compare_from_largest (rev lshares) (rev rshares) = 1 \/
   compare_from_largest (rev lshares) (rev rshares) = 0 \/
   compare_from_largest (rev lshares) (rev rshares) = -1).
Proof.
  intros Hl Hr. split; [|apply compare_from_largest_range].
  assert (Hl' : NaN_free (rev lshares)) by (by apply Forall_rev).
  assert (Hr' : NaN_free (rev rshares)) by (by apply Forall_rev).
  unfold compareShares.
  set (fuel := S (length lshares + length rshares)).
  pose proof (compare_both_spec (rev lshares) (rev rshares) [] [] fuel Hl' Hr') as H1.
  rewrite !rev_involutive, !app_nil_r, !length_rev in H1.
  specialize (H1 ltac:(unfold fuel; lia)).
  destruct (compare_both fuel lshares rshares _ _) as [[z|[lIdx rIdx]]|];
    [by rewrite H1| |done].
  destruct H1 as (l' & r' & dl & dr & Hdl & Hdr & Hor & -> & -> & ->).
  assert (Hls : lshares = rev l' ++ rev dl).
  { rewrite <- rev_app_distr, <- Hdl. by rewrite rev_involutive. }
  assert (Hrs : rshares = rev r' ++ rev dr).
  { rewrite <- rev_app_distr, <- Hdr. by rewrite rev_involutive. }
  assert (Hnl : NaN_free l').
  { rewrite Hdl in Hl'. by apply Forall_app in Hl' as [_ ?]. }
  assert (Hnr : NaN_free r').
  { rewrite Hdr in Hr'. by apply Forall_app in Hr' as [_ ?]. }
  assert (Hfl : (length l' < fuel)%nat).
  { unfold fuel. rewrite Hls, length_app, length_rev. lia. }
  assert (Hfr : (length r' < fuel)%nat).
  { unfold fuel. rewrite Hrs, length_app, length_rev. lia. }
  pose proof (compare_rest_spec l' (rev dl) fuel 1 (-1) Hnl Hfl) as H2.
  pose proof (compare_rest_spec r' (rev dr) fuel (-1) 1 Hnr Hfr) as H3.
  rewrite <- Hls in H2. rewrite <- Hrs in H3.
  clearbody fuel.
  destruct l' as [|x l'], r' as [|y r'].
  - reflexivity.
  - change (Z.of_nat (length (@nil float64)) - 1) with (-1) in *.
    assert (Hri : 0 <= Z.of_nat (length (y :: r')) - 1) by (simpl length; lia).
    set (ri := Z.of_nat (length (y :: r')) - 1) in *. clearbody ri.
    destruct (Z.eqb_spec ri (-1)) as [E|_]; [lia|].
    change (compare_from_largest [] (y :: r')) with (- decide_by_sign (y :: r')).
    pose proof (decide_by_sign_range (y :: r')) as Hd.
    set (d := decide_by_sign (y :: r')) in *. clearbody d.
    cbn [andb]. change (0 <=? -1) with false. cbv iota. rewrite H3.
    destruct Hd as [->| [->| ->]]; reflexivity.
  - change (Z.of_nat (length (@nil float64)) - 1) with (-1) in *.
    assert (Hli : 0 <= Z.of_nat (length (x :: l')) - 1) by (simpl length; lia).
    set (li := Z.of_nat (length (x :: l')) - 1) in *. clearbody li.
    destruct (Z.eqb_spec li (-1)) as [E|_]; [lia|].
    destruct (Z.leb_spec 0 li) as [_|E]; [|lia].
    change (compare_from_largest (x :: l') []) with (decide_by_sign (x :: l')).
    pose proof (decide_by_sign_range (x :: l')) as Hd.
    set (d := decide_by_sign (x :: l')) in *. clearbody d.
    cbn [andb]. rewrite H2.
    destruct Hd as [->| [->| ->]]; try reflexivity.
    simpl. by rewrite compare_rest_eq.
  - by destruct Hor.
Qed.

Lemma compareShares_spec_witness :
  NaN_free [of_int (-1); Float64.zero; of_int 3] /\
  NaN_free [of_int 3] /\
  compareShares [of_int (-1); Float64.zero; of_int 3] [of_int 3]
    = Some (compare_from_largest (rev [of_int (-1); Float64.zero; of_int 3])
                                 (rev [of_int 3])) /\
  compareShares [of_int (-1); Float64.zero; of_int 3] [of_int 3] = Some (-1).
Proof.
  assert (H1 : NaN_free [of_int (-1); Float64.zero; of_int 3])
    by (repeat constructor).
  assert (H2 : NaN_free [of_int 3]) by (repeat constructor).
  split; [exact H1|]. split; [exact H2|].
  split; [exact (proj1 (compareShares_spec _ _ H1 H2))|reflexivity].
Defined.

End CompareShares.

(** ** The shares of a vector *)

Section GetShares.

Lemma getShares_body_zero total shares idx k :
  getShares_body total (shares, idx) (k, 0) = Some (shares, idx).
Proof. reflexivity. Qed.

Lemma getShares_body_nonzero total shares idx k v :
  v <> 0 ->
  getShares_body total (shares, idx) (k, v) =
    shares' ← store shares idx (share_of total (k, v)); Some (shares', S idx).
Proof.
  intros Hv. unfold getShares_body, share_of. simpl.
  destruct (Z.eqb_spec v 0) as [|_]; [done|].
  destruct total as [t|]; [|done].
  by destruct (get (Resources t) k =? 0).
Qed.

Lemma store_next {A} (filled : list A) (x y : A) (rest : list A) :
  store (filled ++ y :: rest) (length filled) x = Some ((filled ++ [x]) ++ rest).
Proof.
  unfold store. rewrite decide_True by (rewrite length_app; simpl; lia).
  f_equal. replace (length filled) with (length filled + 0)%nat at 1 by lia.
  rewrite insert_app_r. simpl. by rewrite <- app_assoc.
Qed.

(** The loop of [getShares] fills the slice from the left with the
    shares of the entries of value other than 0, in the order of the
    entries, and leaves the zeros of [make] in the rest of it. *)
Lemma getShares_loop total (rest : list (string * Z)) : forall filled zeros,
  (length (filter nonzero rest) <= zeros)%nat ->
  foldlM (getShares_body total) (filled ++ replicate zeros Float64.zero, length filled) rest
    = Some (filled ++ map (share_of total) (filter nonzero rest)
              ++ replicate (zeros - length (filter nonzero rest)) Float64.zero,
            (length filled + length (filter nonzero rest))%nat).
Proof.
  induction rest as [|[k v] rest IH]; intros filled zeros Hz.
  - simpl. rewrite Nat.sub_0_r, Nat.add_0_r. done.
  - cbn [foldlM]. destruct (decide (v = 0)) as [->|Hv].
    + rewrite getShares_body_zero.
      rewrite filter_cons_False in Hz |- * by (unfold nonzero; simpl; lia).
      by apply IH.
    + rewrite getShares_body_nonzero by done.
      rewrite filter_cons_True in Hz |- * by done. simpl in Hz.
      destruct zeros as [|zeros]; [lia|]. simpl replicate.
      rewrite store_next. simpl.
      replace (S (length filled)) with (length (filled ++ [share_of total (k, v)]))
        by (rewrite length_app; simpl; lia).
      rewrite IH by lia. rewrite length_app. simpl.
      rewrite <- !app_assoc. simpl. do 2 f_equal. lia.
Qed.

Lemma shares_perm total (l : list (string * Z)) :
  Permutation
    (map (share_of total) (filter nonzero l)
       ++ replicate (length l - length (filter nonzero l)) Float64.zero)
    (map (share_or_zero total) l).
Proof.
  induction l as [|[k v] l IH]; [done|].
  pose proof (length_filter nonzero l) as Hle.
  destruct (decide (v = 0)) as [->|Hv].
  - rewrite filter_cons_False by (unfold nonzero; simpl; lia). simpl length.
    replace (S (length l) - length (filter nonzero l))%nat
      with (S (length l - length (filter nonzero l))) by lia.
    simpl replicate. rewrite <- Permutation_middle.
    simpl map. unfold share_or_zero at 2. simpl. by apply perm_skip.
  - rewrite filter_cons_True by done. simpl.
    replace (share_or_zero total (k, v)) with (share_of total (k, v)).
    + by apply perm_skip.
    + unfold share_or_zero. simpl. by destruct (Z.eqb_spec v 0).
Qed.

(** What [getShares] returns for a vector that is not empty. *)
Lemma getShares_Some (r : Resource) total :
  size (Resources r) <> 0%nat ->
  getShares (Some r) total =
    Some (Float64s
            (map (share_of total) (nonzero_entries (Some r))
               ++ replicate (size (Resources r) - length (nonzero_entries (Some r)))
                    Float64.zero)).
Proof.
  intros Hs. unfold getShares, nonzero_entries, entries.
  destruct (Nat.eqb_spec (size (Resources r)) 0) as [|_]; [done|].
  pose proof (getShares_loop total (range (Resources r)) [] (size (Resources r))) as H.
  simpl in H. rewrite H; [done|].
  unfold range. rewrite <- length_map_to_list. apply length_filter.
Qed.

(** The claim of C4 as it is written, that the list has exactly one
    element per entry of value other than 0, fails:
    [getShares({a: 0, b: 5}, nil)] is [[0, 5]], with a 0 for the
    entry [a]. *)
Lemma getShares_zero_entry_counted :
  getShares (vec [("a"%string, 0); ("b"%string, 5)]) None
    = Some [Float64.zero; of_int 5] /\
  nonzero_entries (vec [("a"%string, 0); ("b"%string, 5)]) = [("b"%string, 5)] /\
  ~ (exists shares,
       getShares (vec [("a"%string, 0); ("b"%string, 5)]) None = Some shares /\
       length shares
         = length (nonzero_entries (vec [("a"%string, 0); ("b"%string, 5)]))).
Proof.
  assert (H1 : getShares (vec [("a"%string, 0); ("b"%string, 5)]) None
               = Some [Float64.zero; of_int 5]) by (vm_compute; reflexivity).
  assert (H2 : nonzero_entries (vec [("a"%string, 0); ("b"%string, 5)])
               = [("b"%string, 5)]) by (vm_compute; reflexivity).
  split; [exact H1|]. split; [exact H2|].
  intros (shares & Hs & Hlen). rewrite H1 in Hs. injection Hs as <-.
  rewrite H2 in Hlen. discriminate Hlen.
Qed.

(** C4, amended.  [getShares] returns, for every vector and every
    total, a list in ascending order with one element per entry of
    the vector: the share of the entry (its value over the total of
    its key, or the value itself when the total is null or has 0 for
    the key) when the value is not 0, and 0 for an entry of value 0.
    A null or empty vector gives the empty list. *)
Theorem getShares_spec (res total : ResourceP) :
  exists shares,
    getShares res total = Some shares /\
    ascending shares /\
    Permutation shares (map (share_or_zero total) (entries res)) /\
    length shares = length (entries res) /\
    (entries res = [] -> shares = []).
Proof.
  destruct res as [r|].
  - destruct (decide (size (Resources r) = 0%nat)) as [Hs|Hs].
    + exists []. unfold getShares. rewrite Hs. simpl.
      apply map_size_empty_inv in Hs.
      unfold range. rewrite Hs, map_to_list_empty.
      repeat split; try done. constructor.
    + rewrite getShares_Some by done. eexists. split; [reflexivity|].
      assert (Hp : Permutation
                (Float64s
                   (map (share_of total) (nonzero_entries (Some r))
                      ++ replicate (size (Resources r) - length (nonzero_entries (Some r)))
                           Float64.zero))
                (map (share_or_zero total) (entries (Some r)))).
      { rewrite Float64s_perm. unfold nonzero_entries, entries, range.
        rewrite <- length_map_to_list. apply shares_perm. }
      split; [apply Float64s_ascending|]. split; [exact Hp|].
      split.
      * rewrite Hp. apply length_map.
      * intros He. simpl in He. unfold range in He.
        rewrite <- length_map_to_list, He in Hs. done.
  - exists []. repeat split; try done. constructor.
Qed.

End GetShares.

(** ** The fairness ratio *)

Section Fairness.

(** [FairnessRatio] is the quotient of the last shares of the two
    lists, 0 for an empty list, with 1 in place of a NaN. *)
Lemma FairnessRatio_eq (left right total : ResourceP) lshares rshares :
  getShares left total = Some lshares ->
  getShares right total = Some rshares ->
  FairnessRatio left right total =
    let ratio := Float64.div (List.last lshares Float64.zero)
                             (List.last rshares Float64.zero) in
    Some (if IsNaN ratio then of_int 1 else ratio).
Proof.
  intros Hl Hr. unfold FairnessRatio. rewrite Hl, Hr. simpl.
  assert (Hlast : forall s : list float64,
            largest_share s = Some (List.last s Float64.zero)).
  { intros s. unfold largest_share, index.
    destruct s as [|x s] using rev_ind; [done|].
    rewrite length_app, last_last. simpl length.
    destruct (Nat.eqb_spec (length s + 1) 0) as [|_]; [lia|]. simpl.
    destruct (Z.ltb_spec (Z.of_nat (length s + 1) - 1) 0); [lia|].
    apply list_lookup_middle. lia. }
  rewrite !Hlast. simpl. by destruct (IsNaN _).
Qed.

(** C5.  [FairnessRatio] does not turn every division by zero into
    1: with a left share of 5 and no share on the right, the quotient
    5/0 is the positive infinity, which is returned; only 0/0, the
    NaN, is replaced by 1. *)
Theorem FairnessRatio_right_zero :
  FairnessRatio (vec [("a"%string, 5)]) None None = Some (S754_infinity false) /\
  FairnessRatio (vec [("first"%string, 1)]) (vec [("first"%string, 0)])
                (vec [("first"%string, 10)]) = Some (S754_infinity false) /\
  FairnessRatio None None None = Some (of_int 1).
Proof. repeat split; vm_compute; reflexivity. Qed.

End Fairness.

(** ** Capacity statistics *)

Section Capacity.

(** The conversion to int64 discards the fraction: the quotient
    rounded toward zero. *)
Lemma trunc_quot s m e :
  e < 0 ->
  trunc (S754_finite s m e) = Some (Z.quot (cond_Zopp s (Z.pos m)) (2 ^ (- e))).
Proof.
  intros He. unfold trunc. f_equal.
  rewrite Z.shiftl_div_pow2 by lia.
  assert (0 < 2 ^ (- e)) by (apply Z.pow_pos_nonneg; lia).
  destruct s; simpl.
  - rewrite <- (Z.quot_div_nonneg (Z.pos m)) by lia.
    change (Z.neg m) with (- Z.pos m). rewrite Z.quot_opp_l by lia. done.
  - rewrite Z.quot_div_nonneg by lia. done.
Qed.

Lemma trunc_shift s m e :
  0 <= e -> trunc (S754_finite s m e) = Some (cond_Zopp s (Z.pos m * 2 ^ e)).
Proof. intros He. unfold trunc. by rewrite Z.shiftl_mul_pow2. Qed.

Lemma CalculateAbsUsedCapacity_lookup (c u : Resource) (k : string) :
  exists abs, CalculateAbsUsedCapacity (Some c) (Some u) = Some abs /\
    Resources abs !! k =
      match Resources c !! k, Resources u !! k with
      | Some capResource, Some usedResource =>
          Some (absResValue capResource usedResource)
      | _, _ => None
      end.
Proof.
  unfold CalculateAbsUsedCapacity. eexists. split; [reflexivity|]. simpl.
  assert (Hgen : forall (l : list (string * Z)) (acc : gmap string Z),
    NoDup l.*1 ->
    foldl (fun absResource '(resourceName, capResource) =>
             match Resources u !! resourceName with
             | Some usedResource =>
                 <[resourceName := absResValue capResource usedResource]> absResource
             | None => absResource
             end) acc l !! k =
    match (list_to_map l : gmap string Z) !! k, Resources u !! k with
    | Some capResource, Some usedResource =>
        Some (absResValue capResource usedResource)
    | _, _ => acc !! k
    end).
  { induction l as [|[k0 v0] l IH]; intros acc Hnd; simpl.
    - reflexivity.
    - apply NoDup_cons in Hnd as [Hk0 Hnd]. rewrite IH by done.
      destruct (decide (k0 = k)) as [->|Hne].
      + rewrite lookup_insert_eq.
        rewrite (not_elem_of_list_to_map_1 _ k) by done.
        destruct (Resources u !! k); [by rewrite lookup_insert_eq|done].
      + rewrite lookup_insert_ne by done.
        destruct (Resources u !! k0); [by rewrite lookup_insert_ne|done]. }
  unfold range. rewrite Hgen by apply NoDup_fst_map_to_list.
  rewrite list_to_map_to_list, lookup_empty.
  by destruct (Resources c !! k), (Resources u !! k).
Qed.

(** C7.  [CalculateAbsUsedCapacity(capacity, usage)] has, for each
    key present in both vectors: 0 when the usage is at most 0; else
    100 when the capacity is at most 0; else the float64 value of
    usage/capacity*100 with its fraction discarded, and 2147483647
    when that value is above 2147483647.  A key of the capacity that
    the usage lacks is not in the result, and a null capacity or
    usage gives the empty result.  So [{memory:1000}] and
    [{memory:100}] give [{memory:10}], and [{memory:0}] and
    [{memory:5}] give [{memory:100}]. *)
Theorem CalculateAbsUsedCapacity_spec (capacity used : ResourceP) :
  (exists abs, CalculateAbsUsedCapacity capacity used = Some abs /\
     forall k,
       Resources abs !! k =
         match capacity, used with
         | Some c, Some u =>
             match Resources c !! k, Resources u !! k with
             | Some capResource, Some usedResource =>
                 Some (absResValue capResource usedResource)
             | _, _ => None
             end
         | _, _ => None
         end) /\
  (forall c u, u <= 0 -> absResValue c u = 0) /\
  (forall c u, 0 < u -> c <= 0 -> absResValue c u = 100) /\
  (forall c u, 0 < u -> 0 < c ->
     absResValue c u =
       let percent := Float64.mul (Float64.div (of_int u) (of_int c)) (of_int 100) in
       if Float64.gt percent (of_int 2147483647) then 2147483647
       else to_int64 percent) /\
  trunc (of_int 2147483647) = Some 2147483647 /\
  CalculateAbsUsedCapacity (vec [("memory"%string, 1000)]) (vec [("memory"%string, 100)])
    = vec [("memory"%string, 10)] /\
  CalculateAbsUsedCapacity (vec [("memory"%string, 0)]) (vec [("memory"%string, 5)])
    = vec [("memory"%string, 100)].
Proof.
  split.
  { destruct capacity as [c|], used as [u|];
      try (exists (mkResource ∅); split; [done|]; intros k; apply lookup_empty).
    destruct (CalculateAbsUsedCapacity_lookup c u "") as (abs & Habs & _).
    exists abs. split; [done|]. intros k.
    destruct (CalculateAbsUsedCapacity_lookup c u k) as (abs' & Habs' & Hk).
    rewrite Habs in Habs'. by injection Habs' as <-. }
  split.
  { intros c u Hu. unfold absResValue. by destruct (Z.leb_spec u 0); [|lia]. }
  split.
  { intros c u Hu Hc. unfold absResValue.
    destruct (Z.leb_spec u 0); [lia|]. by destruct (Z.leb_spec c 0); [|lia]. }
  split.
  { intros c u Hu Hc. unfold absResValue.
    destruct (Z.leb_spec u 0); [lia|]. by destruct (Z.leb_spec c 0); [lia|]. }
  repeat split; vm_compute; reflexivity.
Qed.

End Capacity.

(** ** Add and Sub leave their arguments as they were *)

Section HeapFrame.

Lemma Add_combine : Heap.Add = Heap.combine addVal.
Proof. reflexivity. Qed.

Lemma Sub_combine : Heap.Sub = Heap.combine subVal.
Proof. reflexivity. Qed.

Lemma bind_Some {A B} (m : Heap.M A) (f : A -> Heap.M B) h x h' :
  m h = Some (x, h') -> (m ≫= f) h = f x h'.
Proof. intros H. unfold mbind, Heap.M_bind. by rewrite H. Qed.

(** A loop that stores into the map [om] of the object [out] changes
    that map and nothing else. *)
Lemma forM_accumulate op out om kvs : forall h c,
  Heap.objects h !! out = Some om -> Heap.maps h !! om = Some c ->
  Heap.forM kvs (fun '(k, v) =>
              dst ← Heap.field out; cur ← Heap.map_get dst k; Heap.map_set dst k (op cur v)) h
    = Some (tt, Heap.mkHeap (Heap.Zero h) (Heap.objects h)
                  (<[om := accumulate op c kvs]> (Heap.maps h))).
Proof.
  induction kvs as [|[k v] kvs IH]; intros h c Ho Hm.
  - simpl. unfold mret, Heap.M_ret. rewrite insert_id by done. by destruct h.
  - cbn [Heap.forM].
    erewrite bind_Some; cycle 1.
    { erewrite bind_Some; [|unfold Heap.field; rewrite Ho; reflexivity].
      erewrite bind_Some; [|unfold Heap.map_get; rewrite Hm; reflexivity].
      unfold Heap.map_set. rewrite Hm. reflexivity. }
    erewrite IH; [|exact Ho|simpl; apply lookup_insert_eq].
    simpl. by rewrite insert_insert_eq.
Qed.

Lemma forM_copy out om kvs : forall h c,
  Heap.objects h !! out = Some om -> Heap.maps h !! om = Some c ->
  Heap.forM kvs (fun '(k, v) => dst ← Heap.field out; Heap.map_set dst k v) h
    = Some (tt, Heap.mkHeap (Heap.Zero h) (Heap.objects h)
                  (<[om := foldl (fun ret '(k, v) => <[k := v]> ret) c kvs]> (Heap.maps h))).
Proof.
  induction kvs as [|[k v] kvs IH]; intros h c Ho Hm.
  - simpl. unfold mret, Heap.M_ret. rewrite insert_id by done. by destruct h.
  - cbn [Heap.forM].
    erewrite bind_Some; cycle 1.
    { erewrite bind_Some; [|unfold Heap.field; rewrite Ho; reflexivity].
      unfold Heap.map_set. rewrite Hm. reflexivity. }
    erewrite IH; [|exact Ho|simpl; apply lookup_insert_eq].
    simpl. by rewrite insert_insert_eq.
Qed.

Lemma fresh_object h : Heap.objects h !! fresh (dom (Heap.objects h)) = None.
Proof. apply not_elem_of_dom. apply is_fresh. Qed.

Lemma fresh_map h : Heap.maps h !! fresh (dom (Heap.maps h)) = None.
Proof. apply not_elem_of_dom. apply is_fresh. Qed.

(** [Clone] allocates an object and a map, and copies the entries. *)
Lemma Clone_alloc h r sm sc :
  Heap.objects h !! r = Some sm -> Heap.maps h !! sm = Some sc ->
  Heap.Clone (Some r) h =
    Some (Some (fresh (dom (Heap.objects h))),
          Heap.mkHeap (Heap.Zero h)
                 (<[fresh (dom (Heap.objects h)) := fresh (dom (Heap.maps h))]> (Heap.objects h))
                 (<[fresh (dom (Heap.maps h)) := sc]> (Heap.maps h))).
Proof.
  intros Ho Hm. pose proof (fresh_object h) as Hfo. pose proof (fresh_map h) as Hfm.
  set (ro := fresh (dom (Heap.objects h))) in *. set (mo := fresh (dom (Heap.maps h))) in *.
  assert (Hr : r <> ro) by congruence. assert (Hs : sm <> mo) by congruence.
  unfold Heap.Clone.
  erewrite bind_Some; cycle 1.
  { unfold Heap.NewResource. erewrite bind_Some; [|reflexivity]. reflexivity. }
  fold ro mo. simpl Heap.objects.
  erewrite bind_Some; cycle 1.
  { unfold Heap.field. simpl. rewrite lookup_insert_ne by done. rewrite Ho. reflexivity. }
  erewrite bind_Some; cycle 1.
  { unfold Heap.map_range. simpl. rewrite lookup_insert_ne by done. rewrite Hm. reflexivity. }
  erewrite bind_Some; cycle 1.
  { apply (forM_copy ro mo _ _ ∅); simpl; apply lookup_insert_eq. }
  simpl. unfold mret, Heap.M_ret. rewrite insert_insert_eq. do 4 f_equal.
  pose proof (Clone_id (Some (mkResource sc))) as Hc. simpl in Hc.
  by injection Hc.
Qed.

(** The run of [Add] and [Sub]: the memory gains one object and one
    map, which holds the result. *)
Lemma combine_run op h (l r : option Heap.loc) :
  Heap.wf h -> Heap.valid_ptr h l -> Heap.valid_ptr h r ->
  exists content,
    Heap.combine op l r h =
      Some (Some (fresh (dom (Heap.objects h))),
            Heap.mkHeap (Heap.Zero h)
                   (<[fresh (dom (Heap.objects h)) := fresh (dom (Heap.maps h))]> (Heap.objects h))
                   (<[fresh (dom (Heap.maps h)) := content]> (Heap.maps h))) /\
    forall lv, Heap.value h (Some (default (Heap.Zero h) l)) = Some lv ->
      content =
        match Heap.value h r with
        | None => Resources lv
        | Some rv => accumulate op (Resources lv) (range (Resources rv))
        end.
Proof.
  intros [Hz Hwf] Hl Hr.
  set (l0 := default (Heap.Zero h) l).
  assert (Hl0 : is_Some (Heap.objects h !! l0)) by (destruct l; [exact Hl|exact Hz]).
  destruct Hl0 as [lm Hlm]. destruct (Hwf _ _ Hlm) as [lc Hlc].
  assert (Hleft : Heap.combine op l r h =
    match r with
    | None => Heap.Clone (Some l0)
    | Some r =>
        out ← Heap.Clone (Some l0);
        match out with
        | None => Heap.panic
        | Some out =>
            src ← Heap.field r;
            kvs ← Heap.map_range src;
            Heap.forM kvs (fun '(k, v) =>
                        dst ← Heap.field out;
                        cur ← Heap.map_get dst k;
                        Heap.map_set dst k (op cur v)) ≫= fun _ =>
            mret (Some out)
        end
    end h).
  { unfold Heap.combine. destruct l; reflexivity. }
  rewrite Hleft. clear Hleft.
  pose proof (fresh_object h) as Hfo. pose proof (fresh_map h) as Hfm.
  assert (Hv0 : Heap.value h (Some l0) = Some (mkResource lc)).
  { unfold Heap.value. simpl. rewrite Hlm. simpl. by rewrite Hlc. }
  destruct r as [r|].
  - destruct Hr as [rm Hrm]. destruct (Hwf _ _ Hrm) as [rc Hrc].
    exists (accumulate op lc (range rc)). split.
    + erewrite bind_Some; [|by apply (Clone_alloc h l0 lm lc)].
      cbv beta iota.
      set (ro := fresh (dom (Heap.objects h))) in *. set (mo := fresh (dom (Heap.maps h))) in *.
      erewrite bind_Some; cycle 1.
      { unfold Heap.field. simpl. rewrite lookup_insert_ne by congruence.
        rewrite Hrm. reflexivity. }
      erewrite bind_Some; cycle 1.
      { unfold Heap.map_range. simpl. rewrite lookup_insert_ne by congruence.
        rewrite Hrc. reflexivity. }
      erewrite bind_Some; cycle 1.
      { apply (forM_accumulate op ro mo _ _ lc); simpl; apply lookup_insert_eq. }
      simpl. unfold mret, Heap.M_ret. by rewrite insert_insert_eq.
    + intros lv Hlv. rewrite Hv0 in Hlv. injection Hlv as <-.
      unfold Heap.value. simpl. rewrite Hrm. simpl. rewrite Hrc. done.
  - exists lc. split; [by apply (Clone_alloc h l0 lm lc)|].
    intros lv Hlv. rewrite Hv0 in Hlv. by injection Hlv as <-.
Qed.

Lemma value_insert h ro mo content p :
  Heap.objects h !! ro = None -> Heap.maps h !! mo = None ->
  Heap.valid_ptr h p -> Heap.wf h ->
  Heap.value (Heap.mkHeap (Heap.Zero h) (<[ro := mo]> (Heap.objects h)) (<[mo := content]> (Heap.maps h))) p
    = Heap.value h p.
Proof.
  intros Hro Hmo Hp [_ Hwf]. destruct p as [a|]; [|done].
  destruct Hp as [m Hm]. destruct (Hwf _ _ Hm) as [c Hc].
  unfold Heap.value. simpl.
  rewrite lookup_insert_ne by congruence. rewrite Hm. simpl.
  rewrite lookup_insert_ne by congruence. done.
Qed.

Lemma combine_preserved op h (l r : option Heap.loc) :
  Heap.wf h -> Heap.valid_ptr h l -> Heap.valid_ptr h r ->
  exists res h', Heap.combine op l r h = Some (Some res, h') /\ Heap.preserved h h' l r res.
Proof.
  intros Hwf Hl Hr.
  destruct (combine_run op h l r Hwf Hl Hr) as (content & Hrun & _).
  pose proof (fresh_object h) as Hfo. pose proof (fresh_map h) as Hfm.
  eexists _, _. split; [exact Hrun|].
  set (ro := fresh (dom (Heap.objects h))) in *. set (mo := fresh (dom (Heap.maps h))) in *.
  unfold Heap.preserved. simpl.
  split; [by apply insert_subseteq|]. split; [by apply insert_subseteq|].
  split; [done|].
  split; [by apply value_insert|]. split; [by apply value_insert|].
  split; [done|].
  split. { intros <-. destruct Hl as [? Hl]. simpl in Hl. congruence. }
  split. { intros <-. destruct Hr as [? Hr]. simpl in Hr. congruence. }
  exists mo. rewrite !lookup_insert_eq. eauto.
Qed.

(** C8.  [Add(l,r)] and [Sub(l,r)] do not change their arguments:
    for all pointers [l] and [r], nil or not, the call returns, every
    object and map of the memory is afterwards as it was before, so
    that [l] and [r] have the keys and values they had, and the
    vector returned is a new object with a new map, distinct from
    both arguments. *)
Theorem Add_Sub_preserve_inputs (h : Heap.heap) (l r : option Heap.loc) :
  Heap.wf h -> Heap.valid_ptr h l -> Heap.valid_ptr h r ->
  (exists res h', Heap.Add l r h = Some (Some res, h') /\ Heap.preserved h h' l r res) /\
  (exists res h', Heap.Sub l r h = Some (Some res, h') /\ Heap.preserved h h' l r res).
Proof.
  intros Hwf Hl Hr. rewrite Add_combine, Sub_combine.
  split; by apply combine_preserved.
Qed.

(** A memory with [Zero] and one vector [{x: 1}], passed as both
    arguments. *)
Lemma Add_Sub_preserve_inputs_witness :
  let h := Heap.mkHeap 1%positive
             (<[1%positive := 1%positive]> (<[2%positive := 2%positive]> ∅))
             (<[1%positive := ∅]> (<[2%positive := {[ "x"%string := 1 ]}]> ∅)) in
  Heap.wf h /\ Heap.valid_ptr h (Some 2%positive) /\
  (exists res h', Heap.Add (Some 2%positive) (Some 2%positive) h = Some (Some res, h')
                  /\ Heap.preserved h h' (Some 2%positive) (Some 2%positive) res) /\
  (exists res h', Heap.Sub (Some 2%positive) (Some 2%positive) h = Some (Some res, h')
                  /\ Heap.preserved h h' (Some 2%positive) (Some 2%positive) res).
Proof.
  intros h.
  assert (Hwf : Heap.wf h).
  { split; [by eexists|]. intros r m Hr.
    assert (Hall : map_Forall (fun _ m => is_Some (Heap.maps h !! m)) (Heap.objects h))
      by (apply (bool_decide_unpack _); vm_compute; exact I).
    exact (Hall r m Hr). }
  assert (Hp : Heap.valid_ptr h (Some 2%positive)) by (by eexists).
  split; [exact Hwf|]. split; [exact Hp|].
  exact (Add_Sub_preserve_inputs h (Some 2%positive) (Some 2%positive) Hwf Hp Hp).
Defined.

(** The object that [Add] and [Sub] return holds the vector that the
    functions on values compute, when [Zero] is the empty vector. *)
Lemma combine_value op h (l r : option Heap.loc) :
  Heap.wf h -> Heap.valid_ptr h l -> Heap.valid_ptr h r ->
  Heap.value h (Some (Heap.Zero h)) = Some Zero ->
  exists res h' lv,
    Heap.combine op l r h = Some (Some res, h') /\
    Some lv = Some (or_Zero (Heap.value h l)) /\
    Heap.value h' (Some res) =
      Some (mkResource
              match Heap.value h r with
              | None => Resources lv
              | Some rv => accumulate op (Resources lv) (range (Resources rv))
              end).
Proof.
  intros Hwf Hl Hr Hz.
  destruct (combine_run op h l r Hwf Hl Hr) as (content & Hrun & Hc).
  assert (Hlv : Heap.value h (Some (default (Heap.Zero h) l)) = Some (or_Zero (Heap.value h l))).
  { destruct l as [a|]; simpl default; [|by rewrite Hz].
    destruct Hl as [m Hm]. destruct Hwf as [_ Hwf]. destruct (Hwf _ _ Hm) as [c Hcm].
    unfold Heap.value. simpl. rewrite Hm. simpl. rewrite Hcm. done. }
  eexists _, _, (or_Zero (Heap.value h l)). split; [exact Hrun|]. split; [done|].
  rewrite <- (Hc _ Hlv). unfold Heap.value. simpl. rewrite lookup_insert_eq.
  simpl. by rewrite lookup_insert_eq.
Qed.

Lemma Add_refines h (l r : option Heap.loc) :
  Heap.wf h -> Heap.valid_ptr h l -> Heap.valid_ptr h r ->
  Heap.value h (Some (Heap.Zero h)) = Some Zero ->
  exists res h',
    Heap.Add l r h = Some (Some res, h') /\
    Heap.value h' (Some res) = Add (Heap.value h l) (Heap.value h r).
Proof.
  intros Hwf Hl Hr Hz. rewrite Add_combine.
  destruct (combine_value addVal h l r Hwf Hl Hr Hz) as (res & h' & lv & Hrun & [= ->] & Hv).
  exists res, h'. split; [done|]. rewrite Hv.
  unfold Add. rewrite Clone_id. destruct (Heap.value h r) as [rv|]; [done|].
  by destruct (or_Zero (Heap.value h l)).
Qed.

Lemma Sub_refines h (l r : option Heap.loc) :
  Heap.wf h -> Heap.valid_ptr h l -> Heap.valid_ptr h r ->
  Heap.value h (Some (Heap.Zero h)) = Some Zero ->
  exists res h',
    Heap.Sub l r h = Some (Some res, h') /\
    Heap.value h' (Some res) = Sub (Heap.value h l) (Heap.value h r).
Proof.
  intros Hwf Hl Hr Hz. rewrite Sub_combine.
  destruct (combine_value subVal h l r Hwf Hl Hr Hz) as (res & h' & lv & Hrun & [= ->] & Hv).
  exists res, h'. split; [done|]. rewrite Hv.
  unfold Sub. rewrite Clone_id. destruct (Heap.value h r) as [rv|]; [done|].
  by destruct (or_Zero (Heap.value h l)).
Qed.

End HeapFrame.

(** ** Loops that test every entry *)

Section EntryTests.

Lemma forallb_range (p : string * Z -> bool) (m : gmap string Z) :
  forallb p (range m) = true <-> forall k v, m !! k = Some v -> p (k, v) = true.
Proof.
  rewrite forallb_forall. unfold range. split.
  - intros H k v Hk. apply H. apply list_elem_of_In. by apply elem_of_map_to_list.
  - intros H [k v] Hin. apply H. apply elem_of_map_to_list. by apply list_elem_of_In.
Qed.

Lemma existsb_range (p : string * Z -> bool) (m : gmap string Z) :
  existsb p (range m) = true <-> exists k v, m !! k = Some v /\ p (k, v) = true.
Proof.
  rewrite existsb_exists. unfold range. split.
  - intros ([k v] & Hin & Hp). exists k, v. split; [|done].
    apply elem_of_map_to_list. by apply list_elem_of_In.
  - intros (k & v & Hk & Hp). exists (k, v). split; [|done].
    apply list_elem_of_In. by apply elem_of_map_to_list.
Qed.

Lemma valueOf_Some (x : Resource) k : valueOf (Some x) k = get (Resources x) k.
Proof. reflexivity. Qed.

Lemma entry_Some (x : Resource) k v : entry (Some x) k v <-> Resources x !! k = Some v.
Proof.
  split; [by intros (y & [= <-] & H)|]. intros H. by exists x.
Qed.

Lemma entry_None k v : ~ entry None k v.
Proof. by intros (y & H & _). Qed.

Lemma IsZero_true (r : ResourceP) :
  IsZero r = true <-> forall k, valueOf r k = 0.
Proof.
  destruct r as [x|]; simpl; [|done].
  rewrite forallb_range. split.
  - intros H k. destruct (Resources x !! k) as [v|] eqn:Hk; simpl; [|done].
    specialize (H k v Hk). simpl in H. rewrite negb_involutive in H. lia.
  - intros H k v Hk. specialize (H k). rewrite Hk in H. simpl in H. subst v. done.
Qed.

Lemma Equals_Some_true (l r : Resource) :
  Equals (Some l) (Some r) = true <->
  forall k, valueOf (Some l) k = valueOf (Some r) k.
Proof.
  simpl. rewrite andb_true_iff, !forallb_range. unfold get. split.
  - intros [H1 H2] k.
    destruct (Resources l !! k) as [v|] eqn:Hl.
    + specialize (H1 k v Hl). simpl in H1. rewrite negb_involutive in H1.
      apply Z.eqb_eq in H1. by rewrite H1.
    + destruct (Resources r !! k) as [w|] eqn:Hr; [|done].
      specialize (H2 k w Hr). simpl in H2. rewrite negb_involutive, Hl in H2.
      apply Z.eqb_eq in H2. simpl in *. lia.
  - intros H. split; intros k v Hk; simpl; rewrite negb_involutive;
      apply Z.eqb_eq; specialize (H k); rewrite Hk in H; simpl in H; lia.
Qed.

End EntryTests.

(** ** Equality and emptiness *)

Section Equality.

(** [Equals] on two vectors compares the values key by key, an absent
    key read as 0; a nil vector equals only nil.  [DeepEquals] implies
    [Equals], and not the reverse: [{a:1}] and [{a:1, b:0}]. *)
Theorem Equals_spec :
  (forall l r : Resource,
     Equals (Some l) (Some r) = true <->
     forall k, valueOf (Some l) k = valueOf (Some r) k) /\
  Equals None None = true /\
  (forall r : Resource, Equals None (Some r) = false /\ Equals (Some r) None = false) /\
  (forall l r : ResourceP, DeepEquals l r = true -> Equals l r = true) /\
  Equals (vec [("a"%string, 1)]) (vec [("a"%string, 1); ("b"%string, 0)]) = true /\
  DeepEquals (vec [("a"%string, 1)]) (vec [("a"%string, 1); ("b"%string, 0)]) = false.
Proof.
  split; [apply Equals_Some_true|]. split; [done|]. split; [done|].
  split; [|split; vm_compute; reflexivity].
  intros l r H. apply DeepEquals_true in H.
  destruct l as [l|], r as [r|]; try done.
  apply Equals_Some_true. intros k. simpl. by rewrite H.
Qed.

Lemma EqualsOrEmpty_true (left right : ResourceP) :
  EqualsOrEmpty left right = true <-> forall k, valueOf left k = valueOf right k.
Proof.
  unfold EqualsOrEmpty.
  destruct (IsZero left && IsZero right) eqn:Hz.
  - apply andb_true_iff in Hz as [Hl Hr].
    rewrite IsZero_true in Hl. rewrite IsZero_true in Hr.
    split; [|done]. intros _ k. by rewrite Hl, Hr.
  - destruct left as [l|], right as [r|].
    + apply Equals_Some_true.
    + split; [done|]. intros H.
      assert (Hl : IsZero (Some l) = true) by (apply IsZero_true; intros k; apply H).
      rewrite Hl in Hz. done.
    + split; [done|]. intros H.
      assert (Hr : IsZero (Some r) = true)
        by (apply IsZero_true; intros k; symmetry; apply H).
      rewrite Hr in Hz. done.
    + done.
Qed.

(** [EqualsOrEmpty] holds exactly of two vectors with the same value
    for every key, where an absent key and every key of a nil vector
    count as 0: nil, the empty vector and a vector of zeros are all
    equal to one another. *)
Theorem EqualsOrEmpty_spec (left right : ResourceP) :
  (EqualsOrEmpty left right = true <-> forall k, valueOf left k = valueOf right k) /\
  EqualsOrEmpty None (vec [("a"%string, 0)]) = true /\
  Equals None (vec [("a"%string, 0)]) = false.
Proof. split; [apply EqualsOrEmpty_true|split; vm_compute; reflexivity]. Qed.

(** [IsZero] holds of a vector whose every value is 0, so of nil and
    of every empty vector; [IsEmpty] asks for no key at all:
    [{a: 0}] is zero and not empty. *)
Theorem IsZero_IsEmpty_spec (r : ResourceP) :
  (IsZero r = true <-> forall k, valueOf r k = 0) /\
  (IsEmpty r = true <-> forall k, ~ present r k) /\
  (IsEmpty r = true -> IsZero r = true) /\
  IsZero (vec [("a"%string, 0)]) = true /\
  IsEmpty (vec [("a"%string, 0)]) = false.
Proof.
  assert (He : IsEmpty r = true <-> forall k, ~ present r k).
  { destruct r as [x|]; simpl.
    - rewrite Nat.eqb_eq, map_size_empty_iff. split.
      + intros Hx k (v & Hv). apply entry_Some in Hv. rewrite Hx in Hv.
        by rewrite lookup_empty in Hv.
      + intros H. apply map_empty. intros k.
        destruct (Resources x !! k) as [v|] eqn:Hk; [|done].
        destruct (H k). exists v. by apply entry_Some.
    - split; [|done]. intros _ k (v & Hv). by apply entry_None in Hv. }
  split; [apply IsZero_true|]. split; [exact He|].
  split; [|split; vm_compute; reflexivity].
  intros H. apply IsZero_true. intros k. rewrite He in H.
  destruct r as [x|]; [|done]. simpl.
  destruct (Resources x !! k) as [v|] eqn:Hk; [|done].
  destruct (H k). exists v. by apply entry_Some.
Qed.

End Equality.

(** ** Signs *)

Section Signs.

Lemma StrictlyGreaterThanZero_loop_eq greater entries :
  StrictlyGreaterThanZero_loop greater entries =
    if forallb (fun '(_, v) => negb (v <? 0)) entries
    then Some (greater || existsb (fun '(_, v) => v >? 0) entries)
    else None.
Proof.
  revert greater. induction entries as [|[k v] rest IH]; intros greater; simpl.
  - by rewrite orb_false_r.
  - destruct (v <? 0); simpl; [done|]. rewrite IH.
    destruct (forallb _ rest); [|done]. f_equal.
    destruct (v >? 0), greater; simpl; done.
Qed.

Lemma or_Zero_lookup (r : ResourceP) k v :
  Resources (or_Zero r) !! k = Some v <-> entry r k v.
Proof.
  destruct r as [x|]; simpl.
  - symmetry. apply entry_Some.
  - rewrite lookup_empty. split; [done|]. intros H. by apply entry_None in H.
Qed.

Lemma or_Zero_get (r : ResourceP) k : get (Resources (or_Zero r)) k = valueOf r k.
Proof. destruct r as [x|]; simpl; [done|]. unfold get. by rewrite lookup_empty. Qed.

(** [StrictlyGreaterThanZero] holds of a vector with a positive value
    and no negative one, so never of nil, of an empty vector or of a
    vector of zeros; [HasNegativeValue] holds of a vector with a
    negative value. *)
Theorem StrictlyGreaterThanZero_spec (r : ResourceP) :
  (StrictlyGreaterThanZero r = true <->
     (forall k v, entry r k v -> 0 <= v) /\ (exists k v, entry r k v /\ 0 < v)) /\
  (HasNegativeValue r = true <-> exists k v, entry r k v /\ v < 0) /\
  (StrictlyGreaterThanZero r = true -> HasNegativeValue r = false) /\
  (StrictlyGreaterThanZero r = true -> IsZero r = false).
Proof.
  assert (H1 : StrictlyGreaterThanZero r = true <->
     (forall k v, entry r k v -> 0 <= v) /\ (exists k v, entry r k v /\ 0 < v)).
  { destruct r as [x|]; simpl.
    - rewrite StrictlyGreaterThanZero_loop_eq. simpl.
      destruct (forallb _ _) eqn:Hf.
      + rewrite forallb_range in Hf. rewrite existsb_range. split.
        * intros (k & v & Hk & Hv). split.
          -- intros k' v' Hk'. apply entry_Some in Hk'. specialize (Hf k' v' Hk').
             simpl in Hf. lia.
          -- exists k, v. rewrite entry_Some. split; [done|]. simpl in Hv. lia.
        * intros [_ (k & v & Hk & Hv)]. exists k, v. apply entry_Some in Hk.
          split; [done|]. simpl. lia.
      + split; [done|]. intros [Hall _].
        apply not_true_iff_false in Hf. destruct Hf. apply forallb_range.
        intros k v Hk. simpl. specialize (Hall k v). rewrite entry_Some in Hall.
        specialize (Hall Hk). lia.
    - split; [done|]. intros [_ (k & v & Hk & _)]. by apply entry_None in Hk. }
  assert (H2 : HasNegativeValue r = true <-> exists k v, entry r k v /\ v < 0).
  { destruct r as [x|]; simpl.
    - rewrite existsb_range. split.
      + intros (k & v & Hk & Hv). exists k, v. rewrite entry_Some. simpl in Hv.
        split; [done|lia].
      + intros (k & v & Hk & Hv). exists k, v. apply entry_Some in Hk.
        split; [done|]. simpl. lia.
    - split; [done|]. intros (k & v & Hk & _). by apply entry_None in Hk. }
  split; [exact H1|]. split; [exact H2|]. split.
  - intros H. apply H1 in H as [Hall _]. apply not_true_iff_false.
    rewrite H2. intros (k & v & Hk & Hv). specialize (Hall k v Hk). lia.
  - intros H. apply H1 in H as [_ (k & v & Hk & Hv)]. apply not_true_iff_false.
    rewrite IsZero_true. intros Hz. specialize (Hz k).
    destruct Hk as (x & -> & Hk). simpl in Hz. rewrite Hk in Hz. simpl in Hz. lia.
Qed.

End Signs.

(** ** Strict comparison *)

Section StrictComparison.

Lemma StrictlyGreaterThan_larger_eq smaller notEqual entries :
  StrictlyGreaterThan_larger smaller notEqual entries =
    if forallb (fun '(k, v) => negb (get smaller k >? v)) entries
    then Some (notEqual || existsb (fun '(k, v) => negb (get smaller k =? v)) entries)
    else None.
Proof.
  revert notEqual. induction entries as [|[k v] rest IH]; intros notEqual; simpl.
  - by rewrite orb_false_r.
  - destruct (get smaller k >? v); simpl; [done|]. rewrite IH.
    destruct (forallb _ rest); [|done]. f_equal.
    destruct (get smaller k =? v), notEqual; simpl; done.
Qed.

Lemma StrictlyGreaterThan_smaller_eq larger notEqual entries :
  StrictlyGreaterThan_smaller larger notEqual entries =
    if forallb (fun '(k, v) => negb (get larger k <? v)) entries
    then Some (notEqual || existsb (fun '(k, v) => negb (get larger k =? v)) entries)
    else None.
Proof.
  revert notEqual. induction entries as [|[k v] rest IH]; intros notEqual; simpl.
  - by rewrite orb_false_r.
  - destruct (get larger k <? v); simpl; [done|]. rewrite IH.
    destruct (forallb _ rest); [|done]. f_equal.
    destruct (get larger k =? v), notEqual; simpl; done.
Qed.

Lemma StrictlyGreaterThanOrEquals_true (larger smaller : ResourceP) :
  StrictlyGreaterThanOrEquals larger smaller = true <->
  forall k, valueOf smaller k <= valueOf larger k.
Proof.
  unfold StrictlyGreaterThanOrEquals.
  rewrite andb_true_iff, !forallb_range. split.
  - intros [H1 H2] k. rewrite <- !or_Zero_get. unfold get at 2.
    destruct (Resources (or_Zero larger) !! k) as [v|] eqn:Hl; simpl.
    + specialize (H1 k v Hl). simpl in H1. lia.
    + unfold get. destruct (Resources (or_Zero smaller) !! k) as [w|] eqn:Hs; simpl; [|done].
      specialize (H2 k w Hs). simpl in H2. unfold get in H2. rewrite Hl in H2.
      simpl in H2. lia.
  - intros H. split; intros k v Hk; simpl; specialize (H k);
      rewrite <- !or_Zero_get in H; unfold get in H |- *; rewrite Hk in H;
      simpl in H; lia.
Qed.

Lemma differ_somewhere (larger smaller : ResourceP) :
  existsb (fun '(k, v) => negb (get (Resources (or_Zero smaller)) k =? v))
          (range (Resources (or_Zero larger)))
  || existsb (fun '(k, v) => negb (get (Resources (or_Zero larger)) k =? v))
             (range (Resources (or_Zero smaller))) = true <->
  exists k, valueOf smaller k <> valueOf larger k.
Proof.
  rewrite orb_true_iff, !existsb_range. split.
  - intros [(k & v & Hk & Hv)|(k & v & Hk & Hv)]; exists k;
      rewrite <- !or_Zero_get; simpl in Hv.
    + unfold get at 2. rewrite Hk. simpl. lia.
    + unfold get at 1. rewrite Hk. simpl. lia.
  - intros (k & Hne). rewrite <- !or_Zero_get in Hne.
    destruct (Resources (or_Zero larger) !! k) as [v|] eqn:Hl.
    + left. exists k, v. split; [done|]. simpl.
      unfold get at 2 in Hne. rewrite Hl in Hne. simpl in Hne. lia.
    + destruct (Resources (or_Zero smaller) !! k) as [w|] eqn:Hs.
      * right. exists k, w. split; [done|]. simpl.
        unfold get at 1 in Hne. rewrite Hs in Hne. simpl in Hne. lia.
      * unfold get in Hne. rewrite Hl, Hs in Hne. done.
Qed.

(** [StrictlyGreaterThanOrEquals(larger, smaller)] holds when no
    value of [smaller] exceeds that of [larger], and
    [StrictlyGreaterThan] when moreover one value differs; an absent
    key and a nil vector count as 0.  So [StrictlyGreaterThan] is
    [StrictlyGreaterThanOrEquals] without [EqualsOrEmpty], holds of no
    vector against itself, and never in both directions. *)
Theorem StrictlyGreaterThan_spec (larger smaller : ResourceP) :
  (StrictlyGreaterThanOrEquals larger smaller = true <->
     forall k, valueOf smaller k <= valueOf larger k) /\
  (StrictlyGreaterThan larger smaller = true <->
     (forall k, valueOf smaller k <= valueOf larger k) /\
     (exists k, valueOf smaller k <> valueOf larger k)) /\
  StrictlyGreaterThan larger smaller
    = StrictlyGreaterThanOrEquals larger smaller && negb (EqualsOrEmpty larger smaller) /\
  StrictlyGreaterThan larger larger = false /\
  (StrictlyGreaterThan larger smaller = true ->
     StrictlyGreaterThan smaller larger = false).
Proof.
  assert (HS : forall l s, StrictlyGreaterThan l s = true <->
     (forall k, valueOf s k <= valueOf l k) /\
     (exists k, valueOf s k <> valueOf l k)).
  { intros l s. rewrite <- StrictlyGreaterThanOrEquals_true, <- differ_somewhere.
    unfold StrictlyGreaterThan, StrictlyGreaterThanOrEquals.
    rewrite StrictlyGreaterThan_larger_eq.
    destruct (forallb _ (range (Resources (or_Zero l)))); simpl; [|by split; [|intros []]].
    rewrite StrictlyGreaterThan_smaller_eq.
    destruct (forallb _ (range (Resources (or_Zero s)))); simpl; [|by split; [|intros []]].
    split; [done|by intros []]. }
  split; [apply StrictlyGreaterThanOrEquals_true|]. split; [apply HS|].
  split; [|split].
  - apply eq_true_iff_eq. rewrite HS, andb_true_iff, negb_true_iff.
    rewrite StrictlyGreaterThanOrEquals_true, <- not_true_iff_false, EqualsOrEmpty_true.
    split.
    + intros [Hle (k & Hk)]. split; [done|]. intros He. apply Hk. by rewrite He.
    + intros [Hle Hne]. split; [done|].
      destruct (decide (StrictlyGreaterThan larger smaller = true)) as [Hd|Hd].
      * by apply HS in Hd as [_ ?].
      * exfalso. apply Hne. intros k.
        destruct (decide (valueOf larger k = valueOf smaller k)) as [|Hk]; [done|].
        destruct Hd. apply HS. split; [done|]. exists k. congruence.
  - apply not_true_iff_false. rewrite HS. intros [_ (k & Hk)]. done.
  - intros H. apply not_true_iff_false. rewrite HS. apply HS in H as [Hle (k & Hk)].
    intros [Hge _]. apply Hk. specialize (Hle k). specialize (Hge k). lia.
Qed.

End StrictComparison.

Section StrictComparisonOnlyExisting.

Lemma StrictlyGreaterThanOnlyExisting_loop_eq (smaller : Resource) st entries :
  StrictlyGreaterThanOnlyExisting_loop smaller st entries =
    if forallb (fun '(k, v) =>
                  match Resources smaller !! k with
                  | Some val => negb (val >? v)
                  | None => true
                  end) entries
    then Some (mkSgtoe
      (notEqual st
       || existsb (fun '(k, v) =>
                     match Resources smaller !! k with
                     | Some val => negb (val =? v)
                     | None => false
                     end) entries)
      (atleastOneResourcePresent st
       || existsb (fun '(k, _) => bool_decide (is_Some (Resources smaller !! k))) entries)
      (isAllPositiveInLarger st
       && forallb (fun '(_, v) => negb (IsEmpty (Some smaller) && (v <=? 0))) entries))
    else None.
Proof.
  revert st. induction entries as [|[k v] rest IH]; intros [ne al pos].
  - simpl. by rewrite !orb_false_r, andb_true_r.
  - cbn [StrictlyGreaterThanOnlyExisting_loop forallb existsb].
    destruct (Resources smaller !! k) as [val|] eqn:Hk.
    + rewrite bool_decide_eq_true_2 by eauto.
      destruct (val >? v); [done|]. rewrite IH. cbn [negb andb].
      destruct (forallb _ rest); [|done]. f_equal.
      destruct (IsEmpty (Some smaller) && (v <=? 0)), (val =? v); simpl;
        rewrite ?orb_true_r, ?andb_false_r; try done;
        destruct ne, al, pos; simpl; done.
    + rewrite bool_decide_eq_false_2 by (by intros [? ?]).
      rewrite IH. cbn [negb andb orb].
      destruct (forallb _ rest); [|done]. f_equal.
      destruct (IsEmpty (Some smaller) && (v <=? 0)); simpl;
        rewrite ?andb_false_r; try done; destruct pos; done.
Qed.

Lemma IsEmpty_or_Zero (r : ResourceP) : IsEmpty (Some (or_Zero r)) = IsEmpty r.
Proof. by destruct r. Qed.

Lemma IsEmpty_false (r : ResourceP) :
  IsEmpty r = false <-> exists k, present r k.
Proof.
  destruct r as [x|]; simpl.
  - rewrite Nat.eqb_neq, map_size_non_empty_iff. split.
    + intros Hne. apply map_choose in Hne as (k & v & Hk).
      exists k, v. by apply entry_Some.
    + intros (k & v & Hk) He. apply entry_Some in Hk. rewrite He in Hk.
      by rewrite lookup_empty in Hk.
  - split; [done|]. intros (k & v & Hk). by apply entry_None in Hk.
Qed.

(** [StrictlyGreaterThanOnlyExisting(r, smaller)], with nil read as
    the empty vector, holds in three cases only: [smaller] is empty
    and every value of the non-empty [r] is positive; or both are
    non-empty without a common key; or no common key has a larger
    value in [smaller] and one common key has a different value.  It
    never holds of an empty [r]. *)
Theorem StrictlyGreaterThanOnlyExisting_spec (r smaller : ResourceP) :
  (StrictlyGreaterThanOnlyExisting r smaller = true <->
     (IsEmpty smaller = true /\ IsEmpty r = false /\
      forall k v, entry r k v -> 0 < v) \/
     (IsEmpty smaller = false /\ IsEmpty r = false /\
      forall k, present r k -> ~ present smaller k) \/
     ((forall k v w, entry r k v -> entry smaller k w -> w <= v) /\
      exists k v w, entry r k v /\ entry smaller k w /\ w <> v)) /\
  (IsEmpty r = true -> StrictlyGreaterThanOnlyExisting r smaller = false).
Proof.
  assert (Hmain : StrictlyGreaterThanOnlyExisting r smaller = true <->
     (IsEmpty smaller = true /\ IsEmpty r = false /\
      forall k v, entry r k v -> 0 < v) \/
     (IsEmpty smaller = false /\ IsEmpty r = false /\
      forall k, present r k -> ~ present smaller k) \/
     ((forall k v w, entry r k v -> entry smaller k w -> w <= v) /\
      exists k v w, entry r k v /\ entry smaller k w /\ w <> v)).
  { unfold StrictlyGreaterThanOnlyExisting.
    rewrite StrictlyGreaterThanOnlyExisting_loop_eq. cbn [notEqual
      atleastOneResourcePresent isAllPositiveInLarger orb andb].
    rewrite !IsEmpty_or_Zero.
    set (s := or_Zero smaller). set (l := or_Zero r).
    assert (Hs : forall k w, Resources s !! k = Some w <-> entry smaller k w)
      by (intros; apply or_Zero_lookup).
    assert (Hl : forall k v, Resources l !! k = Some v <-> entry r k v)
      by (intros; apply or_Zero_lookup).
    (* the three tests of the loop, read on the entries *)
    assert (Hle : forallb (fun '(k, v) =>
                  match Resources s !! k with
                  | Some val => negb (val >? v)
                  | None => true
                  end) (range (Resources l)) = true <->
                forall k v w, entry r k v -> entry smaller k w -> w <= v).
    { rewrite forallb_range. split.
      - intros H k v w Hk Hw. apply Hl in Hk. apply Hs in Hw.
        specialize (H k v Hk). simpl in H. rewrite Hw in H. lia.
      - intros H k v Hk. simpl. destruct (Resources s !! k) as [w|] eqn:Hw; [|done].
        apply Hl in Hk. apply Hs in Hw. specialize (H k v w Hk Hw). lia. }
    assert (Hne : existsb (fun '(k, v) =>
                     match Resources s !! k with
                     | Some val => negb (val =? v)
                     | None => false
                     end) (range (Resources l)) = true <->
                exists k v w, entry r k v /\ entry smaller k w /\ w <> v).
    { rewrite existsb_range. split.
      - intros (k & v & Hk & H). simpl in H.
        destruct (Resources s !! k) as [w|] eqn:Hw; [|done].
        exists k, v, w. rewrite <- Hl, <- Hs. repeat split; try done. lia.
      - intros (k & v & w & Hk & Hw & H). exists k, v. apply Hl in Hk. apply Hs in Hw.
        split; [done|]. simpl. rewrite Hw. lia. }
    assert (Hal : existsb (fun '(k, _) => bool_decide (is_Some (Resources s !! k)))
                    (range (Resources l)) = true <->
                exists k, present r k /\ present smaller k).
    { rewrite existsb_range. split.
      - intros (k & v & Hk & H). simpl in H. apply bool_decide_eq_true in H as [w Hw].
        exists k. split; [exists v; by apply Hl|exists w; by apply Hs].
      - intros (k & [v Hk] & [w Hw]). exists k, v. apply Hl in Hk. apply Hs in Hw.
        split; [done|]. simpl. apply bool_decide_eq_true. eauto. }
    destruct (IsEmpty smaller) eqn:Hes.
    - (* smaller is empty: no common key *)
      assert (Hno : forall k w, ~ entry smaller k w).
      { intros k w Hw.
        assert (IsEmpty smaller = false) by (apply IsEmpty_false; exists k, w; done).
        congruence. }
      assert (Hle' : forallb (fun '(k, v) =>
                  match Resources s !! k with
                  | Some val => negb (val >? v)
                  | None => true
                  end) (range (Resources l)) = true).
      { apply Hle. intros k v w _ Hw. by destruct (Hno k w). }
      rewrite Hle'. cbn [andb].
      destruct (IsEmpty r) eqn:Her; cbn [negb andb].
      + assert (Hal' : existsb (fun '(k, _) => bool_decide (is_Some (Resources s !! k)))
                    (range (Resources l)) = false).
        { apply not_true_iff_false. rewrite Hal. intros (k & _ & [w Hw]).
          by destruct (Hno k w). }
        rewrite Hal'. split; [done|].
        intros [(_ & ? & _)|[(? & _)|(_ & k & v & w & _ & Hw & _)]]; try done.
        by destruct (Hno k w).
      + assert (Hpos : forallb (fun '(_, v) => negb (true && (v <=? 0)))
                           (range (Resources l)) = true <->
                         forall k v, entry r k v -> 0 < v).
        { rewrite forallb_range. split.
          - intros H k v Hk. apply Hl in Hk. specialize (H k v Hk). simpl in H. lia.
          - intros H k v Hk. apply Hl in Hk. specialize (H k v Hk). simpl. lia. }
        rewrite Hpos. split.
        * intros H. left. done.
        * intros [(_ & _ & H)|[(? & _)|(_ & k & v & w & _ & Hw & _)]]; try done.
          by destruct (Hno k w).
    - cbn [andb].
      destruct (forallb (fun '(k, v) =>
                  match Resources s !! k with
                  | Some val => negb (val >? v)
                  | None => true
                  end) (range (Resources l))) eqn:Hf.
      + pose proof (proj1 Hle eq_refl) as Hf'.
        destruct (existsb (fun '(k, _) => bool_decide (is_Some (Resources s !! k)))
                    (range (Resources l))) eqn:Ha.
        * pose proof (proj1 Hal eq_refl) as Ha'.
          cbn [atleastOneResourcePresent notEqual isAllPositiveInLarger negb].
          rewrite Hne. split.
          -- intros H. right. right. done.
          -- intros [(? & _)|[(_ & _ & Hd)|[_ H]]]; try done.
             destruct Ha' as (k & Hk & Hks). by destruct (Hd k).
        * cbn [atleastOneResourcePresent notEqual isAllPositiveInLarger negb].
          rewrite andb_true_r, negb_true_iff. split.
          -- intros H. right. left. split; [done|]. split; [done|].
             intros k Hk Hks. assert (false = true); [|done]. apply Hal. eauto.
          -- intros [(? & _)|[(_ & H & _)|[_ (k & v & w & Hk & Hw & _)]]]; try done.
             assert (false = true); [|done]. apply Hal.
             exists k. split; [by exists v|by exists w].
      + split; [done|].
        intros [(? & _)|[(_ & _ & Hd)|[H _]]]; try done.
        * assert (false = true); [|done]. apply Hle.
          intros k v w Hk Hw. destruct (Hd k); [by exists v|by exists w].
        * assert (false = true); [|done]. by apply Hle. }
  split; [exact Hmain|].
  intros He. apply not_true_iff_false. rewrite Hmain.
  intros [(_ & ? & _)|[(_ & ? & _)|(_ & k & v & w & Hk & _)]]; try congruence.
  assert (IsEmpty r = false) by (apply IsEmpty_false; exists k, v; done).
  congruence.
Qed.

End StrictComparisonOnlyExisting.

(** ** The entries of the results *)

Section ResultEntries.

(** A loop that stores at most one value per key it visits. *)
Lemma insert_loop_lookup (step : gmap string Z -> string * Z -> gmap string Z)
    (f : string -> Z -> option Z) (init m : gmap string Z) (k : string) :
  (forall out k v,
     step out (k, v) = match f k v with Some w => <[k := w]> out | None => out end) ->
  foldl step init (range m) !! k =
    match m !! k with
    | Some v => match f k v with Some w => Some w | None => init !! k end
    | None => init !! k
    end.
Proof.
  intros Hstep. unfold range.
  rewrite <- (list_to_map_to_list m) at 2.
  generalize (NoDup_fst_map_to_list m). generalize (map_to_list m) as l.
  intros l. revert init. induction l as [|[k0 v0] l IH]; intros init Hnd.
  - reflexivity.
  - apply NoDup_cons in Hnd as [Hk0 Hnd]. simpl. rewrite IH by done.
    rewrite Hstep. destruct (decide (k0 = k)) as [->|Hne].
    + rewrite lookup_insert_eq, (not_elem_of_list_to_map_1 _ k) by done.
      destruct (f k v0); [by rewrite lookup_insert_eq|done].
    + rewrite lookup_insert_ne by done.
      destruct (list_to_map l !! k) as [v|]; [destruct (f k v); [done|]|];
        destruct (f k0 v0); by rewrite ?lookup_insert_ne.
Qed.

Lemma lookupP_or_Zero (r : ResourceP) k : Resources (or_Zero r) !! k = lookupP r k.
Proof. destruct r; [done|apply lookup_empty]. Qed.

Lemma valueOf_lookupP (r : ResourceP) k : valueOf r k = default 0 (lookupP r k).
Proof. by destruct r. Qed.

Lemma present_lookupP (r : ResourceP) k : present r k <-> is_Some (lookupP r k).
Proof.
  destruct r as [x|]; simpl.
  - split; [intros [v Hv]; apply entry_Some in Hv; eauto|].
    intros [v Hv]. exists v. by apply entry_Some.
  - split; [intros [v Hv]; by apply entry_None in Hv|by intros [? ?]].
Qed.

(** What [Add] and [Sub] return, whatever the scalar operation. *)
Lemma accumulate_result op (l r : ResourceP) (k : string) :
  Resources
    (match r with
     | None => or_Zero l
     | Some x => mkResource (accumulate op (Resources (or_Zero l)) (range (Resources x)))
     end) !! k =
  match lookupP r k with
  | Some v => Some (op (valueOf l k) v)
  | None => lookupP l k
  end.
Proof.
  destruct r as [x|]; simpl.
  - rewrite accumulate_lookup, or_Zero_get, lookupP_or_Zero. done.
  - apply lookupP_or_Zero.
Qed.

(** [Add(left, right)] is never nil.  Its keys are those of either
    vector; a key of [right] holds [addVal] of the value of [left]
    (0 when [left] lacks the key or is nil) and the value of
    [right], and a key of [left] alone keeps its value. *)
Theorem Add_entries (left right : ResourceP) :
  exists out,
    Add left right = Some out /\
    (forall k,
       Resources out !! k =
         match lookupP right k with
         | Some v => Some (addVal (valueOf left k) v)
         | None => lookupP left k
         end) /\
    (forall k, present (Some out) k <-> present left k \/ present right k).
Proof.
  assert (H : Add left right =
    Some (match right with
          | None => or_Zero left
          | Some x => mkResource (accumulate addVal (Resources (or_Zero left))
                                    (range (Resources x)))
          end)).
  { unfold Add. rewrite Clone_id. by destruct right. }
  eexists. split; [exact H|]. split; [apply accumulate_result|].
  intros k. rewrite !present_lookupP. simpl. rewrite accumulate_result.
  destruct (lookupP right k), (lookupP left k); split; eauto;
    intros [[? ?]|[? ?]]; done.
Qed.

(** [Sub(left, right)] is never nil.  Its keys are those of either
    vector; a key of [right] holds [subVal] of the value of [left]
    (0 when [left] lacks the key or is nil) and the value of
    [right], which may be negative, and a key of [left] alone keeps
    its value. *)
Theorem Sub_entries (left right : ResourceP) :
  exists out,
    Sub left right = Some out /\
    (forall k,
       Resources out !! k =
         match lookupP right k with
         | Some v => Some (subVal (valueOf left k) v)
         | None => lookupP left k
         end) /\
    (forall k, present (Some out) k <-> present left k \/ present right k).
Proof.
  assert (H : Sub left right =
    Some (match right with
          | None => or_Zero left
          | Some x => mkResource (accumulate subVal (Resources (or_Zero left))
                                    (range (Resources x)))
          end)).
  { unfold Sub. rewrite Clone_id. by destruct right. }
  eexists. split; [exact H|]. split; [apply accumulate_result|].
  intros k. rewrite !present_lookupP. simpl. rewrite accumulate_result.
  destruct (lookupP right k), (lookupP left k); split; eauto;
    intros [[? ?]|[? ?]]; done.
Qed.

(** [AddOnlyExisting] and [SubOnlyExisting] return a vector with the
    keys of [base] and no other: each holds [addVal] ([subVal]) of
    its value and the value of [delta], 0 for a key that [delta]
    lacks.  With a nil [delta] the result is a copy of [base], and
    with a nil [base] it is nil. *)
Theorem OnlyExisting_entries (base delta : ResourceP) (k : string) :
  lookupP (AddOnlyExisting base delta) k =
    match lookupP base k with
    | Some v => Some (match delta with
                      | Some _ => addVal v (valueOf delta k)
                      | None => v
                      end)
    | None => None
    end /\
  lookupP (SubOnlyExisting base delta) k =
    match lookupP base k with
    | Some v => Some (match delta with
                      | Some _ => subVal v (valueOf delta k)
                      | None => v
                      end)
    | None => None
    end /\
  AddOnlyExisting None delta = None /\
  SubOnlyExisting None delta = None /\
  AddOnlyExisting base None = base /\
  SubOnlyExisting base None = base.
Proof.
  assert (Hnil : forall b : ResourceP,
            AddOnlyExisting b None = b /\ SubOnlyExisting b None = b).
  { intros b. unfold AddOnlyExisting, SubOnlyExisting.
    destruct b; by rewrite Clone_id. }
  destruct (Hnil base) as [Ha Hs].
  assert (Hentries :
    lookupP (AddOnlyExisting base delta) k =
      match lookupP base k with
      | Some v => Some (match delta with
                        | Some _ => addVal v (valueOf delta k)
                        | None => v
                        end)
      | None => None
      end /\
    lookupP (SubOnlyExisting base delta) k =
      match lookupP base k with
      | Some v => Some (match delta with
                        | Some _ => subVal v (valueOf delta k)
                        | None => v
                        end)
      | None => None
      end).
  { destruct delta as [d|].
    - destruct base as [b|]; [|done]. simpl.
      rewrite (insert_loop_lookup _
                 (fun k _ => Some (addVal (get (Resources b) k) (get (Resources d) k))))
        by done.
      rewrite (insert_loop_lookup _
                 (fun k _ => Some (subVal (get (Resources b) k) (get (Resources d) k))))
        by done.
      unfold get. rewrite lookup_empty.
      destruct (Resources b !! k); simpl; done.
    - rewrite Ha, Hs. by destruct (lookupP base k). }
  destruct Hentries as [H1 H2].
  repeat split; try done.
Qed.

End ResultEntries.

(** ** Subtraction without negative results *)

Section SubNonNegative.

Lemma message_first k :
  String.eqb ("resource quantity less than zero for: " +:+ k)%string "" = false.
Proof. reflexivity. Qed.

Lemma message_next message k :
  String.eqb message "" = false ->
  String.eqb (message +:+ (", " +:+ k))%string "" = false.
Proof. by destruct message. Qed.

(** The loop of [subNonNegative] on entries with distinct keys: what
    it stores, and when it leaves the message empty. *)
Lemma subNonNegative_loop (entries : list (string * Z)) :
  forall (out : gmap string Z) (message : string),
  NoDup entries.*1 ->
  let st := foldl subNonNegative_body (out, message) entries in
  (forall k,
     st.1 !! k =
       match (list_to_map entries : gmap string Z) !! k with
       | Some v => Some (Z.max 0 (subVal (get out k) v))
       | None => out !! k
       end) /\
  (String.eqb st.2 "" = true <->
     String.eqb message "" = true /\
     forall k v, (k, v) ∈ entries -> 0 <= subVal (get out k) v).
Proof.
  induction entries as [|[k0 v0] rest IH]; intros out message Hnd.
  - simpl. split; [done|]. split; [|tauto]. intros H. split; [done|].
    intros k v Hin. by apply elem_of_nil in Hin.
  - rewrite fmap_cons in Hnd. apply NoDup_cons in Hnd as [Hk0 Hnd]. cbn [fst] in Hk0.
    cbn [foldl].
    set (d := subVal (get out k0) v0).
    assert (Hget : get (<[k0 := d]> out) k0 = d)
      by (unfold get; by rewrite lookup_insert_eq).
    assert (Hbody : subNonNegative_body (out, message) (k0, v0) =
              if d <? 0 then
                (<[k0 := 0]> (<[k0 := d]> out),
                 if String.eqb message ""
                 then ("resource quantity less than zero for: " +:+ k0)%string
                 else (message +:+ (", " +:+ k0))%string)
              else (<[k0 := d]> out, message)).
    { unfold subNonNegative_body. fold d. by rewrite Hget. }
    rewrite Hbody. clear Hbody.
    assert (Hother : forall (w : Z) k, (k, w) ∈ rest -> k0 <> k).
    { intros w k Hin <-. apply Hk0. apply list_elem_of_fmap. by exists (k0, w). }
    destruct (Z.ltb_spec d 0) as [Hneg|Hpos].
    + specialize (IH (<[k0 := 0]> (<[k0 := d]> out))
                    (if String.eqb message ""
                     then ("resource quantity less than zero for: " +:+ k0)%string
                     else (message +:+ (", " +:+ k0))%string) Hnd).
      cbv zeta in IH. destruct IH as [IH1 IH2]. split.
      * intros k. rewrite IH1. rewrite insert_insert_eq, list_to_map_cons.
        destruct (decide (k0 = k)) as [->|Hne].
        -- rewrite (not_elem_of_list_to_map_1 _ k) by done.
           rewrite !lookup_insert_eq. f_equal. fold d. lia.
        -- rewrite !lookup_insert_ne by done.
           unfold get. rewrite lookup_insert_ne by done. done.
      * rewrite IH2. split.
        -- intros [Hm _]. exfalso.
           destruct (String.eqb message "") eqn:He.
           ++ by rewrite message_first in Hm.
           ++ by rewrite message_next in Hm.
        -- intros [_ H]. specialize (H k0 v0 ltac:(left)). fold d in H. lia.
    + specialize (IH (<[k0 := d]> out) message Hnd).
      cbv zeta in IH. destruct IH as [IH1 IH2]. split.
      * intros k. rewrite IH1, list_to_map_cons.
        destruct (decide (k0 = k)) as [->|Hne].
        -- rewrite (not_elem_of_list_to_map_1 _ k) by done.
           rewrite !lookup_insert_eq. f_equal. fold d. lia.
        -- rewrite !lookup_insert_ne by done.
           unfold get. rewrite lookup_insert_ne by done. done.
      * rewrite IH2. split.
        -- intros [Hm H]. split; [done|]. intros k v Hin.
           apply elem_of_cons in Hin as [[= -> ->]|Hin]; [by fold d|].
           specialize (H k v Hin). unfold get in H.
           by rewrite lookup_insert_ne in H by (by apply (Hother v)).
        -- intros [Hm H]. split; [done|]. intros k v Hin.
           unfold get. rewrite lookup_insert_ne by (by apply (Hother v)).
           apply H. by right.
Qed.

(** [SubErrorNegative(left, right)] and [SubEliminateNegative] return
    the same vector, never nil: a key of [right] holds the difference
    [subVal] of the two values, raised to 0 when negative; a key of
    [left] alone keeps its value, a negative one included.  The error
    is nil exactly when no key of [right] gave a negative
    difference. *)
Theorem SubErrorNegative_spec (left right : ResourceP) :
  exists out,
    (SubErrorNegative left right).1 = Some out /\
    SubEliminateNegative left right = Some out /\
    (forall k,
       Resources out !! k =
         match lookupP right k with
         | Some v => Some (Z.max 0 (subVal (valueOf left k) v))
         | None => lookupP left k
         end) /\
    ((SubErrorNegative left right).2 = None <->
       forall k v, entry right k v -> 0 <= subVal (valueOf left k) v).
Proof.
  unfold SubErrorNegative, SubEliminateNegative, subNonNegative.
  rewrite Clone_id. destruct right as [r|].
  - pose proof (subNonNegative_loop (range (Resources r))
                  (Resources (or_Zero left)) "" (NoDup_fst_map_to_list _)) as H.
    cbv zeta in H. destruct H as [H1 H2].
    destruct (foldl subNonNegative_body _ _) as [out message] eqn:Hst.
    simpl in *. exists (mkResource out). split; [done|]. split; [done|]. split.
    + intros k. rewrite H1. unfold range. rewrite list_to_map_to_list.
      by rewrite or_Zero_get, lookupP_or_Zero.
    + destruct (String.eqb message "") eqn:He; simpl.
      * split; [|done]. intros _ k v Hk. destruct (proj1 H2 eq_refl) as [_ He'].
        rewrite <- or_Zero_get. apply He'. apply entry_Some in Hk.
        by apply elem_of_map_to_list.
      * split; [done|]. intros H. assert (false = true); [|done].
        apply H2. split; [done|]. intros k v Hin.
        rewrite or_Zero_get. apply H. apply entry_Some.
        by apply elem_of_map_to_list in Hin.
  - simpl. exists (or_Zero left). split; [done|]. split; [done|]. split.
    + intros k. apply lookupP_or_Zero.
    + split; [|done]. intros _ k v Hk. by apply entry_None in Hk.
Qed.

End SubNonNegative.

(** ** Pruning *)

Section Pruning.

Lemma Prune_loop (entries : list (string * Z)) : forall (init : gmap string Z) k,
  NoDup entries.*1 ->
  foldl (fun m '(k, v) => if v =? 0 then delete k m else m) init entries !! k =
    match (list_to_map entries : gmap string Z) !! k with
    | Some v => if v =? 0 then None else init !! k
    | None => init !! k
    end.
Proof.
  induction entries as [|[k0 v0] rest IH]; intros init k Hnd.
  - reflexivity.
  - rewrite fmap_cons in Hnd. apply NoDup_cons in Hnd as [Hk0 Hnd]. cbn [fst] in Hk0.
    cbn [foldl]. rewrite IH by done. rewrite list_to_map_cons.
    destruct (decide (k0 = k)) as [->|Hne].
    + rewrite (not_elem_of_list_to_map_1 _ k) by done. rewrite lookup_insert_eq.
      destruct (v0 =? 0); [apply lookup_delete_eq|done].
    + rewrite lookup_insert_ne by done.
      assert (Hi : (if v0 =? 0 then delete k0 init else init) !! k = init !! k).
      { destruct (v0 =? 0); [by apply lookup_delete_ne|done]. }
      by rewrite Hi.
Qed.

Lemma Prune_lookup (r : ResourceP) k :
  lookupP (Prune r) k =
    match lookupP r k with
    | Some v => if v =? 0 then None else Some v
    | None => None
    end.
Proof.
  destruct r as [x|]; [|done]. simpl. unfold range.
  rewrite Prune_loop by apply NoDup_fst_map_to_list.
  rewrite list_to_map_to_list. by destruct (Resources x !! k).
Qed.

Lemma entry_lookupP (r : ResourceP) k v : entry r k v <-> lookupP r k = Some v.
Proof.
  destruct r as [x|]; simpl; [apply entry_Some|].
  split; [intros H; by apply entry_None in H|done].
Qed.

Lemma lookupP_ext (a b : ResourceP) :
  (a = None <-> b = None) -> (forall k, lookupP a k = lookupP b k) -> a = b.
Proof.
  intros Hn H. destruct a as [[x]|], b as [[y]|]; try done.
  - do 2 f_equal. apply map_eq. intros k. apply (H k).
  - by destruct (proj2 Hn eq_refl).
  - by destruct (proj1 Hn eq_refl).
Qed.

(** [Prune] removes the keys whose value is 0 and no other: a key is
    in the pruned vector exactly when the vector had it with a value
    other than 0, which it keeps.  Every key reads the same value
    before and after (an absent key reads 0), so the pruned vector is
    [EqualsOrEmpty] to the original; pruning twice changes nothing
    more, and nil stays nil. *)
Theorem Prune_spec (r : ResourceP) :
  (forall k v, entry (Prune r) k v <-> entry r k v /\ v <> 0) /\
  (forall k, valueOf (Prune r) k = valueOf r k) /\
  (Prune r = None <-> r = None) /\
  Prune (Prune r) = Prune r /\
  EqualsOrEmpty (Prune r) r = true.
Proof.
  assert (Hv : forall k, valueOf (Prune r) k = valueOf r k).
  { intros k. rewrite !valueOf_lookupP, Prune_lookup.
    destruct (lookupP r k) as [v|]; [|done].
    destruct (Z.eqb_spec v 0); simpl; lia. }
  split.
  { intros k v. rewrite !entry_lookupP, Prune_lookup.
    destruct (lookupP r k) as [w|]; [|by split; [|intros []]].
    destruct (Z.eqb_spec w 0); split; try done.
    - intros [[= ->] ?]. done.
    - intros [= ->]. done.
    - by intros [? _]. }
  split; [exact Hv|]. split; [by destruct r|]. split.
  - apply lookupP_ext; [by destruct r|]. intros k. rewrite !Prune_lookup.
    destruct (lookupP r k) as [v|]; [|done].
    destruct (v =? 0) eqn:E; [done|]. by rewrite E.
  - apply EqualsOrEmpty_true. exact Hv.
Qed.

End Pruning.

(** ** Multiplication, minimum, maximum and merge *)

Section Componentwise.

(** [Multiply(base, ratio)] is never nil.  For a ratio other than 0
    it has the keys of [base], each with [mulVal] of its value and the
    ratio; for the ratio 0, as for a nil [base], it has no key at all
    (not the keys of [base] with the value 0).  [MultiplyBy] is the
    same with [mulValRatio], for a ratio that is neither zero. *)
Theorem Multiply_entries (base : ResourceP) (ratio : Z) (fratio : float64) :
  (exists out, Multiply base ratio = Some out /\
     forall k, Resources out !! k =
       if ratio =? 0 then None
       else (fun v => mulVal v ratio) <$> lookupP base k) /\
  (exists out, MultiplyBy base fratio = Some out /\
     forall k, Resources out !! k =
       if Float64.eq fratio Float64.zero then None
       else (fun v => mulValRatio v fratio) <$> lookupP base k).
Proof.
  split.
  - unfold Multiply. destruct base as [b|].
    + destruct (ratio =? 0).
      * eexists. split; [done|]. intros k. apply lookup_empty.
      * eexists. split; [done|]. intros k. simpl.
        rewrite (insert_loop_lookup _ (fun _ v => Some (mulVal v ratio))) by done.
        rewrite lookup_empty. by destruct (Resources b !! k).
    + eexists. split; [done|]. intros k. simpl. rewrite lookup_empty.
      by destruct (ratio =? 0).
  - unfold MultiplyBy. destruct base as [b|].
    + destruct (Float64.eq fratio Float64.zero).
      * eexists. split; [done|]. intros k. apply lookup_empty.
      * eexists. split; [done|]. intros k. simpl.
        rewrite (insert_loop_lookup _ (fun _ v => Some (mulValRatio v fratio))) by done.
        rewrite lookup_empty. by destruct (Resources b !! k).
    + eexists. split; [done|]. intros k. simpl. rewrite lookup_empty.
      by destruct (Float64.eq fratio Float64.zero).
Qed.

Lemma ComponentWiseMin_lookup (l r : Resource) k :
  lookupP (ComponentWiseMin (Some l) (Some r)) k =
    match Resources l !! k, Resources r !! k with
    | Some a, Some b => Some (Z.min a b)
    | Some a, None => Some a
    | None, Some b => Some b
    | None, None => None
    end.
Proof.
  simpl.
  rewrite (insert_loop_lookup _
             (fun k v => match Resources l !! k with
                         | Some val => Some (Z.min v val)
                         | None => Some v
                         end)); cycle 1.
  { intros out k0 v. by destruct (Resources l !! k0). }
  rewrite (insert_loop_lookup _
             (fun k v => match Resources r !! k with
                         | Some val => Some (Z.min v val)
                         | None => Some v
                         end)); cycle 1.
  { intros out k0 v. by destruct (Resources r !! k0). }
  rewrite lookup_empty.
  destruct (Resources l !! k) as [a|], (Resources r !! k) as [b|]; try done.
  f_equal. lia.
Qed.

Lemma ComponentWiseMax_lookup (l r : Resource) k :
  lookupP (ComponentWiseMax (Some l) (Some r)) k =
    match Resources l !! k, Resources r !! k with
    | Some a, Some b => Some (Z.max a b)
    | Some a, None => Some (Z.max a 0)
    | None, Some b => Some (Z.max b 0)
    | None, None => None
    end.
Proof.
  simpl.
  rewrite (insert_loop_lookup _
             (fun k v => Some (Z.max v (get (Resources l) k)))) by done.
  rewrite (insert_loop_lookup _
             (fun k v => Some (Z.max v (get (Resources r) k)))) by done.
  rewrite lookup_empty. unfold get.
  destruct (Resources l !! k) as [a|], (Resources r !! k) as [b|]; simpl; try done.
  f_equal. lia.
Qed.

(** [ComponentWiseMin] of two non-nil vectors has the keys of either:
    a key of both holds the smaller value, a key of one alone holds
    its value.  The order of the arguments does not matter, and the
    minimum of a vector with itself is the vector. *)
Theorem ComponentWiseMin_spec (l r : Resource) :
  (forall k,
     lookupP (ComponentWiseMin (Some l) (Some r)) k =
       match Resources l !! k, Resources r !! k with
       | Some a, Some b => Some (Z.min a b)
       | Some a, None => Some a
       | None, Some b => Some b
       | None, None => None
       end) /\
  ComponentWiseMin (Some l) (Some r) = ComponentWiseMin (Some r) (Some l) /\
  ComponentWiseMin (Some l) (Some l) = Some l.
Proof.
  split; [apply ComponentWiseMin_lookup|]. split.
  - apply lookupP_ext; [done|]. intros k. rewrite !ComponentWiseMin_lookup.
    destruct (Resources l !! k), (Resources r !! k); try done. f_equal. lia.
  - apply lookupP_ext; [done|]. intros k. rewrite ComponentWiseMin_lookup. simpl.
    destruct (Resources l !! k); [|done]. f_equal. lia.
Qed.

(** [ComponentWiseMax] of two non-nil vectors has the keys of either:
    a key of both holds the larger value, and a key of one alone
    holds the larger of its value and 0, so that a negative value of
    a key the other vector lacks becomes 0.  The order of the
    arguments does not matter. *)
Theorem ComponentWiseMax_spec (l r : Resource) :
  (forall k,
     lookupP (ComponentWiseMax (Some l) (Some r)) k =
       match Resources l !! k, Resources r !! k with
       | Some a, Some b => Some (Z.max a b)
       | Some a, None => Some (Z.max a 0)
       | None, Some b => Some (Z.max b 0)
       | None, None => None
       end) /\
  ComponentWiseMax (Some l) (Some r) = ComponentWiseMax (Some r) (Some l) /\
  ComponentWiseMax (Some l) (Some l) = Some l.
Proof.
  split; [apply ComponentWiseMax_lookup|]. split.
  - apply lookupP_ext; [done|]. intros k. rewrite !ComponentWiseMax_lookup.
    destruct (Resources l !! k), (Resources r !! k); try done. f_equal. lia.
  - apply lookupP_ext; [done|]. intros k. rewrite ComponentWiseMax_lookup. simpl.
    destruct (Resources l !! k); [|done]. f_equal. lia.
Qed.

(** [MergeIfNotPresent] of two non-nil vectors keeps every entry of
    [left] and adds the entries of [right] whose key [left] lacks;
    [ComponentWiseMinOnlyExisting] has the keys of [left] only, each
    with the smaller of the two values when [right] has the key.
    With one nil argument, [MergeIfNotPresent] returns the other and
    [ComponentWiseMinOnlyExisting] returns [left]. *)
Theorem Merge_MinOnlyExisting_spec (l r : Resource) (o : ResourceP) :
  (exists out, MergeIfNotPresent (Some l) (Some r) = Some out /\
     Resources out = Resources l ∪ Resources r) /\
  (forall k,
     lookupP (ComponentWiseMinOnlyExisting (Some l) (Some r)) k =
       match Resources l !! k with
       | Some a => Some (match Resources r !! k with
                         | Some b => Z.min a b
                         | None => a
                         end)
       | None => None
       end) /\
  MergeIfNotPresent o None = o /\
  MergeIfNotPresent None o = o /\
  ComponentWiseMinOnlyExisting o None = o /\
  ComponentWiseMinOnlyExisting None o = None.
Proof.
  split.
  { unfold MergeIfNotPresent. rewrite Clone_id. eexists. split; [done|]. simpl.
    apply map_eq. intros k.
    rewrite (insert_loop_lookup _
               (fun k v => match Resources l !! k with
                           | Some _ => None
                           | None => Some v
                           end)); cycle 1.
    { intros out k0 v. by destruct (Resources l !! k0). }
    rewrite lookup_union.
    destruct (Resources l !! k) as [a|] eqn:Hl, (Resources r !! k) as [b|] eqn:Hr;
      simpl; done. }
  split.
  { intros k. simpl.
    rewrite (insert_loop_lookup _
               (fun k v => match Resources r !! k with
                           | Some val => Some (Z.min v val)
                           | None => Some v
                           end)); cycle 1.
    { intros out k0 v. by destruct (Resources r !! k0). }
    rewrite lookup_empty.
    destruct (Resources l !! k) as [a|], (Resources r !! k) as [b|]; done. }
  unfold MergeIfNotPresent, ComponentWiseMinOnlyExisting.
  repeat split; destruct o; by rewrite ?Clone_id.
Qed.

End Componentwise.

(** ** The safe calculators *)

Section SafeCalculators.

(** [addVal] returns the sum of two int64 when it is an int64, and
    otherwise the bound of the range on the side of the sum. *)
Theorem addVal_saturates (a b : Z) :
  in_range a -> in_range b ->
  addVal a b = clamp (a + b) /\ in_range (addVal a b) /\ addVal a b = addVal b a.
Proof.
  intros Ha Hb. split; [by apply addVal_clamp|].
  split; [by apply addVal_range|by apply addVal_comm].
Qed.

Lemma addVal_saturates_witness :
  in_range MaxInt64 /\ in_range 1 /\
  addVal MaxInt64 1 = clamp (MaxInt64 + 1) /\ in_range (addVal MaxInt64 1) /\
  addVal MaxInt64 1 = addVal 1 MaxInt64.
Proof.
  assert (H1 : in_range MaxInt64) by (vm_compute; split; discriminate).
  assert (H2 : in_range 1) by (vm_compute; split; discriminate).
  split; [exact H1|]. split; [exact H2|]. exact (addVal_saturates MaxInt64 1 H1 H2).
Defined.

(** [mulVal] returns the product of two int64 when it is an int64,
    and otherwise the bound of the range on the side of the
    product. *)
Theorem mulVal_saturates (a b : Z) :
  in_range a -> in_range b ->
  mulVal a b = clamp (a * b) /\ in_range (mulVal a b) /\ mulVal a b = mulVal b a.
Proof.
  intros Ha Hb. split; [by apply mulVal_clamp|].
  split; [by apply mulVal_range|].
  rewrite !mulVal_clamp by done. by rewrite Z.mul_comm.
Qed.

Lemma mulVal_saturates_witness :
  in_range MinInt64 /\ in_range (-1) /\
  mulVal MinInt64 (-1) = clamp (MinInt64 * -1) /\ in_range (mulVal MinInt64 (-1)) /\
  mulVal MinInt64 (-1) = mulVal (-1) MinInt64.
Proof.
  assert (H1 : in_range MinInt64) by (vm_compute; split; discriminate).
  assert (H2 : in_range (-1)) by (vm_compute; split; discriminate).
  split; [exact H1|]. split; [exact H2|]. exact (mulVal_saturates MinInt64 (-1) H1 H2).
Defined.

(** [subVal] returns the difference of two int64 when it is an int64,
    and otherwise the bound of the range on the side of the
    difference, for every subtrahend other than [MinInt64]. *)
Theorem subVal_saturates (a b : Z) :
  in_range a -> in_range b -> b <> MinInt64 ->
  subVal a b = clamp (a - b) /\ in_range (subVal a b).
Proof.
  intros Ha Hb Hne. rewrite subVal_clamp by done. split; [done|].
  unfold clamp, in_range, MinInt64, MaxInt64. lia.
Qed.

Lemma subVal_saturates_witness :
  in_range MinInt64 /\ in_range 1 /\ 1 <> MinInt64 /\
  subVal MinInt64 1 = clamp (MinInt64 - 1) /\ in_range (subVal MinInt64 1).
Proof.
  assert (H1 : in_range MinInt64) by (vm_compute; split; discriminate).
  assert (H2 : in_range 1) by (vm_compute; split; discriminate).
  assert (H3 : 1 <> MinInt64) by discriminate.
  split; [exact H1|]. split; [exact H2|]. split; [exact H3|].
  exact (subVal_saturates MinInt64 1 H1 H2 H3).
Defined.

End SafeCalculators.

(** ** Containment and the other comparisons *)

Section ContainmentRelations.

(** How the containment tests relate.  A vector that fits under
    [FitIn] fits under [FitInMaxUndef]; the two agree when [larger]
    has every key of [smaller]; [StrictlyGreaterThanOrEquals] implies
    [FitIn]; and what fits in a vector fits in every vector with
    values at least as large. *)
Theorem FitIn_relations (larger larger' smaller : ResourceP) :
  (FitIn larger smaller = true -> FitInMaxUndef larger smaller = true) /\
  ((forall k, present smaller k -> present larger k) ->
     FitInMaxUndef larger smaller = FitIn larger smaller) /\
  (StrictlyGreaterThanOrEquals larger smaller = true -> FitIn larger smaller = true) /\
  ((forall k, valueOf larger k <= valueOf larger' k) ->
     FitIn larger smaller = true -> FitIn larger' smaller = true).
Proof.
  unfold FitIn, FitInMaxUndef. repeat split.
  - rewrite !fitIn_true. intros H k v Hk. right.
    destruct (H k v Hk) as [[? _]|?]; done.
  - intros Hp. apply eq_true_iff_eq. rewrite !fitIn_true. split.
    + intros H k v Hk. right. destruct (H k v Hk) as [[_ Hn]|?]; [|done].
      destruct Hn. apply Hp. by exists v.
    + intros H k v Hk. right. destruct (H k v Hk) as [[? _]|?]; done.
  - rewrite StrictlyGreaterThanOrEquals_true, fitIn_true. intros H k v Hk. right.
    specialize (H k). destruct Hk as (x & -> & Hk). simpl in H. rewrite Hk in H.
    simpl in H. lia.
  - intros Hle. rewrite !fitIn_true. intros H k v Hk. right.
    destruct (H k v Hk) as [[? _]|?]; [done|]. specialize (Hle k). lia.
Qed.

(** A vector that fits in a non-nil receiver has the score 0 there;
    a nil receiver has the number of types of [fit] as its score,
    whatever their values, and a nil [fit] scores 0. *)
Theorem FitInScore_fit (r : Resource) (fit : ResourceP) :
  (FitIn (Some r) fit = true -> FitInScore (Some r) fit = Float64.zero) /\
  (forall f : Resource,
     FitInScore None (Some f) = of_int (Z.of_nat (size (Resources f)))) /\
  FitInScore None None = Float64.zero /\
  FitInScore (Some r) None = Float64.zero.
Proof.
  split; [|done]. unfold FitIn. rewrite fitIn_true. intros H.
  destruct fit as [f|]; [|done]. simpl.
  assert (Hall : forall k v, (k, v) ∈ range (Resources f) ->
            v <= Z.max 0 (get (Resources r) k)).
  { intros k v Hin. apply elem_of_map_to_list in Hin.
    destruct (H k v) as [[? _]|?]; [by exists f|done|done]. }
  clear H. revert Hall. generalize (range (Resources f)) as l.
  induction l as [|[k v] l IH]; intros Hall; [done|].
  cbn [foldl].
  match goal with
  | |- foldl _ ?a _ = _ => assert (Hstep : a = Float64.zero)
  end.
  { specialize (Hall k v ltac:(left)).
    destruct (Z.leb_spec v 0); [done|].
    destruct (Z.leb_spec (get (Resources r) k) 0); [lia|].
    destruct (Z.gtb_spec v (get (Resources r) k)); [lia|done]. }
  rewrite Hstep. apply IH. intros k' v' Hin. apply Hall. by right.
Qed.

End ContainmentRelations.

(** ** The comparators are consistent *)

Section Comparators.

(** The value of [compareShares] on lists without NaN. *)
Lemma compareShares_value (lshares rshares : list float64) :
  NaN_free lshares -> NaN_free rshares ->
  compareShares lshares rshares
    = Some (compare_from_largest (rev lshares) (rev rshares)).
Proof.
  intros Hl Hr.
  assert (Hl' : NaN_free (rev lshares)) by (by apply Forall_rev).
  assert (Hr' : NaN_free (rev rshares)) by (by apply Forall_rev).
  unfold compareShares.
  set (fuel := S (length lshares + length rshares)).
  pose proof (compare_both_spec (rev lshares) (rev rshares) [] [] fuel Hl' Hr') as H1.
  rewrite !rev_involutive, !app_nil_r, !length_rev in H1.
  specialize (H1 ltac:(unfold fuel; lia)).
  destruct (compare_both fuel lshares rshares _ _) as [[z|[lIdx rIdx]]|];
    [by rewrite H1| |done].
  destruct H1 as (l' & r' & dl & dr & Hdl & Hdr & Hor & -> & -> & ->).
  assert (Hls : lshares = rev l' ++ rev dl).
  { rewrite <- rev_app_distr, <- Hdl. by rewrite rev_involutive. }
  assert (Hrs : rshares = rev r' ++ rev dr).
  { rewrite <- rev_app_distr, <- Hdr. by rewrite rev_involutive. }
  assert (Hnl : NaN_free l').
  { rewrite Hdl in Hl'. by apply Forall_app in Hl' as [_ ?]. }
  assert (Hnr : NaN_free r').
  { rewrite Hdr in Hr'. by apply Forall_app in Hr' as [_ ?]. }
  assert (Hfl : (length l' < fuel)%nat).
  { unfold fuel. rewrite Hls, length_app, length_rev. lia. }
  assert (Hfr : (length r' < fuel)%nat).
  { unfold fuel. rewrite Hrs, length_app, length_rev. lia. }
  pose proof (compare_rest_spec l' (rev dl) fuel 1 (-1) Hnl Hfl) as H2.
  pose proof (compare_rest_spec r' (rev dr) fuel (-1) 1 Hnr Hfr) as H3.
  rewrite <- Hls in H2. rewrite <- Hrs in H3.
  clearbody fuel.
  destruct l' as [|x l'], r' as [|y r'].
  - reflexivity.
  - change (Z.of_nat (length (@nil float64)) - 1) with (-1) in *.
    assert (Hri : 0 <= Z.of_nat (length (y :: r')) - 1) by (simpl length; lia).
    set (ri := Z.of_nat (length (y :: r')) - 1) in *. clearbody ri.
    destruct (Z.eqb_spec ri (-1)) as [E|_]; [lia|].
    change (compare_from_largest [] (y :: r')) with (- decide_by_sign (y :: r')).
    pose proof (decide_by_sign_range (y :: r')) as Hd.
    set (d := decide_by_sign (y :: r')) in *. clearbody d.
    cbn [andb]. change (0 <=? -1) with false. cbv iota. rewrite H3.
    destruct Hd as [->| [->| ->]]; reflexivity.
  - change (Z.of_nat (length (@nil float64)) - 1) with (-1) in *.
    assert (Hli : 0 <= Z.of_nat (length (x :: l')) - 1) by (simpl length; lia).
    set (li := Z.of_nat (length (x :: l')) - 1) in *. clearbody li.
    destruct (Z.eqb_spec li (-1)) as [E|_]; [lia|].
    destruct (Z.leb_spec 0 li) as [_|E]; [|lia].
    change (compare_from_largest (x :: l') []) with (decide_by_sign (x :: l')).
    pose proof (decide_by_sign_range (x :: l')) as Hd.
    set (d := decide_by_sign (x :: l')) in *. clearbody d.
    cbn [andb]. rewrite H2.
    destruct Hd as [->| [->| ->]]; try reflexivity.
    simpl. by rewrite compare_rest_eq.
  - by destruct Hor.
Qed.

Lemma lt_asym (x y : float64) : Float64.lt x y = true -> Float64.lt y x = false.
Proof.
  intros H.
  assert (Hl : less x y = true) by (unfold less; by rewrite H).
  apply less_rank in Hl.
  destruct (less y x) eqn:Hyx.
  - apply less_rank in Hyx. unfold lex_lt in *. lia.
  - unfold less in Hyx. by apply orb_false_iff in Hyx as [? _].
Qed.

Lemma eq_sym_NaN_free (x y : float64) :
  IsNaN x = false -> IsNaN y = false -> Float64.eq x y = Float64.eq y x.
Proof.
  intros Hx Hy.
  destruct (compare_cases x y Hx Hy) as [(He & Hg & Hl)|[(He & Hg & Hl)|(He & Hg & Hl)]];
    destruct (compare_cases y x Hy Hx)
      as [(He' & Hg' & Hl')|[(He' & Hg' & Hl')|(He' & Hg' & Hl')]];
    unfold Float64.gt, Float64.lt in *; congruence.
Qed.

Lemma decide_by_sign_eq_0 l :
  decide_by_sign l = 0 -> forall x, x ∈ l -> Float64.eq x Float64.zero = true.
Proof.
  induction l as [|y l IH]; intros H x Hin; [by apply elem_of_nil in Hin|].
  simpl in H. destruct (Float64.eq y Float64.zero) eqn:He.
  - apply elem_of_cons in Hin as [->|Hin]; [done|by apply IH].
  - by destruct (Float64.gt y Float64.zero).
Qed.

Lemma compare_from_largest_antisym l : forall r,
  NaN_free l -> NaN_free r ->
  compare_from_largest r l = - compare_from_largest l r.
Proof.
  induction l as [|x l IH]; intros [|y r] Hl Hr.
  - reflexivity.
  - change (compare_from_largest (y :: r) []) with (decide_by_sign (y :: r)).
    change (compare_from_largest [] (y :: r)) with (- decide_by_sign (y :: r)). lia.
  - change (compare_from_largest (x :: l) []) with (decide_by_sign (x :: l)).
    change (compare_from_largest [] (x :: l)) with (- decide_by_sign (x :: l)). lia.
  - apply NaN_free_cons in Hl as [Hx Hl]. apply NaN_free_cons in Hr as [Hy Hr].
    simpl. rewrite (eq_sym_NaN_free y x Hy Hx).
    destruct (compare_cases x y Hx Hy) as [(He & Hg & Hlt)|[(He & Hg & Hlt)|(He & Hg & Hlt)]];
      rewrite He; [by apply IH| |].
    + rewrite Hg. unfold Float64.gt, Float64.lt in *. by rewrite Hlt.
    + rewrite Hg. unfold Float64.gt, Float64.lt in *. by rewrite Hlt.
Qed.

Lemma compare_from_largest_refl l :
  NaN_free l -> compare_from_largest l l = 0.
Proof.
  induction l as [|x l IH]; intros Hl; [done|].
  apply NaN_free_cons in Hl as [Hx Hl]. simpl.
  destruct (compare_cases x x Hx Hx) as [(He & Hg & Hlt)|[(He & Hg & Hlt)|(He & Hg & Hlt)]];
    unfold Float64.gt, Float64.lt in *; try congruence.
  rewrite He. by apply IH.
Qed.

(** [compareShares] is a consistent comparator on lists of shares (no
    NaN among them): it always returns, exchanging the two lists
    negates the result, and a list compared with itself gives 0. *)
Theorem compareShares_antisym (lshares rshares : list float64) :
  NaN_free lshares -> NaN_free rshares ->
  exists c,
    compareShares lshares rshares = Some c /\
    compareShares rshares lshares = Some (- c) /\
    compareShares lshares lshares = Some 0.
Proof.
  intros Hl Hr. eexists. split; [by apply compareShares_value|].
  rewrite !compareShares_value by done. split.
  - f_equal. apply compare_from_largest_antisym; by apply Forall_rev.
  - f_equal. apply compare_from_largest_refl. by apply Forall_rev.
Qed.

Lemma compareShares_antisym_witness :
  NaN_free [Float64.zero; of_int 3] /\ NaN_free [of_int 1; of_int 2; of_int 3] /\
  exists c,
    compareShares [Float64.zero; of_int 3] [of_int 1; of_int 2; of_int 3] = Some c /\
    compareShares [of_int 1; of_int 2; of_int 3] [Float64.zero; of_int 3] = Some (- c) /\
    compareShares [Float64.zero; of_int 3] [Float64.zero; of_int 3] = Some 0.
Proof.
  assert (H1 : NaN_free [Float64.zero; of_int 3]) by (repeat constructor).
  assert (H2 : NaN_free [of_int 1; of_int 2; of_int 3]) by (repeat constructor).
  split; [exact H1|]. split; [exact H2|].
  exact (compareShares_antisym _ _ H1 H2).
Defined.

(** [CompUsageRatioSeparately] is antisymmetric: exchanging the two
    sides negates the result. *)
Theorem CompUsageRatioSeparately_antisym (la lg lf ra rg rf : ResourceP) :
  CompUsageRatioSeparately ra rg rf la lg lf
    = - CompUsageRatioSeparately la lg lf ra rg rf.
Proof.
  unfold CompUsageRatioSeparately.
  set (x := getFairShare la lg lf). set (y := getFairShare ra rg rf).
  pose proof (lt_asym x y) as Ha. unfold Float64.gt, Float64.lt in *.
  destruct (SFltb x y) eqn:Hxy, (SFltb y x) eqn:Hyx; try done.
  by specialize (Ha eq_refl).
Qed.

End Comparators.

(** ** Fair shares and the dominant type *)

Section FairShares.

Lemma foldl_ext_in {A B} (f g : A -> B -> A) (l : list B) (a : A) :
  (forall a b, b ∈ l -> f a b = g a b) -> foldl f a l = foldl g a l.
Proof.
  revert a. induction l as [|b l IH]; intros a H; [done|]. simpl.
  rewrite H by left. apply IH. intros. apply H. by right.
Qed.

Lemma getShareFairForDenominator_found k v (d : ResourceP) :
  ((getShareFairForDenominator k v d).2 = true <-> present d k) /\
  ((getShareFairForDenominator k v d).2 = false ->
     (getShareFairForDenominator k v d).1 = Float64.zero).
Proof.
  unfold getShareFairForDenominator. destruct d as [x|]; simpl.
  - rewrite present_lookupP. simpl. unfold get.
    destruct (Resources x !! k) as [w|] eqn:Hk; simpl.
    + rewrite ?bool_decide_eq_true_2 by eauto. simpl.
      destruct (Z.leb_spec w 0).
      * destruct (v <=? 0); simpl; (split; [split; eauto|done]).
      * destruct (Z.gtb_spec w 0); [|lia]. simpl. split; [split; eauto|done].
    + rewrite ?bool_decide_eq_false_2 by (by intros [? ?]). simpl.
      split; [|done]. split; [done|by intros [? ?]].
  - split; [|done]. split; [done|]. intros [w Hw]. by apply entry_None in Hw.
Qed.

(** [getFairShare] measures each type against [guaranteed] when
    [guaranteed] has the type, and against [fair] only otherwise: a
    share is found for a type exactly when the denominator vector has
    the type; when [guaranteed] has every type of [allocated], [fair]
    is not used; a nil [guaranteed] leaves [fair] in its place.  A
    nil or empty [allocated] has the share 0. *)
Theorem getFairShare_denominators (allocated guaranteed fair : ResourceP) :
  (forall k v d, (getShareFairForDenominator k v d).2 = true <-> present d k) /\
  ((forall k, present allocated k -> present guaranteed k) ->
     getFairShare allocated guaranteed fair = getFairShare allocated guaranteed None) /\
  getFairShare allocated None fair = getFairShare allocated fair None /\
  getFairShare None guaranteed fair = Float64.zero /\
  getFairShare (Some NewResource) guaranteed fair = Float64.zero.
Proof.
  split; [intros; apply getShareFairForDenominator_found|].
  split; [|split; [|done]].
  - intros Hp. unfold getFairShare. destruct allocated as [a|]; [|done].
    destruct (size (Resources a) =? 0)%nat; [done|].
    apply foldl_ext_in. intros maxShare [k v] Hin.
    apply elem_of_map_to_list in Hin.
    destruct (get (Resources a) k <? 0); [done|].
    assert (Hf : (getShareFairForDenominator k v guaranteed).2 = true).
    { apply getShareFairForDenominator_found. apply Hp. exists v. by apply entry_Some. }
    destruct (getShareFairForDenominator k v guaranteed) as [s b]. simpl in Hf.
    subst b. done.
  - unfold getFairShare. destruct allocated as [a|]; [|done].
    destruct (size (Resources a) =? 0)%nat; [done|].
    apply foldl_ext_in. intros maxShare [k v] Hin.
    destruct (get (Resources a) k <? 0); [done|].
    change (getShareFairForDenominator k v None) with (Float64.zero, false).
    cbn [negb].
    pose proof (proj2 (getShareFairForDenominator_found k v fair)) as Hz.
    destruct (getShareFairForDenominator k v fair) as [s b]. simpl in Hz.
    destruct b; [done|]. cbn [negb]. by rewrite Hz.
Qed.

Lemma DominantResourceType_loop (c : Resource) (entries : list (string * Z)) :
  forall st,
    (foldl (DominantResourceType_body c) st entries).2 = st.2 \/
    exists v w, ((foldl (DominantResourceType_body c) st entries).2, v) ∈ entries /\
                Resources c !! (foldl (DominantResourceType_body c) st entries).2 = Some w.
Proof.
  induction entries as [|[k v] rest IH]; intros [div dominant]; [by left|].
  cbn [foldl].
  destruct (IH (DominantResourceType_body c (div, dominant) (k, v))) as [He|(v' & w & Hin & Hc)].
  - rewrite He. unfold DominantResourceType_body.
    destruct (Resources c !! k) as [capVal|] eqn:Hk; [|by left].
    match goal with |- context [if ?b then _ else _] => destruct b end;
      simpl; [|by left].
    right. exists v, capVal. split; [by left|done].
  - right. exists v', w. split; [by right|done].
Qed.

(** [DominantResourceType] returns the empty name or a type that
    both the usage and the capacity have: never a type that the
    capacity lacks.  With a nil usage or a nil capacity the name is
    empty. *)
Theorem DominantResourceType_present (r capacity : ResourceP) :
  (DominantResourceType r capacity = ""%string \/
   (present r (DominantResourceType r capacity) /\
    present capacity (DominantResourceType r capacity))) /\
  DominantResourceType None capacity = ""%string /\
  DominantResourceType r None = ""%string.
Proof.
  split; [|split; [done|by destruct r]].
  destruct r as [u|], capacity as [c|]; try by left.
  unfold DominantResourceType.
  destruct (DominantResourceType_loop c (range (Resources u)) (Float64.zero, ""%string))
    as [He|(v & w & Hin & Hc)].
  - left. exact He.
  - right. split.
    + exists v. apply entry_Some. by apply elem_of_map_to_list in Hin.
    + exists w. by apply entry_Some.
Qed.

End FairShares.

(** ** Copies and changes in place *)

Section InPlace.

(** [Clone] of nil is nil.  [Clone] of a vector returns a new object
    with a new map that has the same keys and values; every object
    and map of the memory is as it was, so that a later change of the
    copy cannot reach the original. *)
Theorem Clone_independent (h : Heap.heap) (r : option Heap.loc) :
  Heap.wf h -> Heap.valid_ptr h r ->
  (r = None -> Heap.Clone r h = Some (None, h)) /\
  (forall a, r = Some a ->
     exists res h',
       Heap.Clone r h = Some (Some res, h') /\
       Heap.preserved h h' r r res /\
       Heap.value h' (Some res) = Heap.value h r).
Proof.
  intros Hwf Hr. split; [by intros ->|]. intros a ->.
  destruct Hr as [m Hm]. destruct (proj2 Hwf _ _ Hm) as [c Hc].
  pose proof (fresh_object h) as Hfo. pose proof (fresh_map h) as Hfm.
  eexists _, _. split; [by apply (Clone_alloc h a m c)|].
  assert (Hv : Heap.valid_ptr h (Some a)) by (by exists m).
  split.
  - unfold Heap.preserved. cbn [Heap.objects Heap.maps Heap.Zero].
    split; [by apply insert_subseteq|]. split; [by apply insert_subseteq|].
    split; [done|].
    split; [by apply value_insert|]. split; [by apply value_insert|].
    split; [done|].
    split. { intros [= <-]. congruence. }
    split. { intros [= <-]. congruence. }
    eexists. rewrite !lookup_insert_eq. eauto.
  - unfold Heap.value. simpl. rewrite lookup_insert_eq. simpl.
    rewrite lookup_insert_eq, Hm. simpl. by rewrite Hc.
Qed.

Lemma Clone_independent_witness :
  let h := Heap.mkHeap 1%positive
             (<[1%positive := 1%positive]> (<[2%positive := 2%positive]> ∅))
             (<[1%positive := ∅]> (<[2%positive := {[ "x"%string := 1 ]}]> ∅)) in
  Heap.wf h /\ Heap.valid_ptr h (Some 2%positive) /\
  exists res h',
    Heap.Clone (Some 2%positive) h = Some (Some res, h') /\
    Heap.preserved h h' (Some 2%positive) (Some 2%positive) res /\
    Heap.value h' (Some res) = Heap.value h (Some 2%positive).
Proof.
  intros h.
  assert (Hwf : Heap.wf h).
  { split; [by eexists|]. intros r m Hr.
    assert (Hall : map_Forall (fun _ m => is_Some (Heap.maps h !! m)) (Heap.objects h))
      by (apply (bool_decide_unpack _); vm_compute; exact I).
    exact (Hall r m Hr). }
  assert (Hp : Heap.valid_ptr h (Some 2%positive)) by (by eexists).
  split; [exact Hwf|]. split; [exact Hp|].
  exact (proj2 (Clone_independent h (Some 2%positive) Hwf Hp) 2%positive eq_refl).
Defined.

(** The run of [AddTo] and [SubFrom] on two vectors. *)
Lemma accumulate_in_place op (h : Heap.heap) (r add rm am : Heap.loc)
    (rc ac : gmap string Z) :
  Heap.objects h !! r = Some rm -> Heap.maps h !! rm = Some rc ->
  Heap.objects h !! add = Some am -> Heap.maps h !! am = Some ac ->
  (src ← Heap.field add;
   kvs ← Heap.map_range src;
   Heap.forM kvs (fun '(k, v) =>
                    dst ← Heap.field r;
                    cur ← Heap.map_get dst k;
                    Heap.map_set dst k (op cur v))) h
  = Some (tt, Heap.mkHeap (Heap.Zero h) (Heap.objects h)
                (<[rm := accumulate op rc (range ac)]> (Heap.maps h))).
Proof.
  intros Hr Hrc Ha Hac.
  erewrite bind_Some; [|unfold Heap.field; rewrite Ha; reflexivity].
  erewrite bind_Some; [|unfold Heap.map_range; rewrite Hac; reflexivity].
  by apply forM_accumulate.
Qed.

(** [AddTo(r, add)] and [SubFrom(r, sub)] change the map of their
    receiver and nothing else.  With a nil receiver or a nil argument
    the memory is unchanged; otherwise the receiver afterwards has
    the keys and values of [Add] ([Sub]) of the two vectors, also
    when both pointers are the same. *)
Theorem AddTo_SubFrom_in_place (h : Heap.heap) (r add : option Heap.loc) :
  Heap.wf h -> Heap.valid_ptr h r -> Heap.valid_ptr h add ->
  (exists h',
     Mutators.AddTo r add h = Some (tt, h') /\
     Mutators.only_receiver_changed h h' r /\
     (r = None \/ add = None -> h' = h) /\
     (forall rv av, Heap.value h r = Some rv -> Heap.value h add = Some av ->
        Heap.value h' r = Add (Some rv) (Some av))) /\
  (exists h',
     Mutators.SubFrom r add h = Some (tt, h') /\
     Mutators.only_receiver_changed h h' r /\
     (r = None \/ add = None -> h' = h) /\
     (forall rv av, Heap.value h r = Some rv -> Heap.value h add = Some av ->
        Heap.value h' r = Sub (Some rv) (Some av))).
Proof.
  intros Hwf Hr Ha.
  assert (Hsame : forall h0 : Heap.heap, Mutators.only_receiver_changed h0 h0 r)
    by (by intros h0).
  destruct r as [r|]; [|split; exists h; repeat split; auto; done].
  destruct add as [a|]; [|split; exists h; repeat split; auto; done].
  destruct Hr as [rm Hrm]. destruct (proj2 Hwf _ _ Hrm) as [rc Hrc].
  destruct Ha as [am Ham]. destruct (proj2 Hwf _ _ Ham) as [ac Hac].
  assert (Hvr : Heap.value h (Some r) = Some (mkResource rc)).
  { unfold Heap.value. simpl. rewrite Hrm. simpl. by rewrite Hrc. }
  assert (Hva : Heap.value h (Some a) = Some (mkResource ac)).
  { unfold Heap.value. simpl. rewrite Ham. simpl. by rewrite Hac. }
  assert (Hgen : forall op, exists h',
     (src ← Heap.field a;
      kvs ← Heap.map_range src;
      Heap.forM kvs (fun '(k, v) =>
                       dst ← Heap.field r;
                       cur ← Heap.map_get dst k;
                       Heap.map_set dst k (op cur v))) h = Some (tt, h') /\
     Mutators.only_receiver_changed h h' (Some r) /\
     (Some r = None \/ Some a = None -> h' = h) /\
     (forall rv av, Heap.value h (Some r) = Some rv -> Heap.value h (Some a) = Some av ->
        Heap.value h' (Some r) =
          Some (mkResource (accumulate op (Resources rv) (range (Resources av)))))).
  { intros op. eexists. split; [by apply (accumulate_in_place op h r a rm am rc ac)|].
    split; [|split].
    - split; [done|]. split; [done|]. intros m Hm. simpl.
      apply lookup_insert_ne. intros <-. by apply (Hm r).
    - intros [?|?]; done.
    - intros rv av Hrv Hav. rewrite Hvr in Hrv. rewrite Hva in Hav.
      injection Hrv as <-. injection Hav as <-.
      unfold Heap.value. simpl. rewrite Hrm. simpl. by rewrite lookup_insert_eq. }
  split.
  - destruct (Hgen addVal) as (h' & Hrun & Hframe & Hnil & Hval).
    exists h'. repeat split; try done; try apply Hframe.
    intros rv av Hrv Hav. rewrite Add_Some. by apply Hval.
  - destruct (Hgen subVal) as (h' & Hrun & Hframe & Hnil & Hval).
    exists h'. repeat split; try done; try apply Hframe.
    intros rv av Hrv Hav. rewrite Sub_Some. by apply Hval.
Qed.

Lemma AddTo_SubFrom_in_place_witness :
  let h := Heap.mkHeap 1%positive
             (<[1%positive := 1%positive]> (<[2%positive := 2%positive]> ∅))
             (<[1%positive := ∅]> (<[2%positive := {[ "x"%string := 1 ]}]> ∅)) in
  Heap.wf h /\ Heap.valid_ptr h (Some 2%positive) /\
  exists h',
    Mutators.AddTo (Some 2%positive) (Some 2%positive) h = Some (tt, h') /\
    Mutators.only_receiver_changed h h' (Some 2%positive).
Proof.
  intros h.
  assert (Hwf : Heap.wf h).
  { split; [by eexists|]. intros r m Hr.
    assert (Hall : map_Forall (fun _ m => is_Some (Heap.maps h !! m)) (Heap.objects h))
      by (apply (bool_decide_unpack _); vm_compute; exact I).
    exact (Hall r m Hr). }
  assert (Hp : Heap.valid_ptr h (Some 2%positive)) by (by eexists).
  split; [exact Hwf|]. split; [exact Hp|].
  destruct (proj1 (AddTo_SubFrom_in_place h (Some 2%positive) (Some 2%positive) Hwf Hp Hp))
    as (h' & Hrun & Hframe & _).
  exists h'. split; [exact Hrun|exact Hframe].
Defined.

(** [NewResourceFromMap] does not copy the map it is given: two
    vectors made from one map share it, and [AddTo] on the first
    changes the keys and values of the second as well. *)
Theorem NewResourceFromMap_shares (h : Heap.heap) (m add : Heap.loc)
    (c : gmap string Z) (av : Resource) :
  Heap.maps h !! m = Some c ->
  Heap.value h (Some add) = Some av ->
  exists r1 r2 h',
    (r1 ← Mutators.NewResourceFromMap (Some m);
     r2 ← Mutators.NewResourceFromMap (Some m);
     Mutators.AddTo (Some r1) (Some add) ≫= fun _ => mret (r1, r2)) h
      = Some ((r1, r2), h') /\
    r1 <> r2 /\
    Heap.value h' (Some r1) = Add (Some (mkResource c)) (Some av) /\
    Heap.value h' (Some r2) = Add (Some (mkResource c)) (Some av).
Proof.
  intros Hm Hadd.
  assert (Ha : exists am, Heap.objects h !! add = Some am /\
                          Heap.maps h !! am = Some (Resources av)).
  { unfold Heap.value in Hadd. simpl in Hadd.
    destruct (Heap.objects h !! add) as [am|] eqn:Ham; [|done]. simpl in Hadd.
    destruct (Heap.maps h !! am) as [ac|] eqn:Hac; [|done]. simpl in Hadd.
    injection Hadd as <-. eauto. }
  destruct Ha as (am & Ham & Hac).
  set (r1 := fresh (dom (Heap.objects h))).
  set (h1 := Heap.mkHeap (Heap.Zero h) (<[r1 := m]> (Heap.objects h)) (Heap.maps h)).
  set (r2 := fresh (dom (Heap.objects h1))).
  set (h2 := Heap.mkHeap (Heap.Zero h) (<[r2 := m]> (Heap.objects h1)) (Heap.maps h)).
  pose proof (fresh_object h) as Hf1. fold r1 in Hf1.
  pose proof (fresh_object h1) as Hf2. fold r2 in Hf2.
  assert (Hne : r1 <> r2).
  { intros He. rewrite <- He in Hf2. unfold h1 in Hf2. simpl in Hf2.
    by rewrite lookup_insert_eq in Hf2. }
  assert (Hadd2 : Heap.objects h2 !! add = Some am).
  { unfold h2, h1. simpl. rewrite !lookup_insert_ne; [done| |].
    - intros <-. congruence.
    - intros <-. unfold h1 in Hf2. simpl in Hf2.
      rewrite lookup_insert_ne in Hf2 by done. congruence. }
  assert (Hr1 : Heap.objects h2 !! r1 = Some m).
  { unfold h2, h1. simpl. rewrite lookup_insert_ne by done. apply lookup_insert_eq. }
  exists r1, r2. eexists. split.
  - erewrite bind_Some; [|reflexivity]. fold r1 h1.
    erewrite bind_Some; [|reflexivity]. fold r2 h2.
    erewrite bind_Some; cycle 1.
    { apply (accumulate_in_place addVal h2 r1 add m am c (Resources av)); done. }
    reflexivity.
  - split; [done|]. rewrite Add_Some. simpl.
    unfold Heap.value. simpl. rewrite lookup_insert_eq. simpl.
    rewrite lookup_insert_ne by done. rewrite lookup_insert_eq. simpl.
    rewrite !lookup_insert_eq. done.
Qed.

Lemma NewResourceFromMap_shares_witness :
  let h := Heap.mkHeap 1%positive
             (<[1%positive := 1%positive]> (<[2%positive := 2%positive]> ∅))
             (<[1%positive := ∅]> (<[2%positive := {[ "x"%string := 1 ]}]> ∅)) in
  Heap.maps h !! 1%positive = Some ∅ /\
  Heap.value h (Some 2%positive) = Some (mkResource {[ "x"%string := 1 ]}) /\
  exists r1 r2 h',
    (r1 ← Mutators.NewResourceFromMap (Some 1%positive);
     r2 ← Mutators.NewResourceFromMap (Some 1%positive);
     Mutators.AddTo (Some r1) (Some 2%positive) ≫= fun _ => mret (r1, r2)) h
      = Some ((r1, r2), h') /\
    r1 <> r2 /\
    Heap.value h' (Some r1)
      = Add (Some (mkResource ∅)) (Some (mkResource {[ "x"%string := 1 ]})) /\
    Heap.value h' (Some r2)
      = Add (Some (mkResource ∅)) (Some (mkResource {[ "x"%string := 1 ]})).
Proof.
  intros h.
  assert (H1 : Heap.maps h !! 1%positive = Some ∅) by reflexivity.
  assert (H2 : Heap.value h (Some 2%positive) = Some (mkResource {[ "x"%string := 1 ]}))
    by reflexivity.
  split; [exact H1|]. split; [exact H2|].
  exact (NewResourceFromMap_shares h 1%positive 2%positive ∅ _ H1 H2).
Defined.

End InPlace.

(** ** The wire form *)

Section WireForm.

Lemma from_proto_loop (l : list (string * option Z)) : forall (init : gmap string Z),
  NoDup l.*1 ->
  match foldlM (fun out '(k, v) =>
                  match v with
                  | Some Value => Some (<[k := Value]> out)
                  | None => None
                  end) init l with
  | Some out =>
      (forall k v, (k, v) ∈ l -> is_Some v) /\
      forall k, out !! k =
        match (list_to_map l : gmap string (option Z)) !! k with
        | Some (Some v) => Some v
        | _ => init !! k
        end
  | None => exists k, (k, None) ∈ l
  end.
Proof.
  induction l as [|[k0 [v0|]] l IH]; intros init Hnd.
  - simpl. split; [|done]. intros k v Hin. by apply elem_of_nil in Hin.
  - rewrite fmap_cons in Hnd. apply NoDup_cons in Hnd as [Hk0 Hnd]. cbn [fst] in Hk0.
    cbn [foldlM]. specialize (IH (<[k0 := v0]> init) Hnd).
    destruct (foldlM _ _ l) as [out|].
    + destruct IH as [Hall Hout]. split.
      * intros k v Hin. apply elem_of_cons in Hin as [[= -> ->]|Hin]; [eauto|].
        by apply (Hall k).
      * intros k. rewrite Hout, list_to_map_cons.
        destruct (decide (k0 = k)) as [->|Hne].
        -- rewrite (not_elem_of_list_to_map_1 _ k) by done.
           by rewrite !lookup_insert_eq.
        -- by rewrite !lookup_insert_ne by done.
    + destruct IH as [k Hk]. exists k. by right.
  - simpl. exists k0. by left.
Qed.

Lemma ToProto_lookup (r : ResourceP) k :
  siResources (ToProto r) !! k = Some <$> lookupP r k.
Proof.
  destruct r as [x|]; simpl; [|apply lookup_empty].
  unfold range.
  rewrite <- (list_to_map_to_list (Resources x)) at 2.
  generalize (NoDup_fst_map_to_list (Resources x)).
  generalize (map_to_list (Resources x)) as l.
  assert (Hgen : forall (l : list (string * Z)) (init : gmap string (option Z)),
    NoDup l.*1 ->
    foldl (fun proto '(k, v) => <[k := Some v]> proto) init l !! k =
      match (list_to_map l : gmap string Z) !! k with
      | Some v => Some (Some v)
      | None => init !! k
      end).
  { induction l as [|[k0 v0] l IH]; intros init Hnd; [done|].
    rewrite fmap_cons in Hnd. apply NoDup_cons in Hnd as [Hk0 Hnd]. cbn [fst] in Hk0.
    cbn [foldl]. rewrite IH by done. rewrite list_to_map_cons.
    destruct (decide (k0 = k)) as [->|Hne].
    - rewrite (not_elem_of_list_to_map_1 _ k) by done. by rewrite !lookup_insert_eq.
    - by rewrite !lookup_insert_ne by done. }
  intros l Hnd. rewrite Hgen by done. rewrite lookup_empty.
  by destruct (list_to_map l !! k).
Qed.

(** The wire form and back: [NewResourceFromProto(r.ToProto())] has
    the keys and values of [r], and is the empty vector for a nil
    [r]; [DAOMap] has the same entries.  [NewResourceFromProto] of a
    nil structure is the empty vector, and a structure with a nil
    quantity makes it panic. *)
Theorem ToProto_round_trip (r : ResourceP) :
  NewResourceFromProto (Some (ToProto r)) = Some (or_Zero r) /\
  DAOMap r = Resources (or_Zero r) /\
  NewResourceFromProto None = Some NewResource /\
  (forall (p : siResource) k,
     siResources p !! k = Some None -> NewResourceFromProto (Some p) = None).
Proof.
  split; [|split; [|split; [done|]]].
  - unfold NewResourceFromProto.
    pose proof (from_proto_loop (map_to_list (siResources (ToProto r)))
                  (Resources NewResource) (NoDup_fst_map_to_list _)) as H.
    destruct (foldlM _ _ _) as [out|].
    + destruct H as [_ H]. simpl. f_equal.
      destruct (or_Zero r) as [m] eqn:Hr. f_equal. apply map_eq. intros k.
      rewrite H, list_to_map_to_list, ToProto_lookup.
      replace (m !! k) with (lookupP r k)
        by (rewrite <- lookupP_or_Zero; by rewrite Hr).
      simpl. rewrite lookup_empty. by destruct (lookupP r k).
    + exfalso. destruct H as [k Hk]. apply elem_of_map_to_list in Hk.
      rewrite ToProto_lookup in Hk. by destruct (lookupP r k).
  - destruct r as [x|]; [|done].
    pose proof (Clone_id (Some x)) as Hc. simpl in Hc. simpl.
    destruct x as [m]. simpl in *. by injection Hc.
  - intros p k Hk. unfold NewResourceFromProto.
    pose proof (from_proto_loop (map_to_list (siResources p))
                  (Resources NewResource) (NoDup_fst_map_to_list _)) as H.
    destruct (foldlM _ _ _) as [out|]; [|done].
    destruct H as [Hall _]. apply elem_of_map_to_list in Hk.
    destruct (Hall k None Hk) as [? ?]. done.
Qed.

End WireForm.

(** ** The conversion of an int64 to float64 *)

Section FloatConversion.

Lemma digits2_size m : digits2_pos m = Pos.size m.
Proof. induction m; simpl; congruence. Qed.

Lemma digits2_bounds m :
  2 ^ (Z.pos (digits2_pos m) - 1) <= Z.pos m < 2 ^ Z.pos (digits2_pos m).
Proof.
  rewrite digits2_size. split.
  - pose proof (Pos.size_le m) as H.
    apply Pos2Z.pos_le_pos in H. rewrite Pos2Z.inj_pow in H.
    replace (Z.pos (Pos.size m)) with (Z.succ (Z.pos (Pos.size m) - 1)) in H at 1 by lia.
    rewrite Z.pow_succ_r in H by lia. lia.
  - pose proof (Pos.size_gt m) as H.
    apply Pos2Z.pos_lt_pos in H. by rewrite Pos2Z.inj_pow in H.
Qed.

(** The number of digits is fixed by the bounds. *)
Lemma digits2_unique m d :
  2 ^ (d - 1) <= Z.pos m < 2 ^ d -> 0 < d -> Z.pos (digits2_pos m) = d.
Proof.
  intros [Hlo Hhi] Hd. pose proof (digits2_bounds m) as [Hlo' Hhi'].
  assert (d - 1 < Z.pos (digits2_pos m)).
  { apply (Z.pow_lt_mono_r_iff 2); lia. }
  assert (Z.pos (digits2_pos m) - 1 < d).
  { apply (Z.pow_lt_mono_r_iff 2); lia. }
  lia.
Qed.

Lemma shr_1_m r : 0 <= shr_m r -> shr_m (shr_1 r) = shr_m r / 2.
Proof.
  destruct r as [m rr s]. simpl. intros Hm. rewrite <- Z.div2_div.
  destruct m as [|[p|p|]|p]; simpl in *; try reflexivity; lia.
Qed.

Lemma iter_shr_1_m p : forall r,
  0 <= shr_m r -> shr_m (SpecFloat.iter_pos shr_1 p r) = shr_m r / 2 ^ Z.pos p.
Proof.
  assert (Hnn : forall a b, 0 <= a -> 0 < b -> 0 <= a / b)
    by (intros; apply Z.div_pos; lia).
  assert (HxO : forall p, 2 ^ Z.pos p~0 = 2 ^ Z.pos p * 2 ^ Z.pos p)
    by (intros; rewrite <- Z.pow_add_r by lia; f_equal; lia).
  assert (HxI : forall p, 2 ^ Z.pos p~1 = 2 * (2 ^ Z.pos p * 2 ^ Z.pos p)).
  { intros q. rewrite <- Z.pow_add_r by lia. rewrite <- Z.pow_succ_r by lia.
    f_equal. lia. }
  assert (Hpos : forall p, 0 < 2 ^ Z.pos p) by (intros; apply Z.pow_pos_nonneg; lia).
  induction p as [p IH|p IH|]; intros r Hr; simpl SpecFloat.iter_pos.
  - assert (H1 : 0 <= shr_m (shr_1 r)) by (rewrite shr_1_m by done; apply Hnn; lia).
    assert (H2 : 0 <= shr_m (SpecFloat.iter_pos shr_1 p (shr_1 r)))
      by (rewrite IH by done; apply Hnn; auto).
    rewrite IH, IH, shr_1_m by done.
    pose proof (Hpos p). rewrite !Z.div_div by lia. by rewrite HxI.
  - assert (H2 : 0 <= shr_m (SpecFloat.iter_pos shr_1 p r))
      by (rewrite IH by done; apply Hnn; auto).
    rewrite IH, IH by done.
    pose proof (Hpos p). rewrite !Z.div_div by lia. by rewrite HxO.
  - by apply shr_1_m.
Qed.

Lemma round_nearest_even_cases m l :
  round_nearest_even m l = m \/ round_nearest_even m l = m + 1.
Proof.
  unfold round_nearest_even. destruct l as [|[]]; auto.
  destruct (Z.even m); auto.
Qed.

Lemma shr_m_of_loc m l : shr_m (shr_record_of_loc m l) = m.
Proof. by destruct l as [|[]]. Qed.

Lemma fexp_eq e : -1021 <= e -> fexp 53 1024 e = e - 53.
Proof. intros H. unfold fexp, emin. lia. Qed.

(** The first shift leaves 53 digits. *)
Lemma first_shift (mz0 : positive) (e0 : Z) :
  53 <= Z.pos (digits2_pos mz0) -> -1074 <= e0 ->
  exists mrs',
    shr_fexp 53 1024 (Z.pos mz0) e0 loc_Exact
      = (mrs', e0 + (Z.pos (digits2_pos mz0) - 53)) /\
    2 ^ 52 <= shr_m mrs' < 2 ^ 53.
Proof.
  intros Hd He. pose proof (digits2_bounds mz0) as [Hlo Hhi].
  set (d := Z.pos (digits2_pos mz0)) in *.
  unfold shr_fexp. change (Zdigits2 (Z.pos mz0)) with d.
  rewrite fexp_eq by lia.
  replace (d + e0 - 53 - e0) with (d - 53) by lia.
  destruct (d - 53) as [|n|n] eqn:Hn; [| |lia].
  - eexists. split; [unfold shr; rewrite Z.add_0_r; reflexivity|].
    simpl. replace d with 53 in * by lia. simpl in Hlo. lia.
  - eexists. split; [reflexivity|].
    rewrite iter_shr_1_m by (simpl; lia). simpl shr_m.
    assert (Hp : 0 < 2 ^ Z.pos n) by (apply Z.pow_pos_nonneg; lia).
    assert (E1 : 2 ^ Z.pos n * 2 ^ 52 = 2 ^ (d - 1)).
    { rewrite <- Z.pow_add_r by lia. f_equal. lia. }
    assert (E2 : 2 ^ Z.pos n * 2 ^ 53 = 2 ^ d).
    { rewrite <- Z.pow_add_r by lia. f_equal. lia. }
    split.
    + apply Z.div_le_lower_bound; lia.
    + apply Z.div_lt_upper_bound; lia.
Qed.

(** The second shift, after the rounding, leaves a finite value. *)
Lemma second_shift (sx : bool) (m2 e : Z) :
  2 ^ 52 <= m2 <= 2 ^ 53 -> -1074 <= e <= 900 ->
  exists m e',
    (let '(mrs'', e'') := shr_fexp 53 1024 m2 e loc_Exact in
     match shr_m mrs'' with
     | Z0 => S754_zero sx
     | Zpos m => if Z.leb e'' (1024 - 53) then S754_finite sx m e'' else S754_infinity sx
     | _ => S754_nan
     end) = S754_finite sx m e'.
Proof.
  intros Hm He. destruct m2 as [|p|p]; [simpl in Hm; lia| |lia].
  destruct (Z.eq_dec (Z.pos p) (2 ^ 53)) as [E|E].
  - injection E as ->. unfold shr_fexp.
    change (Zdigits2 _) with 54. rewrite fexp_eq by lia.
    replace (54 + e - 53 - e) with 1 by lia. simpl.
    destruct (Z.leb_spec (e + 1) (1024 - 53)); [|lia]. eauto.
  - assert (Hd : Z.pos (digits2_pos p) = 53) by (apply digits2_unique; simpl; lia).
    unfold shr_fexp. change (Zdigits2 (Z.pos p)) with (Z.pos (digits2_pos p)).
    rewrite Hd, fexp_eq by lia.
    replace (53 + e - 53 - e) with 0 by lia. simpl.
    destruct (Z.leb_spec e (1024 - 53)); [|lia]. eauto.
Qed.

Lemma binary_round_aux_finite sx (mz0 : positive) (e0 : Z) :
  53 <= Z.pos (digits2_pos mz0) <= 64 -> -1074 <= e0 <= 0 ->
  exists m e, binary_round_aux 53 1024 sx (Z.pos mz0) e0 loc_Exact = S754_finite sx m e.
Proof.
  intros Hd He. unfold binary_round_aux.
  destruct (first_shift mz0 e0) as (mrs' & -> & Hm1); [lia|lia|].
  apply second_shift; [|lia].
  destruct (round_nearest_even_cases (shr_m mrs') (loc_of_shr_record mrs')) as [->| ->]; lia.
Qed.

Lemma digits2_iter_xO m q :
  digits2_pos (Pos.iter xO m q) = (digits2_pos m + q)%positive.
Proof.
  induction q as [|q IH] using Pos.peano_ind.
  - simpl. by rewrite Pos.add_1_r.
  - rewrite Pos.iter_succ. simpl. rewrite IH. lia.
Qed.

Lemma binary_round_finite sx (mx : positive) :
  Z.pos mx < 2 ^ 64 ->
  exists m e, binary_round 53 1024 sx mx 0 = S754_finite sx m e.
Proof.
  intros Hmx. pose proof (digits2_bounds mx) as [Hlo Hhi].
  assert (Hd : Z.pos (digits2_pos mx) <= 64).
  { assert (Z.pos (digits2_pos mx) - 1 < 64); [|lia].
    apply (Z.pow_lt_mono_r_iff 2); lia. }
  unfold binary_round. rewrite Z.add_0_r, fexp_eq by lia.
  unfold shl_align. rewrite Z.sub_0_r.
  destruct (Z.pos (digits2_pos mx) - 53) as [|n|n] eqn:Hn.
  - apply binary_round_aux_finite; lia.
  - apply binary_round_aux_finite; lia.
  - apply binary_round_aux_finite; [|lia].
    rewrite digits2_iter_xO. lia.
Qed.

Lemma shr_fexp_nonneg m e l :
  0 <= m -> 0 <= shr_m (shr_fexp 53 1024 m e l).1.
Proof.
  intros Hm. unfold shr_fexp, shr.
  destruct (fexp 53 1024 (Zdigits2 m + e) - e) as [|n|n]; simpl;
    rewrite ?iter_shr_1_m, ?shr_m_of_loc by (by rewrite shr_m_of_loc); try done.
  apply Z.div_pos; [done|]. apply Z.pow_pos_nonneg; lia.
Qed.

Lemma binary_round_aux_not_nan sx mx ex lx :
  0 <= mx -> binary_round_aux 53 1024 sx mx ex lx <> S754_nan.
Proof.
  intros Hm. unfold binary_round_aux.
  pose proof (shr_fexp_nonneg mx ex lx Hm) as H1.
  destruct (shr_fexp 53 1024 mx ex lx) as [mrs' e']. simpl in H1.
  assert (H2 : 0 <= round_nearest_even (shr_m mrs') (loc_of_shr_record mrs')).
  { destruct (round_nearest_even_cases (shr_m mrs') (loc_of_shr_record mrs')) as [->| ->]; lia. }
  pose proof (shr_fexp_nonneg _ e' loc_Exact H2) as H3.
  destruct (shr_fexp 53 1024 _ e' loc_Exact) as [mrs'' e'']. simpl in H3.
  destruct (shr_m mrs'') as [|m|m]; [done| |lia].
  by destruct (e'' <=? 1024 - 53).
Qed.

Lemma SFdiv_finite_not_nan sx mx ex sy my ey :
  SFdiv 53 1024 (S754_finite sx mx ex) (S754_finite sy my ey) <> S754_nan.
Proof.
  unfold SFdiv, SFdiv_core_binary.
  match goal with
  | |- context [Z.div_eucl ?a ?b] =>
      assert (Hq : 0 <= a / b); [|unfold Z.div in Hq; destruct (Z.div_eucl a b) as [q r]]
  end.
  - apply Z.div_pos; [|lia].
    match goal with |- 0 <= match ?s with _ => _ end => destruct s end; try lia.
    apply Z.shiftl_nonneg. lia.
  - by apply binary_round_aux_not_nan.
Qed.

(** The float64 of an int64 other than 0 is finite and not zero. *)
Lemma of_int_finite z :
  z <> 0 -> in_range z -> exists s m e, of_int z = S754_finite s m e.
Proof.
  intros Hz Hr. unfold of_int, Float64.prec, Float64.emax, binary_normalize.
  unfold in_range, MinInt64, MaxInt64 in Hr.
  destruct z as [|p|p]; [done| |].
  - destruct (binary_round_finite false p) as (m & e & H); [lia|]. eauto.
  - destruct (binary_round_finite true p) as (m & e & H); [lia|]. eauto.
Qed.

Lemma get_in_range (t : Resource) k : valid (Some t) -> in_range (get (Resources t) k).
Proof.
  intros Hv. unfold get. destruct (Resources t !! k) as [v|] eqn:Hk; simpl.
  - apply (Hv k). by apply entry_Some.
  - unfold in_range, MinInt64, MaxInt64. lia.
Qed.

Lemma share_of_not_NaN (total : ResourceP) (kv : string * Z) :
  valid total -> in_range kv.2 -> kv.2 <> 0 -> IsNaN (share_of total kv) = false.
Proof.
  intros Ht Hr Hz. unfold share_of.
  destruct (of_int_finite kv.2 Hz Hr) as (s & m & e & Hv).
  destruct total as [t|]; [|by rewrite Hv].
  destruct (Z.eqb_spec (get (Resources t) kv.1) 0) as [|Hne]; [by rewrite Hv|].
  destruct (of_int_finite _ Hne (get_in_range t kv.1 Ht)) as (s' & m' & e' & Hd).
  rewrite Hv, Hd. unfold Float64.div, Float64.prec, Float64.emax.
  pose proof (SFdiv_finite_not_nan s m e s' m' e') as Hn.
  by destruct (SFdiv 53 1024 _ _).
Qed.

Lemma getShares_shares_NaN_free (res total : ResourceP) :
  valid res -> valid total ->
  exists shares, getShares res total = Some shares /\ NaN_free shares.
Proof.
  intros Hres Htotal. destruct res as [r|]; [|exists []; split; [done|constructor]].
  destruct (decide (size (Resources r) = 0%nat)) as [Hs|Hs].
  - exists []. unfold getShares. rewrite Hs. split; [done|constructor].
  - rewrite getShares_Some by done. eexists. split; [reflexivity|].
    unfold NaN_free. rewrite Float64s_perm. apply Forall_app. split.
    + apply Forall_map. apply Forall_forall. intros [k v] Hin.
      unfold nonzero_entries in Hin. apply list_elem_of_filter in Hin as [Hnz Hin].
      apply share_of_not_NaN; [done| |done]. simpl.
      apply (Hres k). apply entry_Some. by apply elem_of_map_to_list.
    + apply Forall_replicate. done.
Qed.

(** [getShares] returns, for vectors of int64, a list without NaN:
    every share is 0, the float64 of a value other than 0, or the
    quotient of two such. *)
Theorem getShares_no_NaN (res total : ResourceP) :
  valid res -> valid total ->
  exists shares, getShares res total = Some shares /\ NaN_free shares.
Proof. apply getShares_shares_NaN_free. Qed.

Lemma getShares_no_NaN_witness :
  valid (vec [("cpu"%string, 4); ("memory"%string, 0)]) /\
  valid (vec [("cpu"%string, 8)]) /\
  exists shares,
    getShares (vec [("cpu"%string, 4); ("memory"%string, 0)]) (vec [("cpu"%string, 8)])
      = Some shares /\ NaN_free shares.
Proof.
  assert (H1 : valid (vec [("cpu"%string, 4); ("memory"%string, 0)])).
  { apply valid_vec. repeat constructor; simpl; vm_compute; congruence. }
  assert (H2 : valid (vec [("cpu"%string, 8)])).
  { apply valid_vec. repeat constructor; simpl; vm_compute; congruence. }
  split; [exact H1|]. split; [exact H2|]. exact (getShares_no_NaN _ _ H1 H2).
Defined.

(** [CompUsageRatio] always returns on vectors of int64: the result
    is 1, 0 or -1, the comparison of the two lists of shares from
    their largest shares down; exchanging [left] and [right] negates
    it, and a vector compared with itself gives 0. *)
Theorem CompUsageRatio_consistent (left right total : ResourceP) :
  valid left -> valid right -> valid total ->
  exists lshares rshares c,
    getShares left total = Some lshares /\
    getShares right total = Some rshares /\
    CompUsageRatio left right total = Some c /\
    c = compare_from_largest (rev lshares) (rev rshares) /\
    (c = 1 \/ c = 0 \/ c = -1) /\
    CompUsageRatio right left total = Some (- c) /\
    CompUsageRatio left left total = Some 0.
Proof.
  intros Hl Hr Ht.
  destruct (getShares_shares_NaN_free left total Hl Ht) as (ls & Hls & Hnl).
  destruct (getShares_shares_NaN_free right total Hr Ht) as (rs & Hrs & Hnr).
  exists ls, rs, (compare_from_largest (rev ls) (rev rs)).
  unfold CompUsageRatio. rewrite Hls, Hrs. simpl.
  rewrite !compareShares_value by done.
  repeat split; try done.
  - apply compare_from_largest_range.
  - f_equal. apply compare_from_largest_antisym; by apply Forall_rev.
  - f_equal. apply compare_from_largest_refl. by apply Forall_rev.
Qed.

Lemma CompUsageRatio_consistent_witness :
  valid (vec [("cpu"%string, 4)]) /\
  valid (vec [("cpu"%string, 2); ("memory"%string, 1)]) /\
  valid (vec [("cpu"%string, 8); ("memory"%string, 16)]) /\
  exists lshares rshares c,
    getShares (vec [("cpu"%string, 4)]) (vec [("cpu"%string, 8); ("memory"%string, 16)])
      = Some lshares /\
    getShares (vec [("cpu"%string, 2); ("memory"%string, 1)])
              (vec [("cpu"%string, 8); ("memory"%string, 16)]) = Some rshares /\
    CompUsageRatio (vec [("cpu"%string, 4)])
                   (vec [("cpu"%string, 2); ("memory"%string, 1)])
                   (vec [("cpu"%string, 8); ("memory"%string, 16)]) = Some c /\
    c = compare_from_largest (rev lshares) (rev rshares) /\
    (c = 1 \/ c = 0 \/ c = -1) /\
    CompUsageRatio (vec [("cpu"%string, 2); ("memory"%string, 1)])
                   (vec [("cpu"%string, 4)])
                   (vec [("cpu"%string, 8); ("memory"%string, 16)]) = Some (- c) /\
    CompUsageRatio (vec [("cpu"%string, 4)]) (vec [("cpu"%string, 4)])
                   (vec [("cpu"%string, 8); ("memory"%string, 16)]) = Some 0.
Proof.
  assert (H1 : valid (vec [("cpu"%string, 4)])).
  { apply valid_vec. repeat constructor; simpl; vm_compute; congruence. }
  assert (H2 : valid (vec [("cpu"%string, 2); ("memory"%string, 1)])).
  { apply valid_vec. repeat constructor; simpl; vm_compute; congruence. }
  assert (H3 : valid (vec [("cpu"%string, 8); ("memory"%string, 16)])).
  { apply valid_vec. repeat constructor; simpl; vm_compute; congruence. }
  split; [exact H1|]. split; [exact H2|]. split; [exact H3|].
  exact (CompUsageRatio_consistent _ _ _ H1 H2 H3).
Defined.

End FloatConversion.
